(** * SuperH-4 RzIL lifter and register binding: a shallow embedding

    This development embeds [librz/analysis/arch/sh/sh_il.c] (the SuperH
    instruction lifter) and the register binding / register sync code that
    follows it in the same source file, and proves properties of them.

    The lifter is a builder of RzIL trees.  The trees are an inductive
    type here, the op-builder macros of [rz_il_opbuilder_begin.h] are
    functions over nullable trees, and the lifter functions are written
    with them the way the C code is.  RzIL evaluation, which the register
    sync and the privileged-instruction generators rely on, is an
    interpreter over a VM record. *)

From Stdlib Require Import ZArith Lia Bool List Sorted.
From stdpp Require Import gmap strings list fin_maps.

Local Open Scope Z_scope.

(** ** RzIL: pure expressions, effects, values *)

Module IL.

(** Modelled from the spec: the RzIL node types ([rz_il_opcodes.h]) are not
    among the sources.  Sections 3 and 4.1 list the pure operations and
    the effects; operations of one and of two operands are grouped. *)
Inductive unop : Type :=
  | OBoolInv | OLogNot | OMsb | OLsb | OIsZero | ONonZero.

Inductive binop : Type :=
  | OBoolAnd | OBoolOr | OBoolXor
  | OLogAnd | OLogOr | OLogXor
  | OAdd | OSub | OMul
  | OShiftL0 | OShiftR0
  | OEq | OUlt | OUle | OUgt | OUge
  | OSlt | OSle | OSgt | OSge.

(** [RzILOpPure]: a side-effect free value computation. *)
Inductive Pure : Type :=
  | PBool (b : bool)
  | PBv (w v : Z)
  | PVarG (name : string)
  | PVarL (name : string)
  | PIte (c t e : Pure)
  | PUn (op : unop) (x : Pure)
  | PBin (op : binop) (x y : Pure)
  | PCast (sign : bool) (w : Z) (x : Pure)
  | PLoadW (bits : Z) (addr : Pure).

(** [RzILOpEffect]: a state mutation. *)
Inductive Effect : Type :=
  | ENop
  | EEmpty
  | ESetG (name : string) (x : Pure)
  | ESetL (name : string) (x : Pure)
  | EStoreW (addr val : Pure)
  | EJmp (dst : Pure)
  | EBranch (c : Pure) (t e : Effect)
  | ESeq (x y : Effect).

(** [RzILVal]: a boolean or a bitvector of [w] bits holding [0 <= v < 2^w]. *)
Inductive Val : Type :=
  | VBool (b : bool)
  | VBv (w v : Z).

Definition bv (w v : Z) : Val := VBv w (v mod 2 ^ w).

(** Two's complement reading of a [w]-bit value. *)
Definition to_signed (w v : Z) : Z :=
  if Z.testbit v (w - 1) then v - 2 ^ w else v.

(** [RzILRegBindingItem]: a bound variable, by name and size in bits. *)
Record RzILRegBindingItem : Type := mkBinding {
  rb_name : string;
  rb_size : Z
}.

(** [RzBitVector]: length in bits and value. *)
Definition RzBitVector : Type := (Z * Z)%type.

(** The VM: global and local variable stores, byte memory, program counter,
    the register binding (absent until set up) and the event log. *)
Record VM : Type := mkVM {
  vm_globals : gmap string Val;
  vm_locals : gmap string Val;
  vm_mem : gmap Z Z;
  vm_big_endian : bool;
  vm_pc : RzBitVector;
  vm_reg_binding : option (list RzILRegBindingItem);
  vm_events : list string
}.

Definition set_global (st : VM) (n : string) (v : Val) : VM :=
  mkVM (<[n := v]> (vm_globals st)) (vm_locals st) (vm_mem st)
       (vm_big_endian st) (vm_pc st) (vm_reg_binding st) (vm_events st).

Definition set_local (st : VM) (n : string) (v : Val) : VM :=
  mkVM (vm_globals st) (<[n := v]> (vm_locals st)) (vm_mem st)
       (vm_big_endian st) (vm_pc st) (vm_reg_binding st) (vm_events st).

Definition set_mem (st : VM) (m : gmap Z Z) : VM :=
  mkVM (vm_globals st) (vm_locals st) m
       (vm_big_endian st) (vm_pc st) (vm_reg_binding st) (vm_events st).

Definition set_pc (st : VM) (v : RzBitVector) : VM :=
  mkVM (vm_globals st) (vm_locals st) (vm_mem st)
       (vm_big_endian st) v (vm_reg_binding st) (vm_events st).

(** [rz_il_vm_event_add]: events are appended to the log. *)
Definition rz_il_vm_event_add (st : VM) (ev : string) : VM :=
  mkVM (vm_globals st) (vm_locals st) (vm_mem st)
       (vm_big_endian st) (vm_pc st) (vm_reg_binding st) (vm_events st ++ [ev]).

Definition mem_byte (m : gmap Z Z) (a : Z) : Z := default 0 (m !! a).

(** Little-endian reading of [n] bytes at [a]. *)
Fixpoint load_le (m : gmap Z Z) (a : Z) (n : nat) : Z :=
  match n with
  | O => 0
  | S k => mem_byte m a + 256 * load_le m (a + 1) k
  end.

(** Big-endian reading of [n] bytes at [a], onto the accumulator. *)
Fixpoint load_be (m : gmap Z Z) (a : Z) (n : nat) (acc : Z) : Z :=
  match n with
  | O => acc
  | S k => load_be m (a + 1) k (256 * acc + mem_byte m a)
  end.

Definition loadw (st : VM) (bits a : Z) : Z :=
  let n := Z.to_nat (bits / 8) in
  if vm_big_endian st then load_be (vm_mem st) a n 0
  else load_le (vm_mem st) a n.

Fixpoint store_le (m : gmap Z Z) (a : Z) (n : nat) (v : Z) : gmap Z Z :=
  match n with
  | O => m
  | S k => store_le (<[a := v mod 256]> m) (a + 1) k (v / 256)
  end.

Fixpoint store_be (m : gmap Z Z) (a : Z) (n : nat) (v : Z) : gmap Z Z :=
  match n with
  | O => m
  | S k => store_be (<[a + Z.of_nat k := v mod 256]> m) a k (v / 256)
  end.

Definition storew (st : VM) (bits a v : Z) : gmap Z Z :=
  let n := Z.to_nat (bits / 8) in
  if vm_big_endian st then store_be (vm_mem st) a n v
  else store_le (vm_mem st) a n v.

Section Eval.

(** Modelled from the spec: the RzIL evaluator is not among the sources,
    and the spec does not say whether it converts between a boolean and a
    bitvector where the other sort is expected (a non-zero bitvector
    reads as true, a boolean as a one-bit vector).  The lifter builds
    some trees that are well sorted only under that conversion, so the
    evaluator takes the choice as a parameter; results about well-sorted
    trees hold for both settings. *)
Variable auto_convert : bool.

Definition as_bool (v : Val) : option bool :=
  match v with
  | VBool b => Some b
  | VBv _ x => if auto_convert then Some (negb (x =? 0)) else None
  end.

Definition as_bv (v : Val) : option (Z * Z) :=
  match v with
  | VBv w x => Some (w, x)
  | VBool b => if auto_convert then Some (1, Z.b2z b) else None
  end.

Definition eval_un (op : unop) (v : Val) : option Val :=
  match op with
  | OBoolInv => b ← as_bool v; Some (VBool (negb b))
  | OLogNot => '(w, x) ← as_bv v; Some (bv w (Z.lnot x))
  | OMsb => '(w, x) ← as_bv v; Some (VBool (Z.testbit x (w - 1)))
  | OLsb => '(w, x) ← as_bv v; Some (VBool (Z.testbit x 0))
  | OIsZero => '(w, x) ← as_bv v; Some (VBool (x =? 0))
  | ONonZero => '(w, x) ← as_bv v; Some (VBool (negb (x =? 0)))
  end.

Definition eval_bool2 (f : bool → bool → bool) (v1 v2 : Val) : option Val :=
  b1 ← as_bool v1; b2 ← as_bool v2; Some (VBool (f b1 b2)).

(** Bitvector operations on two operands of one width. *)
Definition eval_bv2 (f : Z → Z → Z → Val) (v1 v2 : Val) : option Val :=
  '(w1, x1) ← as_bv v1; '(w2, x2) ← as_bv v2;
  if w1 =? w2 then Some (f w1 x1 x2) else None.

Definition eval_shift (f : Z → Z → Z → Val) (v1 v2 : Val) : option Val :=
  '(w1, x1) ← as_bv v1; '(w2, x2) ← as_bv v2; Some (f w1 x1 x2).

Definition eval_bin (op : binop) (v1 v2 : Val) : option Val :=
  match op with
  | OBoolAnd => eval_bool2 andb v1 v2
  | OBoolOr => eval_bool2 orb v1 v2
  | OBoolXor => eval_bool2 xorb v1 v2
  | OLogAnd => eval_bv2 (λ w x y, bv w (Z.land x y)) v1 v2
  | OLogOr => eval_bv2 (λ w x y, bv w (Z.lor x y)) v1 v2
  | OLogXor => eval_bv2 (λ w x y, bv w (Z.lxor x y)) v1 v2
  | OAdd => eval_bv2 (λ w x y, bv w (x + y)) v1 v2
  | OSub => eval_bv2 (λ w x y, bv w (x - y)) v1 v2
  | OMul => eval_bv2 (λ w x y, bv w (x * y)) v1 v2
  | OShiftL0 => eval_shift (λ w x s, bv w (Z.shiftl x s)) v1 v2
  | OShiftR0 => eval_shift (λ w x s, bv w (Z.shiftr x s)) v1 v2
  | OEq => eval_bv2 (λ w x y, VBool (x =? y)) v1 v2
  | OUlt => eval_bv2 (λ w x y, VBool (x <? y)) v1 v2
  | OUle => eval_bv2 (λ w x y, VBool (x <=? y)) v1 v2
  | OUgt => eval_bv2 (λ w x y, VBool (y <? x)) v1 v2
  | OUge => eval_bv2 (λ w x y, VBool (y <=? x)) v1 v2
  | OSlt => eval_bv2 (λ w x y, VBool (to_signed w x <? to_signed w y)) v1 v2
  | OSle => eval_bv2 (λ w x y, VBool (to_signed w x <=? to_signed w y)) v1 v2
  | OSgt => eval_bv2 (λ w x y, VBool (to_signed w y <? to_signed w x)) v1 v2
  | OSge => eval_bv2 (λ w x y, VBool (to_signed w y <=? to_signed w x)) v1 v2
  end.

(** Modelled from the spec: evaluation of a pure tree.  Section 4.1 lists
    the operations: bitwise and two's complement
    arithmetic modulo [2^width], zero-filling logical shifts, signed and
    unsigned extension or truncation to an explicit width, comparisons,
    most and least significant bit, conditional selection, typed memory
    load, global and local variable access. *)
Fixpoint eval (st : VM) (p : Pure) : option Val :=
  match p with
  | PBool b => Some (VBool b)
  | PBv w v => Some (bv w v)
  | PVarG n => vm_globals st !! n
  | PVarL n => vm_locals st !! n
  | PIte c t e =>
      vc ← eval st c; b ← as_bool vc;
      if b : bool then eval st t else eval st e
  | PUn op x => v ← eval st x; eval_un op v
  | PBin op x y => v1 ← eval st x; v2 ← eval st y; eval_bin op v1 v2
  | PCast sign w x =>
      v ← eval st x; '(w0, x0) ← as_bv v;
      Some (bv w (if sign then to_signed w0 x0 else x0))
  | PLoadW bits a =>
      v ← eval st a; '(_, x) ← as_bv v; Some (bv bits (loadw st bits x))
  end.

(** Modelled from the spec: execution of an effect.  Effects compose by
    sequencing only; a step that does not evaluate fails the whole
    effect. *)
Fixpoint exec (st : VM) (e : Effect) : option VM :=
  match e with
  | ENop | EEmpty => Some st
  | ESetG n x => v ← eval st x; Some (set_global st n v)
  | ESetL n x => v ← eval st x; Some (set_local st n v)
  | EStoreW a x =>
      va ← eval st a; '(_, xa) ← as_bv va;
      v ← eval st x; '(w, xv) ← as_bv v;
      Some (set_mem st (storew st w xa xv))
  | EJmp d => v ← eval st d; b ← as_bv v; Some (set_pc st b)
  | EBranch c t e =>
      vc ← eval st c; b ← as_bool vc;
      if b : bool then exec st t else exec st e
  | ESeq x y => st' ← exec st x; exec st' y
  end.

(** [rz_il_evaluate_bitv]: the value of a pure tree as a bitvector, NULL
    when the tree is NULL or does not evaluate to one. *)
Definition rz_il_evaluate_bitv (st : VM) (p : option Pure) : option RzBitVector :=
  p' ← p; v ← eval st p'; as_bv v.

End Eval.

(** *** The op builder *)

(** Modelled from the spec: [rz_il_opbuilder_begin.h] is not among the
    sources.  Each macro allocates the node of its name; operands are
    pointers and may be NULL, and a builder handed a NULL operand yields
    NULL.  [SEQn] nests to the right. *)

Definition UN (w v : Z) : option Pure := Some (PBv w v).
Definition SN (w v : Z) : option Pure := Some (PBv w v).
Definition U8 (v : Z) : option Pure := UN 8 v.
Definition IL_TRUE : option Pure := Some (PBool true).
Definition IL_FALSE : option Pure := Some (PBool false).
Definition VARG (n : option string) : option Pure := PVarG <$> n.
Definition VARL (n : string) : option Pure := Some (PVarL n).
Definition DUP (x : option Pure) : option Pure := x.

Definition un (op : unop) (x : option Pure) : option Pure := PUn op <$> x.
Definition bin (op : binop) (x y : option Pure) : option Pure :=
  x' ← x; y' ← y; Some (PBin op x' y').

Definition ITE (c t e : option Pure) : option Pure :=
  c' ← c; t' ← t; e' ← e; Some (PIte c' t' e').
Definition AND := bin OBoolAnd.
Definition OR := bin OBoolOr.
Definition XOR := bin OBoolXor.
Definition INV := un OBoolInv.
Definition LOGAND := bin OLogAnd.
Definition LOGOR := bin OLogOr.
Definition LOGXOR := bin OLogXor.
Definition LOGNOT := un OLogNot.
Definition ADD := bin OAdd.
Definition SUB := bin OSub.
Definition MUL := bin OMul.
Definition SHIFTL0 := bin OShiftL0.
Definition SHIFTR0 := bin OShiftR0.
Definition EQ := bin OEq.
Definition ULT := bin OUlt.
Definition UGT := bin OUgt.
Definition MSB := un OMsb.
Definition LSB := un OLsb.
Definition IS_ZERO := un OIsZero.
Definition NON_ZERO := un ONonZero.
Definition UNSIGNED (w : Z) (x : option Pure) : option Pure := PCast false w <$> x.
Definition SIGNED (w : Z) (x : option Pure) : option Pure := PCast true w <$> x.
Definition LOADW (bits : Z) (a : option Pure) : option Pure := PLoadW bits <$> a.

Definition NOP : option Effect := Some ENop.
Definition EMPTY : option Effect := Some EEmpty.
Definition SETG (n : option string) (x : option Pure) : option Effect :=
  n' ← n; x' ← x; Some (ESetG n' x').
Definition SETL (n : string) (x : option Pure) : option Effect :=
  ESetL n <$> x.
Definition STOREW (a x : option Pure) : option Effect :=
  a' ← a; x' ← x; Some (EStoreW a' x').
Definition JMP (d : option Pure) : option Effect := EJmp <$> d.
Definition BRANCH (c : option Pure) (t e : option Effect) : option Effect :=
  c' ← c; t' ← t; e' ← e; Some (EBranch c' t' e').
Definition SEQ2 (a b : option Effect) : option Effect :=
  a' ← a; b' ← b; Some (ESeq a' b').
Definition SEQ3 (a b c : option Effect) : option Effect := SEQ2 a (SEQ2 b c).
Definition SEQ4 (a b c d : option Effect) : option Effect := SEQ2 a (SEQ3 b c d).

(** Evaluation and execution of a nullable tree: NULL does not evaluate. *)
Definition evalo (ac : bool) (st : VM) (p : option Pure) : option Val :=
  p ≫= eval ac st.

Definition execo (ac : bool) (st : VM) (e : option Effect) : option VM :=
  e ≫= exec ac st.

(** Modelled from the spec: further comparisons of the op builder
    (section 4.1: unsigned and signed [>=] and [>]). *)
Definition UGE := bin OUge.
Definition SGE := bin OSge.
Definition SGT := bin OSgt.

End IL.

(** ** The SuperH lifter ([sh_il.c]) *)

Module SH.
Import IL.

(** A C string pointer is nullable; a literal is a non-NULL pointer. *)
Definition str_ptr (s : string) : option string := Some s.
Coercion str_ptr : string >-> option.

(** Modelled from the spec: [sh_il.h] is not among the sources.  Registers
    and addresses are 32 bits wide; there are sixteen general registers
    r0..r15, of which r0..r7 are banked (the layout of
    [sh_global_registers] below has bank 1 eight entries after bank 0). *)
Definition SH_REG_SIZE : Z := 32.
Definition SH_ADDR_SIZE : Z := 32.
Definition BITS_PER_BYTE : Z := 8.
Definition SH_GPR_COUNT : Z := 16.
Definition SH_BANKED_REG_COUNT : Z := 8.

(** Modelled from the spec: the disassembler's header is not among the
    sources.  The addressing modes are those the lifter switches on; an
    operand descriptor is a mode and up to two integer fields; the
    operation width is a byte, a word, a longword or a quadword, and
    [sh_scaling_size] is its size in bytes (the entry of the invalid
    scaling is the byte [-1]). *)
Inductive SHAddrMode : Type :=
  | SH_ADDR_INVALID
  | SH_REG_DIRECT
  | SH_REG_INDIRECT
  | SH_REG_INDIRECT_I
  | SH_REG_INDIRECT_D
  | SH_REG_INDIRECT_DISP
  | SH_REG_INDIRECT_INDEXED
  | SH_GBR_INDIRECT_DISP
  | SH_GBR_INDIRECT_INDEXED
  | SH_PC_RELATIVE_DISP
  | SH_PC_RELATIVE8
  | SH_PC_RELATIVE12
  | SH_PC_RELATIVE_REG
  | SH_IMM_U
  | SH_IMM_S.

Inductive SHScaling : Type :=
  | SH_SCALING_INVALID | SH_SCALING_B | SH_SCALING_W | SH_SCALING_L | SH_SCALING_Q.

Definition sh_scaling_size (s : SHScaling) : Z :=
  match s with
  | SH_SCALING_INVALID => 255
  | SH_SCALING_B => 1
  | SH_SCALING_W => 2
  | SH_SCALING_L => 4
  | SH_SCALING_Q => 8
  end.

Record SHParam : Type := mkParam {
  mode : SHAddrMode;
  param0 : Z;
  param1 : Z
}.

Record SHOp : Type := mkOp {
  op_param0 : SHParam;
  op_param1 : SHParam;
  scaling : SHScaling
}.

(** Modelled from the spec: [regs.h] is not among the sources.  The table
    is indexed by register number: the general registers first, then the
    program counter and the control and system registers.  The numbers
    [SH_REG_IND_SR] and [SH_REG_IND_GBR] are the indexes of their names. *)
Definition sh_registers : list string :=
  ["r0"; "r1"; "r2"; "r3"; "r4"; "r5"; "r6"; "r7";
   "r8"; "r9"; "r10"; "r11"; "r12"; "r13"; "r14"; "r15";
   "pc"; "sr"; "gbr"; "ssr"; "spc"; "sgr"; "dbr"; "vbr";
   "mach"; "macl"; "pr"]%string.

Definition SH_REG_IND_R0 : Z := 0.
Definition SH_REG_IND_SR : Z := 17.
Definition SH_REG_IND_GBR : Z := 18.

(** Modelled from the spec: the names of the status register bits as IL
    variables ([sh_il.h]), one name per flag. *)
Definition SH_SR_T : string := "sr_t".
Definition SH_SR_S : string := "sr_s".
Definition SH_SR_I : string := "sr_i".
Definition SH_SR_Q : string := "sr_q".
Definition SH_SR_M : string := "sr_m".
Definition SH_SR_F : string := "sr_f".
Definition SH_SR_B : string := "sr_b".
Definition SH_SR_R : string := "sr_r".
Definition SH_SR_D : string := "sr_d".

Definition SH_U_ADDR (x : Z) : option Pure := UN SH_ADDR_SIZE x.
Definition SH_S_ADDR (x : Z) : option Pure := SN SH_ADDR_SIZE x.
Definition SH_U_REG (x : Z) : option Pure := UN SH_REG_SIZE x.
Definition SH_S_REG (x : Z) : option Pure := SN SH_REG_SIZE x.
Definition SH_BIT (x : Z) : option Pure := UN 1 x.
Definition SH_TRUE : option Pure := SH_U_REG 1.
Definition SH_FALSE : option Pure := SH_U_REG 0.

Definition sh_valid_gpr (reg : Z) : bool := reg <? SH_GPR_COUNT.
Definition sh_banked_reg (reg : Z) : bool := reg <? SH_BANKED_REG_COUNT.

(** Registers available as global variables in the IL. *)
Definition sh_global_registers : list string :=
  ["r0"; "r1"; "r2"; "r3"; "r4"; "r5"; "r6"; "r7";
   "r0b"; "r1b"; "r2b"; "r3b"; "r4b"; "r5b"; "r6b"; "r7b";
   "r8"; "r9"; "r10"; "r11"; "r12"; "r13"; "r14"; "r15"; "sr";
   SH_SR_T; SH_SR_S; SH_SR_I; SH_SR_I; SH_SR_Q; SH_SR_M; SH_SR_F;
   SH_SR_B; SH_SR_R; SH_SR_D;
   "gbr"; "ssr"; "spc"; "sgr"; "dbr"; "vbr"; "mach"; "macl"; "pr"]%string.

Definition sh_get_banked_reg (reg bank : Z) : option string :=
  if negb (sh_banked_reg reg) || (1 <? bank) then None
  else sh_global_registers !! Z.to_nat (reg + bank * SH_BANKED_REG_COUNT).

Definition sh_il_get_status_reg_bit (bit : string) : option Pure :=
  ITE (VARG bit) SH_TRUE SH_FALSE.

Definition sh_il_get_status_reg : option Pure :=
  let val := SH_U_REG 0 in
  let val := LOGOR (UNSIGNED SH_REG_SIZE (sh_il_get_status_reg_bit SH_SR_D)) val in
  let val := SHIFTL0 val (SH_U_REG 1) in
  let val := LOGOR (UNSIGNED SH_REG_SIZE (sh_il_get_status_reg_bit SH_SR_R)) val in
  let val := SHIFTL0 val (SH_U_REG 1) in
  let val := LOGOR (UNSIGNED SH_REG_SIZE (sh_il_get_status_reg_bit SH_SR_B)) val in
  let val := SHIFTL0 val (SH_U_REG 13) in
  let val := LOGOR (UNSIGNED SH_REG_SIZE (sh_il_get_status_reg_bit SH_SR_F)) val in
  let val := SHIFTL0 val (SH_U_REG 6) in
  let val := LOGOR (UNSIGNED SH_REG_SIZE (sh_il_get_status_reg_bit SH_SR_M)) val in
  let val := SHIFTL0 val (SH_U_REG 1) in
  let val := LOGOR (UNSIGNED SH_REG_SIZE (sh_il_get_status_reg_bit SH_SR_Q)) val in
  let val := SHIFTL0 val (SH_U_REG 4) in
  let val := LOGOR (UNSIGNED SH_REG_SIZE (sh_il_get_status_reg_bit SH_SR_I)) val in
  let val := SHIFTL0 val (SH_U_REG 3) in
  let val := LOGOR (UNSIGNED SH_REG_SIZE (sh_il_get_status_reg_bit SH_SR_S)) val in
  let val := SHIFTL0 val (SH_U_REG 1) in
  let val := LOGOR (UNSIGNED SH_REG_SIZE (sh_il_get_status_reg_bit SH_SR_T)) val in
  val.

Definition sh_il_set_status_reg (val : option Pure) : option Effect :=
  let eff := SETG SH_SR_T (NON_ZERO (LOGAND (SH_U_REG 1) val)) in
  let val := SHIFTR0 (DUP val) (SH_U_REG 1) in
  let eff := SEQ2 eff (SETG SH_SR_S (NON_ZERO (LOGAND (SH_U_REG 1) val))) in
  let val := SHIFTR0 (DUP val) (SH_U_REG 3) in
  let eff := SEQ2 eff (SETG SH_SR_I (NON_ZERO (LOGAND (SH_U_REG 15) val))) in
  let val := SHIFTR0 (DUP val) (SH_U_REG 4) in
  let eff := SEQ2 eff (SETG SH_SR_Q (NON_ZERO (LOGAND (SH_U_REG 1) val))) in
  let val := SHIFTR0 (DUP val) (SH_U_REG 1) in
  let eff := SEQ2 eff (SETG SH_SR_M (NON_ZERO (LOGAND (SH_U_REG 1) val))) in
  let val := SHIFTR0 (DUP val) (SH_U_REG 6) in
  let eff := SEQ2 eff (SETG SH_SR_F (NON_ZERO (LOGAND (SH_U_REG 1) val))) in
  let val := SHIFTR0 (DUP val) (SH_U_REG 13) in
  let eff := SEQ2 eff (SETG SH_SR_B (NON_ZERO (LOGAND (SH_U_REG 1) val))) in
  let val := SHIFTR0 (DUP val) (SH_U_REG 1) in
  let eff := SEQ2 eff (SETG SH_SR_R (NON_ZERO (LOGAND (SH_U_REG 1) val))) in
  let val := SHIFTR0 (DUP val) (SH_U_REG 1) in
  let eff := SEQ2 eff (SETG SH_SR_D (NON_ZERO (LOGAND (SH_U_REG 1) val))) in
  eff.

Definition sh_il_get_reg (reg : Z) : option Pure :=
  if negb (sh_valid_gpr reg) then None
  else if negb (sh_banked_reg reg) then
    if reg =? SH_REG_IND_SR then sh_il_get_status_reg
    else VARG (sh_registers !! Z.to_nat reg)
  else
    let condition := AND (VARG SH_SR_D) (VARG SH_SR_R) in
    ITE condition (VARG (sh_get_banked_reg reg 1)) (VARG (sh_get_banked_reg reg 0)).

Definition sh_il_set_reg (reg : Z) (val : option Pure) : option Effect :=
  if negb (sh_valid_gpr reg) then None
  else if negb (sh_banked_reg reg) then
    if reg =? SH_REG_IND_SR then sh_il_set_status_reg val
    else SETG (sh_registers !! Z.to_nat reg) val
  else
    let condition := AND (VARG SH_SR_D) (VARG SH_SR_R) in
    BRANCH condition (SETG (sh_get_banked_reg reg 1) val)
                     (SETG (sh_get_banked_reg reg 0) (DUP val)).

Record SHParamHelper : Type := mkHelper {
  pre : option Effect;
  pure : option Pure;
  post : option Effect
}.

Definition sh_il_get_effective_addr_pc (param : SHParam) (scaling : SHScaling) (pc : Z)
  : option Pure :=
  match mode param with
  | SH_REG_INDIRECT | SH_REG_INDIRECT_I | SH_REG_INDIRECT_D =>
      sh_il_get_reg (param0 param)
  | SH_REG_INDIRECT_DISP =>
      ADD (sh_il_get_reg (param0 param))
          (MUL (SH_U_ADDR (param1 param)) (SH_U_ADDR (sh_scaling_size scaling)))
  | SH_REG_INDIRECT_INDEXED =>
      ADD (sh_il_get_reg SH_REG_IND_R0) (sh_il_get_reg (param0 param))
  | SH_GBR_INDIRECT_DISP =>
      ADD (VARG "gbr"%string)
          (MUL (SH_U_ADDR (param0 param)) (SH_U_ADDR (sh_scaling_size scaling)))
  | SH_GBR_INDIRECT_INDEXED =>
      ADD (VARG "gbr"%string) (sh_il_get_reg SH_REG_IND_R0)
  | SH_PC_RELATIVE_DISP =>
      let pcbv := SH_U_ADDR pc in
      let pcbv :=
        match scaling with
        | SH_SCALING_L => LOGAND pcbv (SH_U_ADDR 0xfffffffc)
        | _ => pcbv
        end in
      let pcbv := ADD pcbv (SH_U_ADDR 4) in
      ADD pcbv (MUL (SH_U_ADDR (param0 param)) (SH_U_ADDR (sh_scaling_size scaling)))
  | SH_PC_RELATIVE8 =>
      let relative := SIGNED SH_ADDR_SIZE (SHIFTL0 (SN 8 (param0 param)) (U8 1)) in
      ADD (ADD (SH_U_ADDR pc) (SH_U_ADDR 4)) relative
  | SH_PC_RELATIVE12 =>
      let relative := SIGNED SH_ADDR_SIZE (SHIFTL0 (SN 12 (param0 param)) (U8 1)) in
      ADD (ADD (SH_U_ADDR pc) (SH_U_ADDR 4)) relative
  | SH_PC_RELATIVE_REG =>
      ADD (ADD (SH_U_ADDR pc) (SH_U_ADDR 4)) (sh_il_get_reg (param0 param))
  | _ => None
  end.

Definition sh_il_get_param_pc (param : SHParam) (scaling : SHScaling) (pc : Z)
  : SHParamHelper :=
  let set_pure (pre post : option Effect) :=
    mkHelper pre
      (LOADW (BITS_PER_BYTE * sh_scaling_size scaling)
             (sh_il_get_effective_addr_pc param scaling pc))
      post in
  match mode param with
  | SH_REG_DIRECT =>
      match scaling with
      | SH_SCALING_INVALID | SH_SCALING_L =>
          mkHelper None (sh_il_get_reg (param0 param)) None
      | _ =>
          mkHelper None
            (UNSIGNED (BITS_PER_BYTE * sh_scaling_size scaling)
                      (sh_il_get_reg (param0 param)))
            None
      end
  | SH_REG_INDIRECT_I =>
      set_pure None
        (sh_il_set_reg (param0 param)
           (ADD (sh_il_get_reg (param0 param)) (SH_U_ADDR (sh_scaling_size scaling))))
  | SH_REG_INDIRECT_D =>
      set_pure
        (sh_il_set_reg (param0 param)
           (SUB (sh_il_get_reg (param0 param)) (SH_U_ADDR (sh_scaling_size scaling))))
        None
  | SH_REG_INDIRECT | SH_REG_INDIRECT_DISP | SH_REG_INDIRECT_INDEXED
  | SH_GBR_INDIRECT_DISP | SH_GBR_INDIRECT_INDEXED | SH_PC_RELATIVE_DISP
  | SH_PC_RELATIVE8 | SH_PC_RELATIVE12 | SH_PC_RELATIVE_REG =>
      set_pure None None
  | SH_IMM_U => mkHelper None (SH_U_REG (param0 param)) None
  | SH_IMM_S => mkHelper None (SH_S_REG (param0 param)) None
  | SH_ADDR_INVALID => mkHelper None None None
  end.

Definition sh_apply_effects (target pre post : option Effect) : option Effect :=
  let append (target : option Effect) :=
    match post with
    | Some _ => SEQ2 target post
    | None => target
    end in
  match target with
  | None =>
      match pre, post with
      | Some _, _ => append pre
      | None, Some _ => post
      | None, None => None
      end
  | Some _ =>
      append (match pre with Some _ => SEQ2 pre target | None => target end)
  end.

Definition sh_il_set_param_pc (param : SHParam) (val : option Pure)
    (scaling : SHScaling) (pc : Z) : option Effect :=
  let store (ret : option Effect) :=
    match ret with
    | Some _ => sh_apply_effects ret None None
    | None =>
        let ret_h := sh_il_get_param_pc param scaling pc in
        let eff_addr := sh_il_get_effective_addr_pc param scaling pc in
        let ret := STOREW eff_addr val in
        sh_apply_effects ret (pre ret_h) (post ret_h)
    end in
  match mode param with
  | SH_REG_DIRECT =>
      match scaling with
      | SH_SCALING_INVALID | SH_SCALING_L =>
          store (sh_il_set_reg (param0 param) val)
      | _ => store (sh_il_set_reg (param0 param) (SIGNED SH_REG_SIZE val))
      end
  | SH_REG_INDIRECT | SH_REG_INDIRECT_I | SH_REG_INDIRECT_D
  | SH_REG_INDIRECT_DISP | SH_REG_INDIRECT_INDEXED
  | SH_GBR_INDIRECT_DISP | SH_GBR_INDIRECT_INDEXED | SH_PC_RELATIVE_DISP
  | SH_PC_RELATIVE8 | SH_PC_RELATIVE12 | SH_PC_RELATIVE_REG =>
      store None
  | SH_IMM_U | SH_IMM_S | SH_ADDR_INVALID => None
  end.

Definition sh_il_is_add_carry (res x y : option Pure) : option Pure :=
  let xmsb := MSB x in
  let ymsb := MSB y in
  let resmsb := MSB res in
  let xy := AND xmsb ymsb in
  let nres := INV resmsb in
  let ry := AND nres (DUP ymsb) in
  let xr := AND (DUP xmsb) nres in
  let or := OR xy ry in
  let or := OR or xr in
  or.

Definition sh_il_is_sub_borrow (res x y : option Pure) : option Pure :=
  let xmsb := MSB x in
  let ymsb := MSB y in
  let resmsb := MSB res in
  let nx := INV xmsb in
  let nxy := AND nx ymsb in
  let rny := AND (DUP ymsb) resmsb in
  let rnx := AND (DUP resmsb) nx in
  let or := OR nxy rny in
  let or := OR or rnx in
  or.

Definition sh_il_is_add_overflow (res x y : option Pure) : option Pure :=
  let xmsb := MSB x in
  let ymsb := MSB y in
  let resmsb := MSB res in
  let nrxy := AND (AND (INV resmsb) xmsb) ymsb in
  let rnxny := AND (AND (DUP resmsb) (INV (DUP xmsb))) (INV (DUP ymsb)) in
  OR nrxy rnxny.

Definition sh_il_is_sub_underflow (res x y : option Pure) : option Pure :=
  let xmsb := MSB x in
  let ymsb := MSB y in
  let resmsb := MSB res in
  let nrxny := AND (AND (INV resmsb) xmsb) (INV ymsb) in
  let rnxy := AND (AND (DUP resmsb) (INV (DUP xmsb))) (DUP ymsb) in
  OR nrxny rnxy.

(** The operand macros: [op->param[x]] read and written at [op->scaling]. *)
Definition op_param (op : SHOp) (x : nat) : SHParam :=
  match x with
  | O => op_param0 op
  | _ => op_param1 op
  end.

Definition sh_il_get_param (op : SHOp) (pc : Z) (x : nat) : SHParamHelper :=
  sh_il_get_param_pc (op_param op x) (scaling op) pc.

Definition sh_il_get_pure_param (op : SHOp) (pc : Z) (x : nat) : option Pure :=
  pure (sh_il_get_param op pc x).

Definition sh_il_set_pure_param (op : SHOp) (pc : Z) (x : nat) (val : option Pure)
  : option Effect :=
  sh_il_set_param_pc (op_param op x) val (scaling op) pc.

(** DIV1 Rm, Rn: 1-step division. *)
Definition sh_il_div1 (op : SHOp) (pc : Z) : option Effect :=
  let get := sh_il_get_pure_param op pc in
  let set := sh_il_set_pure_param op pc in
  let old_q := SETL "old_q" (sh_il_get_status_reg_bit SH_SR_Q) in
  let q := SETG SH_SR_Q (MSB (get 1%nat)) in
  let shl := set 1%nat (SHIFTL0 (get 1%nat) (SH_U_REG 1)) in
  let ort := set 1%nat (OR (get 1%nat)
                 (UNSIGNED SH_REG_SIZE (sh_il_get_status_reg_bit SH_SR_T))) in
  let init := SEQ4 old_q q shl ort in

  let tmp0 := SETL "tmp0" (get 1%nat) in
  let sub := set 1%nat (SUB (get 1%nat) (get 0%nat)) in
  let tmp1 := SETL "tmp1" (UGT (get 1%nat) (VARL "tmp0")) in
  let q_bit := BRANCH (sh_il_get_status_reg_bit SH_SR_Q)
                 (SETG SH_SR_Q (IS_ZERO (VARL "tmp1"))) (SETG SH_SR_Q (VARL "tmp1")) in
  let q0m0 := SEQ4 tmp0 sub tmp1 q_bit in

  let tmp0 := SETL "tmp0" (get 1%nat) in
  let add := set 1%nat (ADD (get 1%nat) (get 0%nat)) in
  let tmp1 := SETL "tmp1" (ULT (get 1%nat) (VARL "tmp0")) in
  let q_bit := BRANCH (sh_il_get_status_reg_bit SH_SR_Q)
                 (SETG SH_SR_Q (VARL "tmp1")) (SETG SH_SR_Q (IS_ZERO (VARL "tmp1"))) in
  let q0m1 := SEQ4 tmp0 add tmp1 q_bit in

  let tmp0 := SETL "tmp0" (get 1%nat) in
  let add := set 1%nat (ADD (get 1%nat) (get 0%nat)) in
  let tmp1 := SETL "tmp1" (ULT (get 1%nat) (VARL "tmp0")) in
  let q_bit := BRANCH (sh_il_get_status_reg_bit SH_SR_Q)
                 (SETG SH_SR_Q (IS_ZERO (VARL "tmp1"))) (SETG SH_SR_Q (VARL "tmp1")) in
  let q1m0 := SEQ4 tmp0 add tmp1 q_bit in

  let tmp0 := SETL "tmp0" (get 1%nat) in
  let sub := set 1%nat (SUB (get 1%nat) (get 0%nat)) in
  let tmp1 := SETL "tmp1" (UGT (get 1%nat) (VARL "tmp0")) in
  let q_bit := BRANCH (sh_il_get_status_reg_bit SH_SR_Q)
                 (SETG SH_SR_Q (VARL "tmp1")) (SETG SH_SR_Q (IS_ZERO (VARL "tmp1"))) in
  let q1m1 := SEQ4 tmp0 sub tmp1 q_bit in

  let q0 := BRANCH (sh_il_get_status_reg_bit SH_SR_M) q0m1 q0m0 in
  let q1 := BRANCH (sh_il_get_status_reg_bit SH_SR_M) q1m1 q1m0 in
  let q_switch := BRANCH (VARL "old_q") q1 q0 in

  SEQ3 init q_switch
    (SETG SH_SR_T (EQ (sh_il_get_status_reg_bit SH_SR_Q)
                      (sh_il_get_status_reg_bit SH_SR_M))).

(** MAC.L @Rm+, @Rn+ and MAC.W @Rm+, @Rn+. *)
Definition sh_il_mac (op : SHOp) (pc : Z) : option Effect :=
  let shp_rm := sh_il_get_param op pc 0%nat in
  let shp_rn := sh_il_get_param op pc 1%nat in
  let eff :=
    match scaling op with
    | SH_SCALING_L =>
        let mac := SETL "mac"
          (LOGOR (SHIFTL0 (UNSIGNED (2 * SH_REG_SIZE) (VARG "mach"%string))
                          (SH_U_REG SH_REG_SIZE))
                 (UNSIGNED (2 * SH_REG_SIZE) (VARG "macl"%string))) in
        let mul := MUL (SIGNED (2 * SH_REG_SIZE) (pure shp_rm))
                       (SIGNED (2 * SH_REG_SIZE) (pure shp_rn)) in
        let add := ADD mul (VARL "mac") in
        let low := UNSIGNED 48 (LOGAND add (UN (2 * SH_REG_SIZE) 0xffffffffffff)) in
        let sat := SIGNED (2 * SH_REG_SIZE) low in
        let eff := SEQ2 mac (BRANCH (sh_il_get_status_reg_bit SH_SR_S)
                               (SETL "mac" sat) (SETG "mac"%string (DUP add))) in
        let lower_bits := UNSIGNED SH_REG_SIZE
          (LOGAND (VARL "mac") (UN (2 * SH_REG_SIZE) 0xffffffff)) in
        let higher_bits := UNSIGNED SH_REG_SIZE
          (SHIFTR0 (VARL "mac") (SH_U_REG SH_REG_SIZE)) in
        SEQ3 eff (SETG "macl"%string lower_bits) (SETG "mach"%string higher_bits)
    | SH_SCALING_W =>
        let mac := SETL "mac"
          (LOGOR (SHIFTL0 (UNSIGNED (2 * SH_REG_SIZE) (VARG "mach"%string))
                          (SH_U_REG SH_REG_SIZE))
                 (UNSIGNED (2 * SH_REG_SIZE) (VARG "macl"%string))) in
        let mul := UNSIGNED (2 * SH_REG_SIZE)
          (MUL (SIGNED SH_REG_SIZE (pure shp_rm)) (SIGNED SH_REG_SIZE (pure shp_rn))) in
        let add := ADD mul (VARG "mac"%string) in
        let sat_add := ADD (UNSIGNED SH_REG_SIZE (DUP mul)) (VARG "macl"%string) in
        let lower_bits := UNSIGNED SH_REG_SIZE
          (LOGAND add (UN (2 * SH_REG_SIZE) 0xffffffff)) in
        let higher_bits := UNSIGNED SH_REG_SIZE
          (SHIFTR0 (DUP add) (SH_U_REG SH_REG_SIZE)) in
        SEQ2 mac (BRANCH (sh_il_get_status_reg_bit SH_SR_S)
                    (SETG "macl"%string sat_add)
                    (SEQ2 (SETG "macl"%string lower_bits)
                          (SETG "mach"%string higher_bits)))
    | _ => None
    end in
  SEQ3 eff (post shp_rn) (post shp_rm).

(** LDC Rm, REG and LDC.L @Rm+, REG: privileged unless REG is GBR.  The
    privilege bit is evaluated on the VM when the instruction is lifted.
    The outer [None] is the NULL dereference of a privilege bit that does
    not evaluate; otherwise the effect (NULL or not) and the VM with its
    event log are returned. *)
Definition sh_il_ldc (auto_convert : bool) (op : SHOp) (pc : Z) (vm : VM)
  : option (option Effect * VM) :=
  priv_bit ← rz_il_evaluate_bitv auto_convert vm (sh_il_get_status_reg_bit SH_SR_D);
  let state := if priv_bit.2 =? 0 then 1 else 0 in
  let state := state + (if negb (param0 (op_param1 op) =? SH_REG_IND_GBR) then 2 else 0) in
  if state =? 3 then
    Some (None, rz_il_vm_event_add vm "SuperH: RESINST")
  else
    let eff :=
      match scaling op with
      | SH_SCALING_INVALID =>
          if sh_valid_gpr (param0 (op_param1 op)) then
            SETG (sh_get_banked_reg (param0 (op_param1 op)) 1)
                 (sh_il_get_pure_param op pc 0%nat)
          else
            sh_il_set_pure_param op pc 1%nat (sh_il_get_pure_param op pc 0%nat)
      | SH_SCALING_L =>
          let rm := sh_il_get_param op pc 0%nat in
          if sh_valid_gpr (param0 (op_param1 op)) then
            SEQ2 (SETG (sh_get_banked_reg (param0 (op_param1 op)) 1) (pure rm)) (post rm)
          else
            SEQ2 (sh_il_set_pure_param op pc 1%nat (pure rm)) (post rm)
      | _ => NOP
      end in
    Some (eff, vm).

(** *** Instruction implementations *)

Definition sh_il_get_effective_addr_param (op : SHOp) (pc : Z) (x : nat) : option Pure :=
  sh_il_get_effective_addr_pc (op_param op x) (scaling op) pc.

(** MOV family instructions. *)
Definition sh_il_mov (op : SHOp) (pc : Z) : option Effect :=
  let shp := sh_il_get_param op pc 0%nat in
  sh_apply_effects (sh_il_set_pure_param op pc 1%nat (pure shp)) (pre shp) (post shp).

(** ADD Rm, Rn and ADD #imm, Rn. *)
Definition sh_il_add (op : SHOp) (pc : Z) : option Effect :=
  sh_il_set_pure_param op pc 1%nat
    (ADD (sh_il_get_pure_param op pc 0%nat) (sh_il_get_pure_param op pc 1%nat)).

(** ADDC Rm, Rn. *)
Definition sh_il_addc (op : SHOp) (pc : Z) : option Effect :=
  let sum := ADD (sh_il_get_pure_param op pc 0%nat) (sh_il_get_pure_param op pc 1%nat) in
  let sum := ADD sum (UNSIGNED SH_REG_SIZE (sh_il_get_status_reg_bit SH_SR_T)) in
  let ret := sh_il_set_pure_param op pc 1%nat sum in
  let tbit := SETG SH_SR_T
    (sh_il_is_add_carry (DUP sum) (sh_il_get_pure_param op pc 0%nat)
                        (sh_il_get_pure_param op pc 1%nat)) in
  SEQ2 ret tbit.

(** CMP/EQ, CMP/HS, CMP/GE, CMP/HI, CMP/GT, CMP/PZ, CMP/PL. *)
Definition sh_il_cmp_eq (op : SHOp) (pc : Z) : option Effect :=
  SETG SH_SR_T (EQ (sh_il_get_pure_param op pc 0%nat) (sh_il_get_pure_param op pc 1%nat)).

Definition sh_il_cmp_hs (op : SHOp) (pc : Z) : option Effect :=
  SETG SH_SR_T (UGE (sh_il_get_pure_param op pc 1%nat) (sh_il_get_pure_param op pc 0%nat)).

Definition sh_il_cmp_ge (op : SHOp) (pc : Z) : option Effect :=
  SETG SH_SR_T (SGE (sh_il_get_pure_param op pc 1%nat) (sh_il_get_pure_param op pc 0%nat)).

Definition sh_il_cmp_hi (op : SHOp) (pc : Z) : option Effect :=
  SETG SH_SR_T (UGT (sh_il_get_pure_param op pc 1%nat) (sh_il_get_pure_param op pc 0%nat)).

Definition sh_il_cmp_gt (op : SHOp) (pc : Z) : option Effect :=
  SETG SH_SR_T (SGT (sh_il_get_pure_param op pc 1%nat) (sh_il_get_pure_param op pc 0%nat)).

Definition sh_il_cmp_pz (op : SHOp) (pc : Z) : option Effect :=
  SETG SH_SR_T (SGE (sh_il_get_pure_param op pc 0%nat) (SH_S_REG 0)).

Definition sh_il_cmp_pl (op : SHOp) (pc : Z) : option Effect :=
  SETG SH_SR_T (SGT (sh_il_get_pure_param op pc 0%nat) (SH_S_REG 0)).

(** DMULS.L Rm, Rn and DMULU.L Rm, Rn. *)
Definition sh_il_dmuls (op : SHOp) (pc : Z) : option Effect :=
  let eff := SETL "res_wide"
    (MUL (SIGNED (2 * SH_REG_SIZE) (sh_il_get_pure_param op pc 0%nat))
         (SIGNED (2 * SH_REG_SIZE) (sh_il_get_pure_param op pc 1%nat))) in
  let lower_bits := UNSIGNED SH_REG_SIZE
    (LOGAND (VARL "res_wide") (UN (2 * SH_REG_SIZE) 0xffffffff)) in
  let higher_bits := UNSIGNED SH_REG_SIZE
    (SHIFTR0 (VARL "res_wide") (SH_U_REG SH_REG_SIZE)) in
  SEQ3 eff (SETG "macl"%string lower_bits) (SETG "mach"%string higher_bits).

Definition sh_il_dmulu (op : SHOp) (pc : Z) : option Effect :=
  let eff := SETL "res_wide"
    (MUL (UNSIGNED (2 * SH_REG_SIZE) (sh_il_get_pure_param op pc 0%nat))
         (UNSIGNED (2 * SH_REG_SIZE) (sh_il_get_pure_param op pc 1%nat))) in
  let lower_bits := UNSIGNED SH_REG_SIZE
    (LOGAND (VARL "res_wide") (UN (2 * SH_REG_SIZE) 0xffffffff)) in
  let higher_bits := UNSIGNED SH_REG_SIZE
    (SHIFTR0 (VARL "res_wide") (SH_U_REG SH_REG_SIZE)) in
  SEQ3 eff (SETG "macl"%string lower_bits) (SETG "mach"%string higher_bits).

(** DT Rn. *)
Definition sh_il_dt (op : SHOp) (pc : Z) : option Effect :=
  SEQ2 (sh_il_set_pure_param op pc 0%nat
          (SUB (sh_il_get_pure_param op pc 0%nat) (SH_U_REG 1)))
       (SETG SH_SR_T (NON_ZERO (sh_il_get_pure_param op pc 0%nat))).

(** NEG Rm, Rn.  The source writes [UNSIGNED(SH_REG_SIZE, 0)]: the operand
    of the cast is the literal [0], a null pointer. *)
Definition sh_il_neg (op : SHOp) (pc : Z) : option Effect :=
  let sub := SUB (UNSIGNED SH_REG_SIZE None) (sh_il_get_pure_param op pc 0%nat) in
  sh_il_set_pure_param op pc 1%nat sub.

(** SUB Rm, Rn. *)
Definition sh_il_sub (op : SHOp) (pc : Z) : option Effect :=
  sh_il_set_pure_param op pc 1%nat
    (SUB (sh_il_get_pure_param op pc 0%nat) (sh_il_get_pure_param op pc 1%nat)).

(** AND, NOT, OR, XOR and TST, on registers, an immediate or a byte of
    memory. *)
Definition sh_il_and (op : SHOp) (pc : Z) : option Effect :=
  sh_il_set_pure_param op pc 1%nat
    (LOGAND (sh_il_get_pure_param op pc 0%nat) (sh_il_get_pure_param op pc 1%nat)).

Definition sh_il_not (op : SHOp) (pc : Z) : option Effect :=
  sh_il_set_pure_param op pc 1%nat (LOGNOT (sh_il_get_pure_param op pc 0%nat)).

Definition sh_il_or (op : SHOp) (pc : Z) : option Effect :=
  sh_il_set_pure_param op pc 1%nat
    (LOGOR (sh_il_get_pure_param op pc 0%nat) (sh_il_get_pure_param op pc 1%nat)).

Definition sh_il_xor (op : SHOp) (pc : Z) : option Effect :=
  sh_il_set_pure_param op pc 1%nat
    (LOGXOR (sh_il_get_pure_param op pc 0%nat) (sh_il_get_pure_param op pc 1%nat)).

Definition sh_il_tst (op : SHOp) (pc : Z) : option Effect :=
  SETG SH_SR_T
    (IS_ZERO (LOGAND (sh_il_get_pure_param op pc 0%nat) (sh_il_get_pure_param op pc 1%nat))).

(** TAS.B @Rn. *)
Definition sh_il_tas (op : SHOp) (pc : Z) : option Effect :=
  let mem := sh_il_get_pure_param op pc 0%nat in
  let tbit := SETG SH_SR_T (IS_ZERO mem) in
  SEQ2 tbit (sh_il_set_pure_param op pc 0%nat (LOGOR (DUP mem) (UN 8 0x80))).

(** SHLL Rn and SHLR Rn. *)
Definition sh_il_shll (op : SHOp) (pc : Z) : option Effect :=
  let msb := MSB (sh_il_get_pure_param op pc 0%nat) in
  let shl := SHIFTL0 (sh_il_get_pure_param op pc 0%nat) (SH_U_REG 1) in
  SEQ2 (SETG SH_SR_T msb) (sh_il_set_pure_param op pc 0%nat shl).

Definition sh_il_shlr (op : SHOp) (pc : Z) : option Effect :=
  let lsb := LSB (sh_il_get_pure_param op pc 0%nat) in
  let shr := SHIFTR0 (sh_il_get_pure_param op pc 0%nat) (SH_U_REG 1) in
  SEQ2 (SETG SH_SR_T lsb) (sh_il_set_pure_param op pc 0%nat shr).

(** BF label, BF/S label, BT label and BT/S label. *)
Definition sh_il_bf (op : SHOp) (pc : Z) : option Effect :=
  let new_pc := sh_il_get_effective_addr_param op pc 0%nat in
  BRANCH (IS_ZERO (sh_il_get_status_reg_bit SH_SR_T)) (JMP new_pc) NOP.

Definition sh_il_bfs (op : SHOp) (pc : Z) : option Effect :=
  let new_pc := sh_il_get_effective_addr_param op pc 0%nat in
  BRANCH (IS_ZERO (sh_il_get_status_reg_bit SH_SR_T)) (JMP new_pc) NOP.

Definition sh_il_bt (op : SHOp) (pc : Z) : option Effect :=
  let new_pc := sh_il_get_effective_addr_param op pc 0%nat in
  BRANCH (VARG SH_SR_T) (JMP new_pc) NOP.

Definition sh_il_bts (op : SHOp) (pc : Z) : option Effect :=
  let new_pc := sh_il_get_effective_addr_param op pc 0%nat in
  BRANCH (IS_ZERO (sh_il_get_status_reg_bit SH_SR_T)) NOP (JMP new_pc).

(** BRA label, BSR label, JMP @Rn and JSR @Rn. *)
Definition sh_il_bra (op : SHOp) (pc : Z) : option Effect :=
  JMP (sh_il_get_effective_addr_param op pc 0%nat).

Definition sh_il_bsr (op : SHOp) (pc : Z) : option Effect :=
  SEQ2 (SETG "pr"%string (SH_U_ADDR pc)) (JMP (sh_il_get_effective_addr_param op pc 0%nat)).

Definition sh_il_jmp (op : SHOp) (pc : Z) : option Effect :=
  JMP (sh_il_get_effective_addr_param op pc 0%nat).

Definition sh_il_jsr (op : SHOp) (pc : Z) : option Effect :=
  SEQ2 (SETG "pr"%string (ADD (SH_U_ADDR pc) (SH_U_ADDR 4)))
       (JMP (sh_il_get_effective_addr_param op pc 0%nat)).

(** LDS Rm, REG and LDS.L @Rm+, REG. *)
Definition sh_il_lds (op : SHOp) (pc : Z) : option Effect :=
  match scaling op with
  | SH_SCALING_INVALID =>
      sh_il_set_pure_param op pc 1%nat (sh_il_get_pure_param op pc 0%nat)
  | SH_SCALING_L =>
      let rm := sh_il_get_param op pc 0%nat in
      SEQ2 (sh_il_set_pure_param op pc 1%nat (pure rm)) (post rm)
  | _ => NOP
  end.

(** RTE: privileged.  As in [sh_il_ldc], the privilege bit is evaluated
    on the VM when the instruction is lifted, and the outer [None] is
    the NULL dereference of a privilege bit that does not evaluate. *)
Definition sh_il_rte (auto_convert : bool) (op : SHOp) (pc : Z) (vm : VM)
  : option (option Effect * VM) :=
  priv_bit ← rz_il_evaluate_bitv auto_convert vm (sh_il_get_status_reg_bit SH_SR_D);
  if priv_bit.2 =? 0 then
    Some (None, rz_il_vm_event_add vm "SuperH: RESINST")
  else
    Some (SEQ2 (sh_il_set_status_reg (VARG "ssr"%string)) (JMP (VARG "spc"%string)), vm).

(** SLEEP: privileged. *)
Definition sh_il_sleep (auto_convert : bool) (op : SHOp) (pc : Z) (vm : VM)
  : option (option Effect * VM) :=
  priv_bit ← rz_il_evaluate_bitv auto_convert vm (sh_il_get_status_reg_bit SH_SR_D);
  if priv_bit.2 =? 0 then
    Some (None, rz_il_vm_event_add vm "SuperH: RESINST")
  else Some (NOP, vm).

(** STC REG, Rn and STC.L REG, @-Rn: privileged unless REG is GBR. *)
Definition sh_il_stc (auto_convert : bool) (op : SHOp) (pc : Z) (vm : VM)
  : option (option Effect * VM) :=
  priv_bit ← rz_il_evaluate_bitv auto_convert vm (sh_il_get_status_reg_bit SH_SR_D);
  let state := if priv_bit.2 =? 0 then 1 else 0 in
  let state := state + (if negb (param0 (op_param0 op) =? SH_REG_IND_GBR) then 2 else 0) in
  if state =? 3 then
    Some (None, rz_il_vm_event_add vm "SuperH: RESINST")
  else if sh_valid_gpr (param0 (op_param0 op)) then
    Some (sh_il_set_pure_param op pc 1%nat
            (VARG (sh_get_banked_reg (param0 (op_param0 op)) 1)), vm)
  else
    Some (sh_il_set_pure_param op pc 1%nat (sh_il_get_pure_param op pc 0%nat), vm).

(** STS REG, Rn and STS.L REG, @-Rn. *)
Definition sh_il_sts (op : SHOp) (pc : Z) : option Effect :=
  sh_il_set_pure_param op pc 1%nat (sh_il_get_pure_param op pc 0%nat).

End SH.

(** ** Register profiles, binding derivation and sync ([il_reg.c]) *)

Module Reg.
Import IL.

(** [RzRegItem]: a register of the profile; [offset] and [size] are in
    bits, within the arena of the register's class. *)
Record RzRegItem : Type := mkItem {
  name : string;
  size : Z;
  offset : Z
}.

(** [RzReg]: one register list per class ([regset[i].regs]), the name
    given to the program counter role, and the contents of each class's
    arena as a bit string (bit [k] of the arena is bit [k] of the
    number). *)
Record RzReg : Type := mkReg {
  regset : list (list RzRegItem);
  name_pc : option string;
  arena : gmap nat Z
}.

(** A register with the class whose arena holds it. *)
Definition Located : Type := (nat * RzRegItem)%type.

(** Bits [off, off + sz) of [a]. *)
Definition bits_read (a off sz : Z) : Z :=
  Z.land (Z.shiftr a off) (Z.ones sz).

(** [a] with bits [off, off + sz) replaced by the low [sz] bits of [v]. *)
Definition bits_write (a off sz v : Z) : Z :=
  Z.lor (Z.ldiff a (Z.shiftl (Z.ones sz) off))
        (Z.shiftl (Z.land v (Z.ones sz)) off).

Definition rz_bv_new_zero (len : Z) : RzBitVector := (len, 0).
Definition rz_bv_len (b : RzBitVector) : Z := b.1.
Definition rz_bv_set_all (b : RzBitVector) (bit : bool) : RzBitVector :=
  (b.1, if bit then Z.ones b.1 else 0).

(** Modelled from the spec: [rz_bv_copy_nbits] is not among the sources.
    It copies [nbits] bits of [src] from [src_start] to [dst] at
    [dst_start] and leaves the other bits of [dst]. *)
Definition rz_bv_copy_nbits (src : RzBitVector) (src_start : Z)
    (dst : RzBitVector) (dst_start nbits : Z) : RzBitVector :=
  (dst.1, bits_write dst.2 dst_start nbits (bits_read src.2 src_start nbits)).

(** Modelled from the spec: [rz_reg_get] is not among the sources.  It
    finds the register of a name over all classes. *)
Fixpoint find_item (n : string) (cls : nat) (sets : list (list RzRegItem))
  : option Located :=
  match sets with
  | [] => None
  | regs :: rest =>
      match List.find (λ it, String.eqb (name it) n) regs with
      | Some it => Some (cls, it)
      | None => find_item n (S cls) rest
      end
  end.

Definition rz_reg_get (reg : RzReg) (n : string) : option Located :=
  find_item n 0%nat (regset reg).

Definition arena_bits (reg : RzReg) (cls : nat) : Z := default 0 (arena reg !! cls).

(** Modelled from the spec: [rz_reg_get_bv] and [rz_reg_set_bv] are not
    among the sources.  They read and write the bits of a register in
    the arena of its class; the write reports success. *)
Definition rz_reg_get_bv (reg : RzReg) (ri : Located) : RzBitVector :=
  (size ri.2, bits_read (arena_bits reg ri.1) (offset ri.2) (size ri.2)).

Definition rz_reg_set_bv (reg : RzReg) (ri : Located) (b : RzBitVector) : RzReg * bool :=
  (mkReg (regset reg) (name_pc reg)
     (<[ri.1 := bits_write (arena_bits reg ri.1) (offset ri.2) (size ri.2) b.2]>
        (arena reg)),
   true).

Definition reg_offset_cmp (value list_data : RzRegItem) : Z :=
  offset value - offset list_data.

(** Modelled from the spec: [rz_list_sort] is not among the sources.  It
    sorts by the comparator and keeps the order of equal elements. *)
Fixpoint sort_insert (cmp : RzRegItem → RzRegItem → Z) (x : RzRegItem)
    (l : list RzRegItem) : list RzRegItem :=
  match l with
  | [] => [x]
  | y :: l' => if cmp x y <=? 0 then x :: y :: l' else y :: sort_insert cmp x l'
  end.

Fixpoint rz_list_sort (cmp : RzRegItem → RzRegItem → Z) (l : list RzRegItem)
  : list RzRegItem :=
  match l with
  | [] => []
  | x :: l' => sort_insert cmp x (rz_list_sort cmp l')
  end.

(** Modelled from the spec: [rz_reg_filter_items_covered] is not among the
    sources.  It drops every register that is covered entirely by
    another register of the list and is smaller than it. *)
Definition item_covered (a b : RzRegItem) : bool :=
  (offset b <=? offset a) && (offset a + size a <=? offset b + size b)
  && (size a <? size b).

Definition rz_reg_filter_items_covered (regs : list RzRegItem) : list RzRegItem :=
  List.filter (λ a, negb (existsb (item_covered a) regs)) regs.

(** First loop of [rz_il_reg_binding_derive]: the flags of a class, in the
    order they are bound. *)
Definition bind_flags (regs : list RzRegItem) : list RzRegItem :=
  fold_left
    (λ flags item,
       if negb (size item =? 1) then flags
       else if existsb (λ item2, offset item2 =? offset item) flags then flags
       else flags ++ [item])
    regs [].

(** Second loop: the registers that contain no bound flag. *)
Definition filter_nonflags (flags regs : list RzRegItem) : list RzRegItem :=
  List.filter
    (λ item,
       negb (existsb
               (λ flag, (offset item <=? offset flag)
                        && (offset flag <? offset item + size item))
               flags))
    regs.

Definition is_pc (pc : option string) (item : RzRegItem) : bool :=
  match pc with
  | Some n => String.eqb (name item) n
  | None => false
  end.

(** Third loop: the scan over the sorted registers, [prev] being the
    register bound last. *)
Fixpoint bind_items (pc : option string) (prev : option RzRegItem)
    (items : list RzRegItem) : list RzRegItem :=
  match items with
  | [] => []
  | item :: rest =>
      if match prev with
         | Some p => offset item <? offset p + size p
         | None => false
         end
      then bind_items pc prev rest
      else if is_pc pc item then bind_items pc prev rest
      else item :: bind_items pc (Some item) rest
  end.

(** The body of the loop over the classes: the registers bound in one. *)
Definition derive_regset (pc : option string) (regs : list RzRegItem)
  : list RzRegItem :=
  let flags := bind_flags regs in
  let nonflags := filter_nonflags flags regs in
  let items := rz_reg_filter_items_covered nonflags in
  let items := rz_list_sort reg_offset_cmp items in
  flags ++ bind_items pc None items.

(** The loop over the classes, from class [cls] on: all registers bound,
    in binding order, each with its class. *)
Fixpoint derive_from (pc : option string) (cls : nat) (sets : list (list RzRegItem))
  : list Located :=
  match sets with
  | [] => []
  | regs :: rest =>
      (pair cls <$> derive_regset pc regs) ++ derive_from pc (S cls) rest
  end.

Definition derive_items (reg : RzReg) : list Located :=
  derive_from (name_pc reg) 0%nat (regset reg).

Definition rz_il_reg_binding_derive (reg : RzReg) : list RzILRegBindingItem :=
  (λ ri : Located, mkBinding (name ri.2) (size ri.2)) <$> derive_items reg.

(** Modelled from the spec: the VM's variable table is not among the
    sources.  A variable exists when the global store has a value under
    its name. *)
Definition rz_il_hash_find_val_by_name (vm : VM) (n : string) : option Val :=
  vm_globals vm !! n.

Definition rz_il_find_var_by_name (vm : VM) (n : string) : option string :=
  match vm_globals vm !! n with
  | Some _ => Some n
  | None => None
  end.

Definition rz_il_hash_bind (vm : VM) (var : string) (v : Val) : VM :=
  set_global vm var v.

Definition rz_il_vm_fortify_bitv (b : RzBitVector) : Val := VBv b.1 b.2.

(** The body of the loop of [rz_il_vm_sync_to_reg]. *)
Definition sync_to_reg_item (vm : VM) (acc : RzReg * bool)
    (item : RzILRegBindingItem) : RzReg * bool :=
  let '(reg, perfect) := acc in
  match rz_reg_get reg (rb_name item) with
  | None => (reg, false)
  | Some ri =>
      match rz_il_hash_find_val_by_name vm (rb_name item) with
      | Some (VBv w x) =>
          let b : RzBitVector := (w, x) in
          let '(b, perfect) :=
            if negb (rz_bv_len b =? size ri.2) then
              (rz_bv_copy_nbits b 0 (rz_bv_new_zero (size ri.2)) 0
                 (Z.min (rz_bv_len b) (size ri.2)),
               false)
            else (b, perfect) in
          let '(reg, ok) := rz_reg_set_bv reg ri b in
          (reg, perfect && ok)
      | _ => ((rz_reg_set_bv reg ri (rz_bv_new_zero (size ri.2))).1, false)
      end
  end.

(** Set the values of all bound registers to the contents of the
    variables and of the program counter of the VM; the result tells
    whether the sync was applied without errors or adjustments. *)
Definition rz_il_vm_sync_to_reg (vm : VM) (reg : RzReg) : RzReg * bool :=
  let '(reg, perfect) :=
    match name_pc reg with
    | Some pc =>
        match rz_reg_get reg pc with
        | Some ri =>
            let pcbv := rz_bv_new_zero (size ri.2) in
            let perfect := rz_bv_len pcbv =? rz_bv_len (vm_pc vm) in
            let pcbv := rz_bv_copy_nbits (vm_pc vm) 0 pcbv 0
                          (Z.min (rz_bv_len pcbv) (rz_bv_len (vm_pc vm))) in
            ((rz_reg_set_bv reg ri pcbv).1, perfect)
        | None => (reg, false)
        end
    | None => (reg, false)
    end in
  match vm_reg_binding vm with
  | None => (reg, false)
  | Some rb => fold_left (sync_to_reg_item vm) rb (reg, perfect)
  end.

(** The body of the loop of [rz_il_vm_sync_from_reg]. *)
Definition sync_from_reg_item (reg : RzReg) (vm : VM) (item : RzILRegBindingItem) : VM :=
  match rz_il_find_var_by_name vm (rb_name item) with
  | None => vm
  | Some var =>
      let b :=
        match rz_reg_get reg (rb_name item) with
        | Some ri => rz_reg_get_bv reg ri
        | None => rz_bv_new_zero (rb_size item)
        end in
      let b :=
        if negb (rz_bv_len b =? rb_size item) then
          rz_bv_copy_nbits b 0 (rz_bv_new_zero (rb_size item)) 0
            (Z.min (rz_bv_len b) (rb_size item))
        else b in
      rz_il_hash_bind vm var (rz_il_vm_fortify_bitv b)
  end.

(** Set the values of all variables bound to registers, and the program
    counter, to the contents of the register file. *)
Definition rz_il_vm_sync_from_reg (vm : VM) (reg : RzReg) : VM :=
  let vm :=
    match name_pc reg with
    | Some pc =>
        match rz_reg_get reg pc with
        | Some ri =>
            let pc0 := rz_bv_set_all (vm_pc vm) false in
            let pcbv := rz_reg_get_bv reg ri in
            set_pc vm (rz_bv_copy_nbits pcbv 0 pc0 0
                         (Z.min (rz_bv_len pcbv) (rz_bv_len pc0)))
        | None => vm
        end
    | None => vm
    end in
  match vm_reg_binding vm with
  | None => vm
  | Some rb => fold_left (sync_from_reg_item reg) rb vm
  end.

(** [rz_il_reg_binding_exactly]: a binding of exactly the given register
    names, each with the size of the register of that name; NULL when a
    name is not a register of [reg].  Allocation failures are left out. *)
Fixpoint rz_il_reg_binding_exactly (reg : RzReg) (regs : list string)
  : option (list RzILRegBindingItem) :=
  match regs with
  | [] => Some []
  | n :: rest =>
      ri ← rz_reg_get reg n;
      rb ← rz_il_reg_binding_exactly reg rest;
      Some (mkBinding n (size ri.2) :: rb)
  end.

End Reg.

(** ** Definitions used to state the properties *)

Module Spec.
Import IL SH Reg.

(** A VM with nothing in it. *)
Definition vm_empty : VM := mkVM ∅ ∅ ∅ false (32, 0) None [].

(** Unpack a status word into the flag variables, then pack them again. *)
Definition status_roundtrip (ac : bool) (st : VM) (w : Z) : option Val :=
  st' ← execo ac st (sh_il_set_status_reg (SH_U_REG w));
  evalo ac st' sh_il_get_status_reg.

(** The status word of the manual: T, S, the interrupt mask at bits 4 to
    7, Q, M, FD, BL, RB and MD.  The one-bit flags sit at
    [flag_positions]; [defined_mask] has the bits of all fields. *)
Definition flag_positions : list Z := [0; 1; 8; 9; 15; 28; 29; 30].
Definition is_flag_position (n : Z) : bool := existsb (Z.eqb n) flag_positions.
Definition defined_mask : Z := 0x700083f3.

(** The word with the given flags at their positions, the interrupt mask
    field holding the single bit [i]. *)
Definition sr_pack (t s i q m f b r d : bool) : Z :=
  Z.lor (Z.shiftl (Z.b2z d) 30)
  (Z.lor (Z.shiftl (Z.b2z r) 29)
  (Z.lor (Z.shiftl (Z.b2z b) 28)
  (Z.lor (Z.shiftl (Z.b2z f) 15)
  (Z.lor (Z.shiftl (Z.b2z m) 9)
  (Z.lor (Z.shiftl (Z.b2z q) 8)
  (Z.lor (Z.shiftl (Z.b2z i) 4)
  (Z.lor (Z.shiftl (Z.b2z s) 1) (Z.shiftl (Z.b2z t) 0)))))))).

(** The VM after the flag variables were set from the word [w]. *)
Definition unpacked (st : VM) (w : Z) : VM :=
  let i := negb (Z.land 15 (Z.shiftr w 4) =? 0) in
  set_global (set_global (set_global (set_global (set_global (set_global
    (set_global (set_global (set_global st
      SH_SR_T (VBool (Z.testbit w 0)))
      SH_SR_S (VBool (Z.testbit w 1)))
      SH_SR_I (VBool i))
      SH_SR_Q (VBool (Z.testbit w 8)))
      SH_SR_M (VBool (Z.testbit w 9)))
      SH_SR_F (VBool (Z.testbit w 15)))
      SH_SR_B (VBool (Z.testbit w 28)))
      SH_SR_R (VBool (Z.testbit w 29)))
      SH_SR_D (VBool (Z.testbit w 30)).

(** The condition under which bank 1 is selected: SR.MD and SR.RB. *)
Definition bank_condition : Pure := PBin OBoolAnd (PVarG SH_SR_D) (PVarG SH_SR_R).

(** A status flag read as a 32-bit value. *)
Definition status_bit (n : string) : Pure := PIte (PVarG n) (PBv 32 1) (PBv 32 0).

(** DIV1 R1, R2, and a VM in user mode that holds the divisor 3 in R1 and
    the dividend 16 in R2, with the flags Q, M and T as given. *)
Definition div1_r1_r2 : SHOp :=
  mkOp (mkParam SH_REG_DIRECT 1 0) (mkParam SH_REG_DIRECT 2 0) SH_SCALING_INVALID.

Definition div1_vm (q m t : bool) : VM :=
  mkVM
    (list_to_map
       [("sr_d", VBool false); ("sr_r", VBool false);
        ("sr_q", VBool q); ("sr_m", VBool m); ("sr_t", VBool t);
        ("r1", VBv 32 3); ("r2", VBv 32 16)]%string)
    ∅ ∅ false (32, 0) None [].

(** MAC.L @R1+, @R2+ on a VM in user mode with the saturation bit S
    clear, a zero accumulator, and the longwords 3 and 5 at the addresses
    held by R1 and R2. *)
Definition mac_l_r1_r2 : SHOp :=
  mkOp (mkParam SH_REG_INDIRECT_I 1 0) (mkParam SH_REG_INDIRECT_I 2 0) SH_SCALING_L.

Definition mac_vm (s : bool) : VM :=
  mkVM
    (list_to_map
       [("sr_s", VBool s); ("sr_d", VBool false); ("sr_r", VBool false);
        ("r1", VBv 32 0x100); ("r2", VBv 32 0x200);
        ("mach", VBv 32 0); ("macl", VBv 32 0)]%string)
    ∅ (<[0x100 := 3]> (<[0x200 := 5]> ∅)) false (32, 0) None [].

(** The write-back of MAC.L: MACL and MACH from the halves of the local
    [mac]. *)
Definition mac_low : Effect :=
  ESetG "macl" (PCast false 32 (PBin OLogAnd (PVarL "mac") (PBv 64 0xffffffff))).
Definition mac_high : Effect :=
  ESetG "mach" (PCast false 32 (PBin OShiftR0 (PVarL "mac") (PBv 32 32))).

(** The accumulator MACH:MACL of a VM as one 64-bit number. *)
Definition accumulator (st : VM) : option Z :=
  match vm_globals st !! "mach"%string, vm_globals st !! "macl"%string with
  | Some (VBv 32 h), Some (VBv 32 l) => Some (h * 2 ^ 32 + l)
  | _, _ => None
  end.

(** LDC R1, GBR and LDC R1, SR, and VMs in user and in privileged mode. *)
Definition ldc_r1_gbr : SHOp :=
  mkOp (mkParam SH_REG_DIRECT 1 0) (mkParam SH_REG_DIRECT SH_REG_IND_GBR 0)
       SH_SCALING_INVALID.

Definition ldc_r1_sr : SHOp :=
  mkOp (mkParam SH_REG_DIRECT 1 0) (mkParam SH_REG_DIRECT SH_REG_IND_SR 0)
       SH_SCALING_INVALID.

Definition ldc_r1_r3_bank : SHOp :=
  mkOp (mkParam SH_REG_DIRECT 1 0) (mkParam SH_REG_DIRECT 3 0) SH_SCALING_INVALID.

Definition vm_mode (md : bool) : VM :=
  mkVM (list_to_map [("sr_d", VBool md); ("sr_r", VBool false);
                     ("r1", VBv 32 7); ("gbr", VBv 32 0)]%string)
       ∅ ∅ false (32, 0) None [].

(** Two located registers overlap when they are in the arena of one
    class and their bit ranges intersect. *)
Definition ranges_overlap (a b : Located) : Prop :=
  a.1 = b.1
  ∧ offset a.2 < offset b.2 + size b.2
  ∧ offset b.2 < offset a.2 + size a.2.

(** Offsets and sizes of a profile are not negative. *)
Definition wf_item (it : RzRegItem) : Prop := 0 <= offset it ∧ 0 <= size it.
Definition wf_profile (reg : RzReg) : Prop :=
  Forall (Forall wf_item) (regset reg).

(** A profile with sub-registers, a flag inside a flags register, and a
    program counter. *)
Definition profile_sample : RzReg :=
  mkReg
    [[mkItem "eax" 32 0; mkItem "ax" 16 0; mkItem "al" 8 0; mkItem "ah" 8 8;
      mkItem "ebx" 32 32; mkItem "flags" 16 64; mkItem "zf" 1 70;
      mkItem "pc" 32 96];
     [mkItem "f0" 64 0; mkItem "f1" 64 64]]%string
    (Some "pc"%string) ∅.

(** A profile whose program counter is a one-bit register. *)
Definition profile_pc_flag : RzReg :=
  mkReg [[mkItem "pc" 1 0; mkItem "r0" 32 32]]%string (Some "pc"%string) ∅.

(** Two located registers cannot be both touched by one write. *)
Definition regs_disjoint (a b : Located) : Prop :=
  a.1 ≠ b.1
  ∨ offset a.2 + size a.2 <= offset b.2
  ∨ offset b.2 + size b.2 <= offset a.2.

(** The program counter of the VM goes to a register of its own width. *)
Definition pc_clean (vm : VM) (reg : RzReg) : bool :=
  match name_pc reg with
  | Some pc =>
      match rz_reg_get reg pc with
      | Some ri => size ri.2 =? rz_bv_len (vm_pc vm)
      | None => false
      end
  | None => false
  end.

(** A bound entry has a register and a bitvector variable of the
    register's width. *)
Definition entry_clean (vm : VM) (reg : RzReg) (item : RzILRegBindingItem) : bool :=
  match rz_reg_get reg (rb_name item), vm_globals vm !! rb_name item with
  | Some ri, Some (VBv w _) => w =? size ri.2
  | _, _ => false
  end.

(** An entry needs coercion or lacks a counterpart. *)
Definition entry_unclean (vm : VM) (reg : RzReg) (item : RzILRegBindingItem) : Prop :=
  rz_reg_get reg (rb_name item) = None
  ∨ (∀ w x, vm_globals vm !! rb_name item ≠ Some (VBv w x))
  ∨ ∃ ri w x, rz_reg_get reg (rb_name item) = Some ri
              ∧ vm_globals vm !! rb_name item = Some (VBv w x)
              ∧ w ≠ size ri.2.

(** A VM with an empty binding, and a register file without a program
    counter role: nothing to coerce, nothing missing. *)
Definition vm_bound_nothing : VM := mkVM ∅ ∅ ∅ false (32, 0) (Some []) [].
Definition profile_no_pc : RzReg := mkReg [[mkItem "r0" 32 0]]%string None ∅.

(** A VM whose variable [r0] is 16 bits wide and whose variable [r1] is
    64 bits wide, bound to the 32-bit registers of [profile_two]. *)
Definition profile_two : RzReg :=
  mkReg [[mkItem "r0" 32 0; mkItem "r1" 32 32; mkItem "pc" 32 64]]%string
        (Some "pc"%string) ∅.

Definition vm_two : VM :=
  mkVM (list_to_map [("r0", VBv 16 0xbeef); ("r1", VBv 64 0x1122334455667788);
                     ("gone", VBv 8 0xff)]%string)
       ∅ ∅ false (32, 0)
       (Some [mkBinding "r0" 32; mkBinding "r1" 32; mkBinding "gone" 8]%string) [].

(** The order of the sorted registers. *)
Definition by_offset (a b : RzRegItem) : Prop := offset a <= offset b.

(** The step of the loop that binds the flags. *)
Definition flags_step (flags : list RzRegItem) (item : RzRegItem) : list RzRegItem :=
  if negb (size item =? 1) then flags
  else if existsb (λ item2, offset item2 =? offset item) flags then flags
  else flags ++ [item].

(** Entries that are not flags do not overlap. *)
Definition nonflag_disjoint (a b : Located) : Prop :=
  size a.2 ≠ 1 → size b.2 ≠ 1 → ¬ ranges_overlap a b.

(** The fidelity flag of a push as the specification has it: false exactly when
    some entry needs coercion or lacks a counterpart. *)
Definition fidelity_by_entries (vm : VM) (reg : RzReg) (rb : list RzILRegBindingItem) : Prop :=
  (rz_il_vm_sync_to_reg vm reg).2 = false
  ↔ ∃ item, item ∈ rb ∧ entry_unclean vm reg item.

(** The register file and the flag after the program counter was pushed. *)
Definition pushed_pc (vm : VM) (reg : RzReg) : RzReg * bool :=
  match name_pc reg with
  | Some pc =>
      match rz_reg_get reg pc with
      | Some ri =>
          let pcbv := rz_bv_new_zero (size ri.2) in
          ((rz_reg_set_bv reg ri
              (rz_bv_copy_nbits (vm_pc vm) 0 pcbv 0
                 (Z.min (rz_bv_len pcbv) (rz_bv_len (vm_pc vm))))).1,
           rz_bv_len pcbv =? rz_bv_len (vm_pc vm))
      | None => (reg, false)
      end
  | None => (reg, false)
  end.

(** The VM after the program counter was pulled. *)
Definition pulled_pc (vm : VM) (reg : RzReg) : VM :=
  match name_pc reg with
  | Some pc =>
      match rz_reg_get reg pc with
      | Some ri =>
          let pc0 := rz_bv_set_all (vm_pc vm) false in
          let pcbv := rz_reg_get_bv reg ri in
          set_pc vm (rz_bv_copy_nbits pcbv 0 pc0 0
                       (Z.min (rz_bv_len pcbv) (rz_bv_len pc0)))
      | None => vm
      end
  | None => vm
  end.

(** The variable that holds general register [reg] in a VM: for r0 to r7
    the variable of the bank that SR.MD and SR.RB select. *)
Definition cur_reg (st : VM) (reg : Z) : option string :=
  if (0 <=? reg) && (reg <? 8) then
    match vm_globals st !! SH_SR_D, vm_globals st !! SH_SR_R with
    | Some (VBool d), Some (VBool r) => sh_get_banked_reg reg (if d && r then 1 else 0)
    | _, _ => None
    end
  else if (8 <=? reg) && (reg <? 16) then sh_registers !! Z.to_nat reg
  else None.

(** The general registers of a VM, read and written as the processor
    sees them. *)
Definition read_reg (st : VM) (reg : Z) : option Val :=
  n ← cur_reg st reg; vm_globals st !! n.

Definition write_reg (st : VM) (reg : Z) (v : Val) : option VM :=
  n ← cur_reg st reg; Some (set_global st n v).

(** The register numbers of the operands [Rm] and [Rn] of an instruction,
    and an instruction whose two operands are registers used whole. *)
Definition Rm (op : SHOp) : Z := param0 (op_param0 op).
Definition Rn (op : SHOp) : Z := param0 (op_param1 op).

Definition whole_register (op : SHOp) : Prop :=
  scaling op = SH_SCALING_INVALID ∨ scaling op = SH_SCALING_L.

Definition reg_reg (op : SHOp) : Prop :=
  mode (op_param0 op) = SH_REG_DIRECT ∧ mode (op_param1 op) = SH_REG_DIRECT
  ∧ whole_register op.

(** Execution of a nullable effect where NULL stands for no effect. *)
Definition exec_skip (ac : bool) (e : option Effect) (st : VM) : option VM :=
  match e with
  | Some e' => exec ac st e'
  | None => Some st
  end.

(** The variables of the general registers, both banks. *)
Definition gpr_names : list string :=
  ["r0"; "r1"; "r2"; "r3"; "r4"; "r5"; "r6"; "r7";
   "r0b"; "r1b"; "r2b"; "r3b"; "r4b"; "r5b"; "r6b"; "r7b";
   "r8"; "r9"; "r10"; "r11"; "r12"; "r13"; "r14"; "r15"]%string.

(** No two registers of a profile share a name. *)
Definition names_unique (reg : RzReg) : Prop :=
  NoDup (name <$> concat (regset reg)).

(** A VM that binds the registers derived from [profile_sample], and
    holds a variable that is not bound. *)
Definition vm_sample : VM :=
  mkVM (list_to_map [("zf", VBv 1 1); ("eax", VBv 32 0xdeadbeef); ("ebx", VBv 32 7);
                     ("f0", VBv 64 1); ("f1", VBv 64 2); ("other", VBv 8 3)]%string)
       ∅ ∅ false (32, 0x1000)
       (Some (rz_il_reg_binding_derive profile_sample)) [].

(** [profile_sample] with contents in the arena of its first class. *)
Definition profile_filled : RzReg :=
  mkReg (regset profile_sample) (name_pc profile_sample)
        (<[0%nat := 0x12345678_00000040_000000aa_cafef00d]> ∅).

(** A bound entry has a register of the entry's size and a variable. *)
Definition entry_matches (vm : VM) (reg : RzReg) (item : RzILRegBindingItem) : Prop :=
  ∃ ri, rz_reg_get reg (rb_name item) = Some ri
        ∧ size ri.2 = rb_size item
        ∧ is_Some (vm_globals vm !! rb_name item).

(** A VM with general registers in user mode, and instructions on them. *)
Definition vm_user : VM :=
  mkVM (list_to_map
          [("sr_d", VBool false); ("sr_r", VBool false); ("sr_t", VBool true);
           ("r1", VBv 32 0xffffffff); ("r2", VBv 32 1); ("r9", VBv 32 0x100);
           ("ssr", VBv 32 0x40000001); ("spc", VBv 32 0x2000)]%string)
       ∅ (<[0x100 := 0x80]> ∅) false (32, 0) None [].

Definition vm_privileged : VM := set_global vm_user SH_SR_D (VBool true).

Definition op_r1_r2 : SHOp :=
  mkOp (mkParam SH_REG_DIRECT 1 0) (mkParam SH_REG_DIRECT 2 0) SH_SCALING_INVALID.

Definition op_r2 : SHOp :=
  mkOp (mkParam SH_REG_DIRECT 2 0) (mkParam SH_ADDR_INVALID 0 0) SH_SCALING_INVALID.

Definition op_at_r9 (sc : SHScaling) : SHOp :=
  mkOp (mkParam SH_REG_INDIRECT 9 0) (mkParam SH_REG_DIRECT 2 0) sc.

Definition op_at_r9_inc : SHOp :=
  mkOp (mkParam SH_REG_INDIRECT_I 9 0) (mkParam SH_REG_DIRECT 2 0) SH_SCALING_L.

Definition op_r1_at_dec_r9 : SHOp :=
  mkOp (mkParam SH_REG_DIRECT 1 0) (mkParam SH_REG_INDIRECT_D 9 0) SH_SCALING_L.

Definition op_branch8 (d : Z) : SHOp :=
  mkOp (mkParam SH_PC_RELATIVE8 d 0) (mkParam SH_ADDR_INVALID 0 0) SH_SCALING_INVALID.

Definition op_mach_r2 : SHOp :=
  mkOp (mkParam SH_REG_DIRECT 24 0) (mkParam SH_REG_DIRECT 2 0) SH_SCALING_INVALID.

End Spec.

(** ** Facts about bit strings *)

Module BitFacts.
Import Reg.

Lemma pow2_pos (n : Z) : 0 <= n → 0 < 2 ^ n.
Proof. intros; apply Z.pow_pos_nonneg; lia. Qed.

(** The most significant bit of a 32-bit value is set from [2^31] on. *)
Lemma msb32 (x : Z) : 0 <= x < 2 ^ 32 → Z.testbit x 31 = (2 ^ 31 <=? x).
Proof.
  intros Hx. rewrite Z.testbit_eqb by lia.
  destruct (Z.leb_spec (2 ^ 31) x) as [Hge | Hlt].
  - replace (x / 2 ^ 31) with 1; [reflexivity |].
    apply Z.div_unique with (r := x - 2 ^ 31); lia.
  - rewrite Z.div_small by lia. reflexivity.
Qed.

Lemma mod32_sum (x y : Z) :
  0 <= x < 2 ^ 32 → 0 <= y < 2 ^ 32 →
  (x + y) mod 2 ^ 32 = if 2 ^ 32 <=? x + y then x + y - 2 ^ 32 else x + y.
Proof.
  intros Hx Hy. destruct (Z.leb_spec (2 ^ 32) (x + y)).
  - symmetry. apply Z.mod_unique with (q := 1); lia.
  - apply Z.mod_small; lia.
Qed.

(** Reading and writing bit ranges, bit by bit. *)
Lemma bits_read_spec (a off sz n : Z) :
  0 <= off → 0 <= sz → 0 <= n →
  Z.testbit (bits_read a off sz) n = (n <? sz) && Z.testbit a (n + off).
Proof.
  intros Ho Hs Hn. unfold bits_read.
  rewrite Z.land_spec, Z.shiftr_spec, Z.testbit_ones_nonneg by lia.
  apply andb_comm.
Qed.

Lemma bits_write_spec (a off sz v m : Z) :
  0 <= off → 0 <= sz → 0 <= m →
  Z.testbit (bits_write a off sz v) m =
  if (off <=? m) && (m <? off + sz) then Z.testbit v (m - off) else Z.testbit a m.
Proof.
  intros Ho Hs Hm. unfold bits_write.
  rewrite Z.lor_spec, Z.ldiff_spec, !Z.shiftl_spec, Z.land_spec by lia.
  destruct (Z.leb_spec off m) as [Hle | Hlt]; cbn [andb].
  - rewrite !Z.testbit_ones_nonneg by lia.
    replace (m - off <? sz) with (m <? off + sz)
      by (destruct (Z.ltb_spec m (off + sz)), (Z.ltb_spec (m - off) sz);
          try reflexivity; exfalso; lia).
    destruct (m <? off + sz); cbn; rewrite ?andb_true_r, ?andb_false_r, ?orb_false_r; reflexivity.
  - rewrite !(Z.testbit_neg_r _ (m - off)) by lia. cbn.
    rewrite andb_true_r, orb_false_r. reflexivity.
Qed.

Lemma bits_read_write_same (a off sz v : Z) :
  0 <= off → 0 <= sz → bits_read (bits_write a off sz v) off sz = v mod 2 ^ sz.
Proof.
  intros Ho Hs. rewrite <- Z.land_ones by lia. apply Z.bits_inj'. intros n Hn.
  rewrite bits_read_spec, bits_write_spec, Z.land_spec, Z.testbit_ones_nonneg by lia.
  destruct (Z.ltb_spec n sz); cbn [andb]; [| rewrite andb_false_r; reflexivity].
  replace ((off <=? n + off) && (n + off <? off + sz)) with true
    by (symmetry; apply andb_true_iff; split; [apply Z.leb_le | apply Z.ltb_lt]; lia).
  rewrite andb_true_r. f_equal. lia.
Qed.

Lemma bits_read_write_other (a o1 s1 o2 s2 v : Z) :
  0 <= o1 → 0 <= s1 → 0 <= o2 → 0 <= s2 →
  o1 + s1 <= o2 ∨ o2 + s2 <= o1 →
  bits_read (bits_write a o2 s2 v) o1 s1 = bits_read a o1 s1.
Proof.
  intros Ho1 Hs1 Ho2 Hs2 Hdis. apply Z.bits_inj'. intros n Hn.
  rewrite !bits_read_spec, bits_write_spec by lia.
  destruct (Z.ltb_spec n s1); cbn [andb]; [| reflexivity].
  replace ((o2 <=? n + o1) && (n + o1 <? o2 + s2)) with false; [reflexivity |].
  symmetry. apply andb_false_iff.
  destruct Hdis; [left; apply Z.leb_gt | right; apply Z.ltb_ge]; lia.
Qed.

Lemma copy_low_bits (x n : Z) :
  0 <= n → bits_write 0 0 n (bits_read x 0 n) = x mod 2 ^ n.
Proof.
  intros Hn. rewrite <- Z.land_ones by lia. apply Z.bits_inj'. intros m Hm.
  rewrite bits_write_spec, Z.land_spec, Z.testbit_ones_nonneg, Z.bits_0 by lia.
  cbn [Z.leb]. rewrite Z.add_0_l, Z.sub_0_r.
  replace (0 <=? m) with true by (symmetry; apply Z.leb_le; lia). cbn [andb].
  destruct (Z.ltb_spec m n); [| rewrite andb_false_r; reflexivity].
  rewrite bits_read_spec, Z.add_0_r by lia.
  replace (m <? n) with true by (symmetry; apply Z.ltb_lt; lia).
  rewrite andb_true_r. reflexivity.
Qed.

End BitFacts.

(** ** Facts about the VM and the evaluator *)

Module ILFacts.
Import IL.

Lemma globals_set_global st n v :
  vm_globals (set_global st n v) = <[n := v]> (vm_globals st).
Proof. reflexivity. Qed.

Lemma locals_set_global st n v : vm_locals (set_global st n v) = vm_locals st.
Proof. reflexivity. Qed.

Lemma events_set_global st n v : vm_events (set_global st n v) = vm_events st.
Proof. reflexivity. Qed.

Lemma binding_set_global st n v :
  vm_reg_binding (set_global st n v) = vm_reg_binding st.
Proof. reflexivity. Qed.

Lemma globals_set_local st n v : vm_globals (set_local st n v) = vm_globals st.
Proof. reflexivity. Qed.

Lemma locals_set_local st n v :
  vm_locals (set_local st n v) = <[n := v]> (vm_locals st).
Proof. reflexivity. Qed.

Lemma globals_set_pc st b : vm_globals (set_pc st b) = vm_globals st.
Proof. reflexivity. Qed.

Lemma exec_setg ac st n p v :
  eval ac st p = Some v → exec ac st (ESetG n p) = Some (set_global st n v).
Proof. intros E. cbn. rewrite E. reflexivity. Qed.

Lemma exec_seq ac st st' x y :
  exec ac st x = Some st' → exec ac st (ESeq x y) = exec ac st' y.
Proof. intros E. cbn. rewrite E. reflexivity. Qed.

End ILFacts.

(** ** Properties of the lifter *)

Module SHProofs.
Import IL SH Spec BitFacts ILFacts.

(** C2. For 32-bit operands [x] and [y] and [res = x + y] computed modulo
    [2^32], the add-carry predicate of the lifter,
    [(s x ∧ s y) ∨ (¬ s res ∧ s y) ∨ (s x ∧ ¬ s res)] over the most
    significant bits, evaluates to true exactly when the exact sum
    [x + y] exceeds [2^32 - 1]. *)
Theorem add_carry_iff_unsigned_overflow (ac : bool) (st : VM)
    (pres px py : Pure) (x y : Z) :
  0 <= x < 2 ^ 32 →
  0 <= y < 2 ^ 32 →
  eval ac st px = Some (VBv 32 x) →
  eval ac st py = Some (VBv 32 y) →
  eval ac st pres = Some (VBv 32 ((x + y) mod 2 ^ 32)) →
  ∃ b : bool,
    evalo ac st (sh_il_is_add_carry (Some pres) (Some px) (Some py)) = Some (VBool b)
    ∧ (b = true ↔ x + y > 2 ^ 32 - 1).
Proof.
  intros Hx Hy Ex Ey Er.
  exists (2 ^ 32 <=? x + y). split.
  - cbn. rewrite Ex, Ey, Er. cbn.
    replace (32 - 1) with 31 by reflexivity.
    rewrite (msb32 x), (msb32 y) by assumption.
    rewrite msb32 by (apply Z.mod_pos_bound; lia).
    rewrite mod32_sum by assumption.
    f_equal. f_equal.
    destruct (Z.leb_spec (2 ^ 32) (x + y)), (Z.leb_spec (2 ^ 31) x),
      (Z.leb_spec (2 ^ 31) y);
      repeat match goal with
             | |- context [?a <=? ?b] => destruct (Z.leb_spec a b)
             end; cbn; try reflexivity; lia.
  - rewrite Z.leb_le. lia.
Qed.

(** The add-carry predicate on the registers of an ADDC whose operands
    hold [2^32 - 1] and [1]: the sum wraps to [0] and the carry is set. *)
Lemma add_carry_iff_unsigned_overflow_witness :
  ∃ b : bool,
    evalo false vm_empty
      (sh_il_is_add_carry (SH_U_REG 0) (SH_U_REG (2 ^ 32 - 1)) (SH_U_REG 1))
    = Some (VBool b)
    ∧ (b = true ↔ 2 ^ 32 - 1 + 1 > 2 ^ 32 - 1).
Proof.
  apply (add_carry_iff_unsigned_overflow false _ (PBv 32 0) (PBv 32 (2 ^ 32 - 1))
           (PBv 32 1) (2 ^ 32 - 1) 1); try reflexivity; lia.
Defined.

(** *** The status register codec *)

Lemma shr_range (v k : Z) : 0 <= v < 2 ^ 32 → 0 <= k → 0 <= Z.shiftr v k < 2 ^ 32.
Proof.
  intros Hv Hk. rewrite Z.shiftr_div_pow2 by lia. split.
  - apply Z.div_pos; [lia | apply pow2_pos; lia].
  - apply Z.le_lt_trans with v; [|lia].
    apply Z.div_le_upper_bound; [apply pow2_pos; lia |].
    assert (1 <= 2 ^ k) by (pose proof (pow2_pos k); lia). nia.
Qed.

Lemma eval_shr ac st e v k :
  eval ac st e = Some (VBv 32 v) → 0 <= v < 2 ^ 32 → 0 <= k < 2 ^ 32 →
  eval ac st (PBin OShiftR0 e (PBv 32 k)) = Some (VBv 32 (Z.shiftr v k)).
Proof.
  intros E Hv Hk. cbn [eval]. rewrite E. cbn. unfold bv.
  rewrite (Z.mod_small k) by lia.
  f_equal. f_equal. apply Z.mod_small. apply shr_range; lia.
Qed.

Lemma eval_flag ac st e v mask :
  eval ac st e = Some (VBv 32 v) → 0 <= v < 2 ^ 32 → 0 <= mask < 2 ^ 32 →
  eval ac st (PUn ONonZero (PBin OLogAnd (PBv 32 mask) e))
  = Some (VBool (negb (Z.land mask v =? 0))).
Proof.
  intros E Hv Hm. cbn [eval]. rewrite E. cbn.
  rewrite (Z.mod_small mask) by lia.
  rewrite <- (Z.land_ones _ 32) by lia.
  rewrite <- Z.land_assoc, (Z.land_ones v 32), (Z.mod_small v) by lia.
  reflexivity.
Qed.

Lemma flag_bit (w k : Z) :
  0 <= k → negb (Z.land 1 (Z.shiftr w k) =? 0) = Z.testbit w k.
Proof.
  intros Hk. rewrite Z.land_comm. change 1 with (Z.ones 1).
  rewrite Z.land_ones by lia. change (2 ^ 1) with 2.
  rewrite <- Z.bit0_mod, Z.shiftr_spec by lia. rewrite Z.add_0_l.
  destruct (Z.testbit w k); reflexivity.
Qed.

(** Unpacking sets every flag from its bit of the word, and the interrupt
    mask flag from whether the field is non-zero. *)
Lemma set_status_reg_exec ac st w :
  0 <= w < 2 ^ 32 →
  execo ac st (sh_il_set_status_reg (SH_U_REG w)) = Some (unpacked st w).
Proof.
  intros Hw.
  let t := eval vm_compute in (sh_il_set_status_reg (SH_U_REG w)) in
  change (sh_il_set_status_reg (SH_U_REG w)) with t.
  unfold execo; cbn [mbind option_bind].
  assert (E0 : ∀ st, eval ac st (PBv 32 w) = Some (VBv 32 w)).
  { intros; cbn. unfold bv. rewrite Z.mod_small by lia. reflexivity. }
  pose proof (λ st, eval_shr ac st _ _ 1 (E0 st) Hw ltac:(lia)) as E1.
  pose proof (shr_range w 1 Hw ltac:(lia)) as R1.
  pose proof (λ st, eval_shr ac st _ _ 3 (E1 st) R1 ltac:(lia)) as E2.
  pose proof (shr_range _ 3 R1 ltac:(lia)) as R2.
  pose proof (λ st, eval_shr ac st _ _ 4 (E2 st) R2 ltac:(lia)) as E3.
  pose proof (shr_range _ 4 R2 ltac:(lia)) as R3.
  pose proof (λ st, eval_shr ac st _ _ 1 (E3 st) R3 ltac:(lia)) as E4.
  pose proof (shr_range _ 1 R3 ltac:(lia)) as R4.
  pose proof (λ st, eval_shr ac st _ _ 6 (E4 st) R4 ltac:(lia)) as E5.
  pose proof (shr_range _ 6 R4 ltac:(lia)) as R5.
  pose proof (λ st, eval_shr ac st _ _ 13 (E5 st) R5 ltac:(lia)) as E6.
  pose proof (shr_range _ 13 R5 ltac:(lia)) as R6.
  pose proof (λ st, eval_shr ac st _ _ 1 (E6 st) R6 ltac:(lia)) as E7.
  pose proof (shr_range _ 1 R6 ltac:(lia)) as R7.
  pose proof (λ st, eval_shr ac st _ _ 1 (E7 st) R7 ltac:(lia)) as E8.
  pose proof (shr_range _ 1 R7 ltac:(lia)) as R8.
  cbn [exec mbind option_bind].
  rewrite (eval_flag ac _ _ _ 1 (E0 _) Hw) by lia; cbn [mbind option_bind].
  rewrite (eval_flag ac _ _ _ 1 (E1 _) R1) by lia; cbn [mbind option_bind].
  rewrite (eval_flag ac _ _ _ 15 (E2 _) R2) by lia; cbn [mbind option_bind].
  rewrite (eval_flag ac _ _ _ 1 (E3 _) R3) by lia; cbn [mbind option_bind].
  rewrite (eval_flag ac _ _ _ 1 (E4 _) R4) by lia; cbn [mbind option_bind].
  rewrite (eval_flag ac _ _ _ 1 (E5 _) R5) by lia; cbn [mbind option_bind].
  rewrite (eval_flag ac _ _ _ 1 (E6 _) R6) by lia; cbn [mbind option_bind].
  rewrite (eval_flag ac _ _ _ 1 (E7 _) R7) by lia; cbn [mbind option_bind].
  rewrite (eval_flag ac _ _ _ 1 (E8 _) R8) by lia; cbn [mbind option_bind].
  rewrite !Z.shiftr_shiftr by lia. cbn [Z.add Pos.add Pos.succ].
  rewrite <- (Z.shiftr_0_r w) at 1.
  rewrite !flag_bit by lia.
  reflexivity.
Qed.

Lemma testbit_shifted_flag (b : bool) (k n : Z) :
  0 <= k → 0 <= n → Z.testbit (Z.shiftl (Z.b2z b) k) n = b && (n =? k).
Proof.
  intros Hk Hn. destruct b; cbn [Z.b2z andb].
  - rewrite Z.shiftl_1_l, Z.pow2_bits_eqb by lia. apply Z.eqb_sym.
  - rewrite Z.shiftl_0_l. apply Z.bits_0.
Qed.

Lemma sr_pack_bits t s i q m f b r d n :
  0 <= n →
  Z.testbit (sr_pack t s i q m f b r d) n =
  (d && (n =? 30)) || ((r && (n =? 29)) || ((b && (n =? 28)) || ((f && (n =? 15))
  || ((m && (n =? 9)) || ((q && (n =? 8)) || ((i && (n =? 4))
  || ((s && (n =? 1)) || (t && (n =? 0))))))))).
Proof.
  intros Hn. unfold sr_pack.
  rewrite !Z.lor_spec, !testbit_shifted_flag by lia. reflexivity.
Qed.

(** Packing reads every flag variable as one bit at its position. *)
Lemma get_status_reg_eval ac st t s i q m f b r d :
  vm_globals st !! SH_SR_T = Some (VBool t) →
  vm_globals st !! SH_SR_S = Some (VBool s) →
  vm_globals st !! SH_SR_I = Some (VBool i) →
  vm_globals st !! SH_SR_Q = Some (VBool q) →
  vm_globals st !! SH_SR_M = Some (VBool m) →
  vm_globals st !! SH_SR_F = Some (VBool f) →
  vm_globals st !! SH_SR_B = Some (VBool b) →
  vm_globals st !! SH_SR_R = Some (VBool r) →
  vm_globals st !! SH_SR_D = Some (VBool d) →
  evalo ac st sh_il_get_status_reg = Some (VBv 32 (sr_pack t s i q m f b r d)).
Proof.
  intros Ht Hs Hi Hq Hm Hf Hb Hr Hd.
  let t := eval vm_compute in sh_il_get_status_reg in
  change sh_il_get_status_reg with t.
  unfold evalo; cbn [mbind option_bind eval].
  unfold SH_SR_T, SH_SR_S, SH_SR_I, SH_SR_Q, SH_SR_M, SH_SR_F, SH_SR_B,
    SH_SR_R, SH_SR_D in *.
  rewrite Ht, Hs, Hi, Hq, Hm, Hf, Hb, Hr, Hd.
  destruct t, s, i, q, m, f, b, r, d; reflexivity.
Qed.

(** C1, amended.  Setting the flag variables from a 32-bit status word
    [w] and packing them again gives a word that has the bit of [w] at
    each of the eight one-bit flag positions, has bit 4 set exactly when
    the interrupt mask field (bits 4 to 7) of [w] is not zero, and is
    zero at every other position, bits 5 to 7 included. *)
Theorem status_reg_roundtrip (ac : bool) (st : VM) (w : Z) :
  0 <= w < 2 ^ 32 →
  ∃ r : Z,
    status_roundtrip ac st w = Some (VBv 32 r)
    ∧ ∀ n : Z, 0 <= n →
        Z.testbit r n =
        if is_flag_position n then Z.testbit w n
        else if n =? 4 then negb (Z.land 15 (Z.shiftr w 4) =? 0)
        else false.
Proof.
  intros Hw. eexists. split.
  - unfold status_roundtrip. rewrite set_status_reg_exec by assumption.
    cbn [mbind option_bind].
    apply get_status_reg_eval; unfold unpacked; rewrite !globals_set_global;
      repeat (rewrite lookup_insert_ne by done); apply lookup_insert_eq.
  - intros n Hn. rewrite sr_pack_bits by assumption.
    unfold is_flag_position, flag_positions. cbn [existsb].
    repeat match goal with
           | |- context [n =? ?k] => destruct (Z.eqb_spec n k); [subst n|]
           end; cbn; rewrite ?andb_true_r, ?andb_false_r, ?orb_false_r;
      try reflexivity; try lia.
Qed.

(** The status word with all defined bits set: the interrupt mask field
    comes back as [0001]. *)
Lemma status_reg_roundtrip_witness :
  0 <= defined_mask < 2 ^ 32
  ∧ ∃ r : Z,
      status_roundtrip false vm_empty defined_mask = Some (VBv 32 r)
      ∧ ∀ n : Z, 0 <= n →
          Z.testbit r n =
          if is_flag_position n then Z.testbit defined_mask n
          else if n =? 4 then negb (Z.land 15 (Z.shiftr defined_mask 4) =? 0)
          else false.
Proof.
  assert (H : 0 <= defined_mask < 2 ^ 32) by (unfold defined_mask; lia).
  split; [exact H | exact (status_reg_roundtrip false vm_empty defined_mask H)].
Defined.

(** C1 as stated fails: the word whose interrupt mask field is [0010]
    does not come back on the defined positions. *)
Lemma status_reg_roundtrip_loses_imask :
  ¬ ∃ r : Z,
      status_roundtrip false vm_empty 0x20 = Some (VBv 32 r)
      ∧ Z.land r defined_mask = Z.land 0x20 defined_mask.
Proof.
  intros (r & Hr & Hmask). vm_compute in Hr.
  injection Hr as <-. discriminate Hmask.
Qed.

(** *** Operands *)

(** C8. Whatever the value and the scaling, the operand setter returns
    NULL for an operand whose addressing mode is an unsigned or a signed
    immediate: no store and no register write is produced. *)
Theorem set_param_immediate_is_null (param : SHParam) (val : option Pure)
    (scaling : SHScaling) (pc : Z) :
  mode param = SH_IMM_U ∨ mode param = SH_IMM_S →
  sh_il_set_param_pc param val scaling pc = None.
Proof.
  intros [H | H]; unfold sh_il_set_param_pc; rewrite H; reflexivity.
Qed.

Lemma set_param_immediate_is_null_witness :
  sh_il_set_param_pc (mkParam SH_IMM_S (-1) 0) (SH_U_REG 5) SH_SCALING_L 0 = None.
Proof.
  apply (set_param_immediate_is_null (mkParam SH_IMM_S (-1) 0)).
  right; reflexivity.
Defined.

(** *** Banked registers *)

Lemma eval_bank_condition ac st d r :
  vm_globals st !! SH_SR_D = Some (VBool d) →
  vm_globals st !! SH_SR_R = Some (VBool r) →
  eval ac st bank_condition = Some (VBool (d && r)).
Proof. intros Hd Hr. cbn. rewrite Hd, Hr. reflexivity. Qed.

Lemma eval_banked ac st d r n0 n1 :
  vm_globals st !! SH_SR_D = Some (VBool d) →
  vm_globals st !! SH_SR_R = Some (VBool r) →
  eval ac st (PIte bank_condition (PVarG n1) (PVarG n0))
  = vm_globals st !! (if d && r then n1 else n0).
Proof.
  intros Hd Hr. cbn [eval]. rewrite (eval_bank_condition ac st d r Hd Hr).
  cbn. destruct (d && r); reflexivity.
Qed.

Lemma exec_banked ac st d r n0 n1 val v :
  vm_globals st !! SH_SR_D = Some (VBool d) →
  vm_globals st !! SH_SR_R = Some (VBool r) →
  eval ac st val = Some v →
  exec ac st (EBranch bank_condition (ESetG n1 val) (ESetG n0 val))
  = Some (set_global st (if d && r then n1 else n0) v).
Proof.
  intros Hd Hr Hv. cbn [exec]. rewrite (eval_bank_condition ac st d r Hd Hr).
  cbn. destruct (d && r); cbn; rewrite Hv; reflexivity.
Qed.

(** C9. For a banked register r0..r7, [sh_il_get_reg] and [sh_il_set_reg]
    build a conditional on [SR.MD ∧ SR.RB] that reads, or writes, the
    bank 1 variable when both bits are true and the bank 0 variable
    otherwise.  For r8..r15 they build a plain access to the one variable
    of the register, which is neither bank bit. *)
Theorem banked_register_access (ac : bool) (st : VM) (reg : Z) (d r : bool) :
  vm_globals st !! SH_SR_D = Some (VBool d) →
  vm_globals st !! SH_SR_R = Some (VBool r) →
  (0 <= reg < 8 →
   ∃ n0 n1 : string,
     sh_get_banked_reg reg 0 = Some n0
     ∧ sh_get_banked_reg reg 1 = Some n1
     ∧ n0 ≠ n1
     ∧ sh_il_get_reg reg = Some (PIte bank_condition (PVarG n1) (PVarG n0))
     ∧ evalo ac st (sh_il_get_reg reg) = vm_globals st !! (if d && r then n1 else n0)
     ∧ ∀ (val : Pure) (v : Val),
         eval ac st val = Some v →
         execo ac st (sh_il_set_reg reg (Some val))
         = Some (set_global st (if d && r then n1 else n0) v))
  ∧ (8 <= reg < 16 →
     ∃ n : string,
       sh_registers !! Z.to_nat reg = Some n
       ∧ n ≠ SH_SR_D ∧ n ≠ SH_SR_R
       ∧ sh_il_get_reg reg = Some (PVarG n)
       ∧ evalo ac st (sh_il_get_reg reg) = vm_globals st !! n
       ∧ ∀ val : Pure, sh_il_set_reg reg (Some val) = Some (ESetG n val)).
Proof.
  intros Hd Hr. split; intros Hreg.
  - assert (Hcases : reg = 0 ∨ reg = 1 ∨ reg = 2 ∨ reg = 3 ∨ reg = 4 ∨ reg = 5
                     ∨ reg = 6 ∨ reg = 7) by lia.
    repeat destruct Hcases as [-> | Hcases]; try subst reg;
      (eexists _, _; split; [reflexivity |]; split; [reflexivity |];
       split; [discriminate |]; split; [reflexivity |]; split;
       [ apply (eval_banked ac st d r _ _ Hd Hr)
       | intros val v Hv; apply (exec_banked ac st d r _ _ val v Hd Hr Hv) ]).
  - assert (Hcases : reg = 8 ∨ reg = 9 ∨ reg = 10 ∨ reg = 11 ∨ reg = 12 ∨ reg = 13
                     ∨ reg = 14 ∨ reg = 15) by lia.
    repeat destruct Hcases as [-> | Hcases]; try subst reg;
      (eexists; split; [reflexivity |]; split; [discriminate |];
       split; [discriminate |]; split; [reflexivity |]; split;
       [reflexivity | intros val; reflexivity]).
Qed.

Lemma banked_register_access_witness :
  vm_globals (vm_mode true) !! SH_SR_D = Some (VBool true)
  ∧ vm_globals (vm_mode true) !! SH_SR_R = Some (VBool false)
  ∧ 0 <= 3 < 8
  ∧ ∃ n0 n1 : string,
      sh_get_banked_reg 3 0 = Some n0
      ∧ sh_get_banked_reg 3 1 = Some n1
      ∧ n0 ≠ n1
      ∧ sh_il_get_reg 3 = Some (PIte bank_condition (PVarG n1) (PVarG n0))
      ∧ evalo false (vm_mode true) (sh_il_get_reg 3)
        = vm_globals (vm_mode true) !! (if true && false then n1 else n0)
      ∧ ∀ (val : Pure) (v : Val),
          eval false (vm_mode true) val = Some v →
          execo false (vm_mode true) (sh_il_set_reg 3 (Some val))
          = Some (set_global (vm_mode true) (if true && false then n1 else n0) v).
Proof.
  split; [reflexivity |]. split; [reflexivity |]. split; [lia |].
  apply (proj1 (banked_register_access false (vm_mode true) 3 true false
                  eq_refl eq_refl)).
  lia.
Defined.

(** Every general register has a read tree and a write effect. *)
Lemma get_reg_valid (reg : Z) :
  0 <= reg < 16 → ∃ g : Pure, sh_il_get_reg reg = Some g.
Proof.
  intros Hreg.
  assert (Hcases : reg = 0 ∨ reg = 1 ∨ reg = 2 ∨ reg = 3 ∨ reg = 4 ∨ reg = 5
                   ∨ reg = 6 ∨ reg = 7 ∨ reg = 8 ∨ reg = 9 ∨ reg = 10 ∨ reg = 11
                   ∨ reg = 12 ∨ reg = 13 ∨ reg = 14 ∨ reg = 15) by lia.
  repeat destruct Hcases as [-> | Hcases]; try subst reg; eexists; reflexivity.
Qed.

Lemma set_reg_valid (reg : Z) :
  0 <= reg < 16 →
  ∃ s : Pure → Effect, ∀ v : Pure, sh_il_set_reg reg (Some v) = Some (s v).
Proof.
  intros Hreg.
  assert (Hcases : reg = 0 ∨ reg = 1 ∨ reg = 2 ∨ reg = 3 ∨ reg = 4 ∨ reg = 5
                   ∨ reg = 6 ∨ reg = 7 ∨ reg = 8 ∨ reg = 9 ∨ reg = 10 ∨ reg = 11
                   ∨ reg = 12 ∨ reg = 13 ∨ reg = 14 ∨ reg = 15) by lia.
  repeat destruct Hcases as [-> | Hcases]; try subst reg;
    eexists; intros v; cbv; reflexivity.
Qed.

(** *** Multiply and accumulate *)

(** With the two operands in memory (register indirect, post-increment)
    the long form of MAC is a sequence whose saturating arm assigns the
    local [mac] and whose other arm assigns a global of that name; MACL
    and MACH are then written from the local. *)
Lemma mac_l_structure (op : SHOp) (pc : Z) :
  mode (op_param0 op) = SH_REG_INDIRECT_I →
  mode (op_param1 op) = SH_REG_INDIRECT_I →
  0 <= param0 (op_param0 op) < 16 →
  0 <= param0 (op_param1 op) < 16 →
  scaling op = SH_SCALING_L →
  ∃ (load sat sum : Pure) (posts : Effect),
    sh_il_mac op pc
    = Some (ESeq
              (ESeq (ESeq (ESetL "mac" load)
                       (EBranch (status_bit SH_SR_S)
                          (ESetL "mac" sat) (ESetG "mac" sum)))
                 (ESeq mac_low mac_high))
              posts).
Proof.
  destruct op as [[m0 a0 b0] [m1 a1 b1] sc].
  cbn [op_param0 op_param1 mode param0 scaling].
  intros -> -> Ha0 Ha1 ->.
  destruct (get_reg_valid a1 Ha1) as [rn Hrn].
  destruct (get_reg_valid a0 Ha0) as [rm Hrm].
  destruct (set_reg_valid a1 Ha1) as [set_rn Hsetn].
  destruct (set_reg_valid a0 Ha0) as [set_rm Hsetm].
  unfold sh_il_mac, sh_il_get_param, sh_il_get_param_pc, sh_il_get_effective_addr_pc.
  cbn [op_param op_param0 op_param1 mode param0 scaling pure post].
  rewrite Hrn, Hrm. cbn. rewrite Hsetn, Hsetm. cbn.
  do 4 eexists. reflexivity.
Qed.

(** After the arm that assigns the global, the write-back stores the
    halves of the local [mac], whatever the sum is. *)
Lemma mac_l_writeback_keeps_local ac st (sum : Pure) (v : Val) (m : Z) :
  eval ac st sum = Some v →
  vm_locals st !! "mac"%string = Some (VBv 64 m) →
  0 <= m < 2 ^ 64 →
  ∃ st' : VM,
    exec ac st (ESeq (ESetG "mac" sum) (ESeq mac_low mac_high)) = Some st'
    ∧ vm_globals st' !! "macl"%string = Some (VBv 32 (m mod 2 ^ 32))
    ∧ vm_globals st' !! "mach"%string = Some (VBv 32 (m / 2 ^ 32)).
Proof.
  intros Hsum Hmac Hm.
  assert (Hlow : (Z.land m 0xffffffff mod 2 ^ 64) mod 2 ^ 32 = m mod 2 ^ 32).
  { change 0xffffffff with (Z.ones 32). rewrite Z.land_ones by lia.
    rewrite (Z.mod_small (m mod 2 ^ 32) (2 ^ 64)); [apply Z.mod_mod; lia |].
    pose proof (Z.mod_pos_bound m (2 ^ 32)). lia. }
  assert (Hhigh : (Z.shiftr m 32 mod 2 ^ 64) mod 2 ^ 32 = m / 2 ^ 32).
  { rewrite Z.shiftr_div_pow2 by lia.
    assert (0 <= m / 2 ^ 32 < 2 ^ 32).
    { clear Hlow. split; [apply Z.div_pos; lia |].
      apply Z.div_lt_upper_bound; [lia |]. change (2 ^ 32 * 2 ^ 32) with (2 ^ 64). lia. }
    rewrite (Z.mod_small (m / 2 ^ 32) (2 ^ 64)) by lia.
    apply Z.mod_small. assumption. }
  eexists. split.
  - rewrite (exec_seq ac st _ _ _ (exec_setg ac st "mac" sum v Hsum)).
    unfold mac_low, mac_high. cbn [exec eval]. rewrite locals_set_global, Hmac.
    cbn -[Z.pow Z.modulo Z.land Z.shiftr]. rewrite Hmac. cbn -[Z.pow Z.modulo Z.land Z.shiftr]. reflexivity.
  - unfold bv. rewrite !globals_set_global.
    rewrite lookup_insert_ne by done. rewrite !lookup_insert_eq.
    change (32 mod 2 ^ 32) with 32. change (4294967295 mod 2 ^ 64) with 4294967295.
    rewrite Hlow, Hhigh. split; reflexivity.
Qed.

(** C4, at the failing input.  MAC.L @R1+, @R2+ with S clear, a zero
    accumulator and the operands 3 and 5: whether or not the evaluator
    converts the bitvector condition of the branch, the accumulator does
    not become 15.  With the conversion the sum goes to a global named
    [mac] and MACH:MACL is written back unchanged; without it the effect
    does not execute.  With S set the accumulator does receive the sum. *)
Theorem mac_l_unsaturated_keeps_accumulator :
  (∀ ac : bool,
     execo ac (mac_vm false) (sh_il_mac mac_l_r1_r2 0) ≫= accumulator ≠ Some 15)
  ∧ execo true (mac_vm false) (sh_il_mac mac_l_r1_r2 0) ≫= accumulator = Some 0
  ∧ (execo true (mac_vm false) (sh_il_mac mac_l_r1_r2 0)
       ≫= λ st, vm_globals st !! "mac"%string) = Some (VBv 64 15)
  ∧ execo false (mac_vm false) (sh_il_mac mac_l_r1_r2 0) = None
  ∧ execo true (mac_vm true) (sh_il_mac mac_l_r1_r2 0) ≫= accumulator = Some 15.
Proof.
  split; [intros [|]; vm_compute; discriminate |].
  repeat split; vm_compute; reflexivity.
Qed.

(** *** Privileged transfers *)

(** In user mode an LDC to a register other than GBR appends the fault
    event and returns NULL. *)
Lemma ldc_user_mode_faults ac op pc st w :
  rz_il_evaluate_bitv ac st (sh_il_get_status_reg_bit SH_SR_D) = Some (w, 0) →
  param0 (op_param1 op) ≠ SH_REG_IND_GBR →
  sh_il_ldc ac op pc st
  = Some (None, rz_il_vm_event_add st "SuperH: RESINST").
Proof.
  intros Hpriv Hdst. unfold sh_il_ldc. rewrite Hpriv. cbn [mbind option_bind snd].
  destruct (Z.eqb_spec (param0 (op_param1 op)) SH_REG_IND_GBR) as [|_];
    [contradiction | reflexivity].
Qed.

(** In privileged mode, or for GBR, no event is added. *)
Lemma ldc_no_fault ac op pc st b :
  rz_il_evaluate_bitv ac st (sh_il_get_status_reg_bit SH_SR_D) = Some b →
  b.2 ≠ 0 ∨ param0 (op_param1 op) = SH_REG_IND_GBR →
  ∃ eff : option Effect, sh_il_ldc ac op pc st = Some (eff, st).
Proof.
  intros Hpriv Hok. unfold sh_il_ldc. rewrite Hpriv. cbn [mbind option_bind].
  destruct (Z.eqb_spec b.2 0) as [Hz | Hnz];
    destruct (Z.eqb_spec (param0 (op_param1 op)) SH_REG_IND_GBR) as [Hg | Hng];
    cbn [negb]; try (eexists; reflexivity).
  destruct Hok; contradiction.
Qed.

(** The register setter rejects every register number that is not a
    general register. *)
Lemma set_reg_invalid (reg : Z) (val : option Pure) :
  sh_valid_gpr reg = false → sh_il_set_reg reg val = None.
Proof. intros H. unfold sh_il_set_reg. rewrite H. reflexivity. Qed.

Lemma get_reg_invalid (reg : Z) : sh_valid_gpr reg = false → sh_il_get_reg reg = None.
Proof. intros H. unfold sh_il_get_reg. rewrite H. reflexivity. Qed.

Lemma set_param_direct_invalid (param : SHParam) (val : option Pure)
    (scaling : SHScaling) (pc : Z) :
  mode param = SH_REG_DIRECT →
  sh_valid_gpr (param0 param) = false →
  sh_il_set_param_pc param val scaling pc = None.
Proof.
  intros Hm Hreg.
  unfold sh_il_set_param_pc, sh_il_get_param_pc, sh_il_get_effective_addr_pc.
  rewrite Hm, !set_reg_invalid by assumption.
  destruct scaling; reflexivity.
Qed.

(** C7, where it fails.  An LDC that does not fault and whose destination
    is a control register given as a direct register operand (GBR, SR and
    the others: not a general register) returns NULL: no event is added,
    and no effect is produced either. *)
Theorem ldc_control_register_is_null (ac : bool) (op : SHOp) (pc : Z) (st : VM)
    (b : RzBitVector) :
  rz_il_evaluate_bitv ac st (sh_il_get_status_reg_bit SH_SR_D) = Some b →
  b.2 ≠ 0 ∨ param0 (op_param1 op) = SH_REG_IND_GBR →
  mode (op_param1 op) = SH_REG_DIRECT →
  sh_valid_gpr (param0 (op_param1 op)) = false →
  scaling op = SH_SCALING_INVALID ∨ scaling op = SH_SCALING_L →
  sh_il_ldc ac op pc st = Some (None, st).
Proof.
  intros Hpriv Hok Hm Hreg Hsc. unfold sh_il_ldc.
  rewrite Hpriv. cbn [mbind option_bind].
  assert (Hstate :
    ((if b.2 =? 0 then 1 else 0)
     + (if negb (param0 (op_param1 op) =? SH_REG_IND_GBR) then 2 else 0) =? 3) = false).
  { destruct (Z.eqb_spec b.2 0);
      destruct (Z.eqb_spec (param0 (op_param1 op)) SH_REG_IND_GBR);
      cbn [negb]; try reflexivity.
    destruct Hok; contradiction. }
  rewrite Hstate, Hreg.
  unfold sh_il_set_pure_param. cbn [op_param].
  rewrite !set_param_direct_invalid by assumption.
  destruct Hsc as [-> | ->]; reflexivity.
Qed.

(** LDC R1, GBR in user mode. *)
Lemma ldc_control_register_is_null_witness :
  sh_il_ldc false ldc_r1_gbr 0 (vm_mode false) = Some (None, vm_mode false).
Proof.
  apply (ldc_control_register_is_null false ldc_r1_gbr 0 (vm_mode false) (32, 0)).
  - reflexivity.
  - right; reflexivity.
  - reflexivity.
  - reflexivity.
  - left; reflexivity.
Defined.

(** LDC R1, SR in user mode faults; LDC R1, R3_BANK in privileged mode
    gives the write to the bank 1 register. *)
Lemma ldc_examples :
  sh_il_ldc false ldc_r1_sr 0 (vm_mode false)
  = Some (None, rz_il_vm_event_add (vm_mode false) "SuperH: RESINST")
  ∧ sh_il_ldc false ldc_r1_r3_bank 0 (vm_mode true)
    = Some (Some (ESetG "r3b" (PIte bank_condition (PVarG "r1b") (PVarG "r1"))),
            vm_mode true).
Proof. split; vm_compute; reflexivity. Qed.

End SHProofs.
(** ** Properties of the register binding and of the sync *)

Module RegProofs.
Import IL Reg Spec BitFacts ILFacts.

(** *** Sorting and scanning *)


Lemma sort_insert_In cmp x l y : In y (sort_insert cmp x l) ↔ y = x ∨ In y l.
Proof.
  induction l as [| z l IH]; cbn.
  - intuition.
  - destruct (cmp x z <=? 0); cbn; [intuition |]. rewrite IH. intuition.
Qed.

Lemma rz_list_sort_In cmp l y : In y (rz_list_sort cmp l) ↔ In y l.
Proof.
  induction l as [| x l IH]; cbn; [reflexivity |].
  rewrite sort_insert_In, IH. intuition.
Qed.

Lemma sort_insert_sorted x l :
  StronglySorted by_offset l → StronglySorted by_offset (sort_insert reg_offset_cmp x l).
Proof.
  induction 1 as [| z l Hs IH Hz]; cbn.
  - constructor; constructor.
  - unfold reg_offset_cmp at 1. destruct (Z.leb_spec (offset x - offset z) 0) as [Hle | Hgt].
    + constructor; [constructor; assumption |].
      constructor; [unfold by_offset; lia |].
      eapply Forall_impl; [exact Hz |]. unfold by_offset. intros; lia.
    + constructor; [exact IH |].
      apply Forall_forall. intros y Hy. apply list_elem_of_In, sort_insert_In in Hy as [-> | Hy].
      * unfold by_offset; lia.
      * rewrite Forall_forall in Hz. apply Hz, list_elem_of_In, Hy.
Qed.

Lemma rz_list_sort_sorted l : StronglySorted by_offset (rz_list_sort reg_offset_cmp l).
Proof.
  induction l; cbn; [constructor | apply sort_insert_sorted; assumption].
Qed.

(** The scan binds registers that follow one another without overlap,
    and never the program counter. *)
Lemma bind_items_chain pc prev items :
  StronglySorted by_offset items →
  Forall (λ it, 0 <= size it) items →
  (∀ p, prev = Some p → Forall (by_offset p) items) →
  ForallOrdPairs (λ a b, offset a + size a <= offset b) (bind_items pc prev items)
  ∧ (∀ p, prev = Some p →
       Forall (λ b, offset p + size p <= offset b) (bind_items pc prev items)).
Proof.
  intros Hs. revert prev. induction Hs as [| item rest Hs IH Hitem]; intros prev Hsz Hprev.
  - cbn. split; [constructor | intros; constructor].
  - inversion Hsz as [| ? ? Hsz0 Hsz']; subst.
    assert (Hprev' : ∀ p, prev = Some p → Forall (by_offset p) rest).
    { intros p Hp. specialize (Hprev p Hp). inversion Hprev; assumption. }
    cbn [bind_items].
    destruct (match prev with
              | Some p => offset item <? offset p + size p
              | None => false
              end) eqn:Hov; [apply IH; assumption |].
    destruct (is_pc pc item); [apply IH; assumption |].
    destruct (IH (Some item) Hsz') as [IH1 IH2].
    { intros p [= <-]. exact Hitem. }
    specialize (IH2 item eq_refl).
    split.
    + constructor; assumption.
    + intros p ->. apply Z.ltb_ge in Hov. constructor; [exact Hov |].
      eapply Forall_impl; [exact IH2 |]. cbn. intros b Hb. lia.
Qed.

Lemma bind_items_In pc prev items it :
  In it (bind_items pc prev items) → In it items ∧ is_pc pc it = false.
Proof.
  revert prev. induction items as [| item rest IH]; intros prev; cbn; [tauto |].
  destruct (match prev with
            | Some p => offset item <? offset p + size p
            | None => false
            end); [intros H; apply IH in H; tauto |].
  destruct (is_pc pc item) eqn:Hpc; [intros H; apply IH in H; tauto |].
  intros [<- | H]; [tauto | apply IH in H; tauto].
Qed.

Lemma bind_flags_fold regs : bind_flags regs = fold_left flags_step regs [].
Proof. reflexivity. Qed.

Lemma flags_fold_In regs acc f :
  In f (fold_left flags_step regs acc) → In f acc ∨ (In f regs ∧ size f = 1).
Proof.
  revert acc. induction regs as [| item regs IH]; intros acc; cbn; [tauto |].
  intros H. apply IH in H as [H | H]; [| tauto].
  unfold flags_step in H.
  destruct (Z.eqb_spec (size item) 1) as [Hsz | Hsz]; cbn [negb] in H; [| tauto].
  destruct (existsb _ acc); [tauto |].
  apply in_app_or in H as [H | [<- | []]]; tauto.
Qed.

Lemma flags_fold_mono regs acc f :
  In f acc → In f (fold_left flags_step regs acc).
Proof.
  revert acc. induction regs as [| item regs IH]; intros acc H; cbn; [exact H |].
  apply IH. unfold flags_step.
  destruct (negb _); [exact H |]. destruct (existsb _ acc); [exact H |].
  apply in_or_app; tauto.
Qed.

Lemma flags_fold_cover regs acc it :
  In it regs → size it = 1 →
  ∃ f, In f (fold_left flags_step regs acc) ∧ offset f = offset it.
Proof.
  revert acc. induction regs as [| item regs IH]; intros acc; cbn; [tauto |].
  intros [-> | Hin] Hsz; [| apply IH; assumption].
  unfold flags_step at 2. rewrite Hsz. cbn [Z.eqb Pos.eqb negb].
  destruct (existsb _ acc) eqn:Hex.
  - apply existsb_exists in Hex as (f & Hf & Heq). apply Z.eqb_eq in Heq.
    exists f. split; [apply flags_fold_mono; exact Hf | exact Heq].
  - exists it. split; [| reflexivity].
    apply flags_fold_mono, in_or_app. right; left; reflexivity.
Qed.

Lemma bind_flags_size regs f : In f (bind_flags regs) → size f = 1.
Proof.
  rewrite bind_flags_fold. intros H. apply flags_fold_In in H as [[] | [_ H]]. exact H.
Qed.

Lemma filter_nonflags_size regs it :
  In it (filter_nonflags (bind_flags regs) regs) → size it ≠ 1 ∧ In it regs.
Proof.
  unfold filter_nonflags. rewrite filter_In. intros [Hin Hno]. split; [| exact Hin].
  intros Hsz. apply negb_true_iff in Hno.
  destruct (flags_fold_cover regs [] it Hin Hsz) as (f & Hf & Heq).
  rewrite <- bind_flags_fold in Hf.
  assert (Hex : existsb (λ flag, (offset it <=? offset flag)
                                 && (offset flag <? offset it + size it))
                        (bind_flags regs) = true).
  { apply existsb_exists. exists f. split; [exact Hf |].
    apply andb_true_iff. split; [apply Z.leb_le | apply Z.ltb_lt]; lia. }
  congruence.
Qed.

Lemma bound_items_In pc regs it :
  In it (bind_items pc None
           (rz_list_sort reg_offset_cmp
              (rz_reg_filter_items_covered (filter_nonflags (bind_flags regs) regs)))) →
  In it regs ∧ size it ≠ 1 ∧ is_pc pc it = false.
Proof.
  intros H. apply bind_items_In in H as [H Hpc].
  apply rz_list_sort_In in H. unfold rz_reg_filter_items_covered in H.
  apply filter_In in H as [H _]. apply filter_nonflags_size in H. tauto.
Qed.

Lemma FOP_app {A} (R : A → A → Prop) (l1 l2 : list A) :
  ForallOrdPairs R l1 → ForallOrdPairs R l2 →
  (∀ a b, In a l1 → In b l2 → R a b) →
  ForallOrdPairs R (l1 ++ l2).
Proof.
  intros H1 H2 Hx. induction H1 as [| a l Ha H1 IH]; cbn; [exact H2 |].
  constructor.
  - apply Forall_app. split; [exact Ha |].
    apply Forall_forall. intros b Hb. apply Hx; [left; reflexivity |].
    apply list_elem_of_In, Hb.
  - apply IH. intros a' b Ha' Hb. apply Hx; [right; exact Ha' | exact Hb].
Qed.

Lemma FOP_lookup {A} (R : A → A → Prop) (l : list A) :
  ForallOrdPairs R l →
  ∀ (i j : nat) (a b : A), (i < j)%nat → l !! i = Some a → l !! j = Some b → R a b.
Proof.
  induction 1 as [| x l Hx Hl IH]; intros i j a b Hij Hi Hj; [discriminate |].
  destruct j as [| j]; [lia |]. cbn in Hj.
  destruct i as [| i]; cbn in Hi.
  - injection Hi as <-. rewrite Forall_forall in Hx.
    apply Hx. eapply list_elem_of_lookup_2, Hj.
  - apply (IH i j); [lia | assumption | assumption].
Qed.

Lemma derive_regset_In pc regs it :
  In it (derive_regset pc regs) →
  In it regs ∧ (size it ≠ 1 → is_pc pc it = false).
Proof.
  unfold derive_regset. intros H. apply in_app_or in H as [H | H].
  - pose proof (bind_flags_size regs it H) as Hsz.
    rewrite bind_flags_fold in H. apply flags_fold_In in H as [[] | [H _]].
    split; [exact H | intros; contradiction].
  - apply bound_items_In in H. tauto.
Qed.

(** The scan keeps the registers it binds apart whatever their sizes:
    each register is bound only when it starts at or after the end of the
    register bound last, and the later ones start no earlier. *)
Lemma bind_items_apart pc prev items :
  StronglySorted by_offset items →
  ForallOrdPairs (λ a b, offset a + size a <= offset b) (bind_items pc prev items)
  ∧ (∀ p, prev = Some p →
       Forall (λ b, offset p + size p <= offset b) (bind_items pc prev items)).
Proof.
  intros Hs. revert prev. induction Hs as [| item rest Hs IH Hitem]; intros prev.
  - cbn. split; [constructor | intros; constructor].
  - cbn [bind_items].
    destruct (match prev with
              | Some p => offset item <? offset p + size p
              | None => false
              end) eqn:Hov; [apply IH |].
    destruct (is_pc pc item); [apply IH |].
    destruct (IH (Some item)) as [IH1 IH2]. specialize (IH2 item eq_refl).
    split; [constructor; assumption |].
    intros p ->. apply Z.ltb_ge in Hov. constructor; [exact Hov |].
    apply Forall_forall. intros b Hb.
    apply list_elem_of_In, bind_items_In in Hb as [Hb _].
    rewrite Forall_forall in Hitem. apply list_elem_of_In, Hitem in Hb.
    unfold by_offset in Hb. lia.
Qed.

Lemma derive_regset_disjoint pc regs :
  ForallOrdPairs
    (λ a b, size a ≠ 1 → size b ≠ 1 → offset a + size a <= offset b)
    (derive_regset pc regs).
Proof.
  unfold derive_regset.
  set (items := rz_list_sort reg_offset_cmp _).
  destruct (bind_items_apart pc None items (rz_list_sort_sorted _)) as [Hchain _].
  apply FOP_app.
  - apply ForallPairs_ForallOrdPairs. intros a b Ha _ Hsz.
    apply bind_flags_size in Ha. contradiction.
  - clear -Hchain. induction Hchain as [| a l Ha Hl IH]; constructor; [| exact IH].
    eapply Forall_impl; [exact Ha |]. cbn. intros; assumption.
  - intros a b Ha _ Hsz. apply bind_flags_size in Ha. contradiction.
Qed.

Lemma derive_from_class pc cls sets a :
  In a (derive_from pc cls sets) → (cls <= a.1)%nat.
Proof.
  revert cls. induction sets as [| regs rest IH]; intros cls; cbn; [tauto |].
  intros H. apply in_app_or in H as [H | H].
  - apply list_elem_of_In, list_elem_of_fmap in H as (it & -> & _). cbn. lia.
  - apply IH in H. lia.
Qed.

Lemma derive_from_disjoint pc cls sets :
  ForallOrdPairs nonflag_disjoint (derive_from pc cls sets).
Proof.
  revert cls.
  induction sets as [| regs rest IH]; intros cls; cbn; [constructor |].
  apply FOP_app; [| apply IH |].
  - pose proof (derive_regset_disjoint pc regs) as H.
    induction H as [| a l Ha Hl IHl]; cbn; constructor; [| exact IHl].
    apply Forall_fmap. eapply Forall_impl; [exact Ha |].
    cbn. intros b Hab Hsa Hsb (_ & _ & Hlt). cbn in *. specialize (Hab Hsa Hsb). lia.
  - intros a b Ha Hb _ _ (Hcls & _).
    apply list_elem_of_In, list_elem_of_fmap in Ha as (it & -> & _).
    apply derive_from_class in Hb. cbn in Hcls. lia.
Qed.

Lemma derive_from_pc pc cls sets a :
  In a (derive_from pc cls sets) → size a.2 ≠ 1 → is_pc pc a.2 = false.
Proof.
  revert cls. induction sets as [| regs rest IH]; intros cls; cbn; [tauto |].
  intros H. apply in_app_or in H as [H | H]; [| apply (IH _ H)].
  apply list_elem_of_In, list_elem_of_fmap in H as (it & -> & Hit). cbn.
  apply list_elem_of_In, derive_regset_In in Hit. tauto.
Qed.

(** C5, amended.  In the binding derived from a register profile no two
    entries that are not flags overlap (two registers overlap when their
    bit ranges intersect in the arena of one class), and the register
    named as the program counter is not among the entries that are not
    flags: an entry that carries the program counter's name is one bit
    wide. *)
Theorem derived_binding_disjoint (reg : RzReg) :
  (∀ (i j : nat) (a b : Located),
     (i < j)%nat →
     derive_items reg !! i = Some a →
     derive_items reg !! j = Some b →
     size a.2 ≠ 1 → size b.2 ≠ 1 →
     ¬ ranges_overlap a b)
  ∧ rz_il_reg_binding_derive reg
    = (λ ri : Located, mkBinding (name ri.2) (size ri.2)) <$> derive_items reg
  ∧ (∀ e : RzILRegBindingItem,
       e ∈ rz_il_reg_binding_derive reg →
       rb_size e ≠ 1 →
       name_pc reg ≠ Some (rb_name e)).
Proof.
  split; [| split; [reflexivity |]].
  - intros i j a b Hij Ha Hb.
    exact (FOP_lookup _ _ (derive_from_disjoint _ _ _) i j a b Hij Ha Hb).
  - intros e He Hsz Hpc. unfold rz_il_reg_binding_derive in He.
    apply list_elem_of_fmap in He as (a & -> & Ha). cbn in Hsz, Hpc.
    apply list_elem_of_In, derive_from_pc in Ha; [| exact Hsz].
    rewrite Hpc in Ha. cbn in Ha. rewrite String.eqb_refl in Ha. discriminate.
Qed.

Lemma profile_sample_wf : wf_profile profile_sample.
Proof. repeat constructor; cbn; lia. Defined.

(** C5 as stated fails: a one-bit register that is the program counter is
    bound, as a flag. *)
Lemma derived_binding_has_one_bit_pc :
  wf_profile profile_pc_flag
  ∧ ¬ ∀ e : RzILRegBindingItem,
        e ∈ rz_il_reg_binding_derive profile_pc_flag →
        name_pc profile_pc_flag ≠ Some (rb_name e).
Proof.
  split; [repeat constructor; cbn; lia |].
  intros H. apply (H (mkBinding "pc" 1)); [| reflexivity].
  vm_compute. left.
Qed.

(** *** Push *)

Lemma forallb_eq {A} (f g : A → bool) (l : list A) :
  (∀ x, f x = g x) → forallb f l = forallb g l.
Proof. intros H. induction l as [| x l IH]; cbn; [reflexivity | rewrite H, IH; reflexivity]. Qed.

Lemma find_item_wf n cls sets ri :
  Forall (Forall wf_item) sets → find_item n cls sets = Some ri → wf_item ri.2.
Proof.
  intros Hwf. revert cls. induction Hwf as [| regs rest Hregs _ IH]; intros cls; cbn;
    [discriminate |].
  destruct (List.find _ regs) as [it |] eqn:Hfind.
  - intros [= <-]. cbn. apply find_some in Hfind as [Hin _].
    rewrite Forall_forall in Hregs. apply Hregs, list_elem_of_In, Hin.
  - apply IH.
Qed.

Lemma rz_reg_get_wf reg n ri :
  wf_profile reg → rz_reg_get reg n = Some ri → wf_item ri.2.
Proof. intros Hwf. apply find_item_wf, Hwf. Qed.

Lemma rz_reg_get_regset reg reg' n :
  regset reg' = regset reg → rz_reg_get reg' n = rz_reg_get reg n.
Proof. unfold rz_reg_get. intros ->. reflexivity. Qed.

Lemma regset_set_bv reg ri b : regset (rz_reg_set_bv reg ri b).1 = regset reg.
Proof. reflexivity. Qed.

Lemma entry_clean_regset vm reg reg' item :
  regset reg' = regset reg → entry_clean vm reg' item = entry_clean vm reg item.
Proof. intros H. unfold entry_clean. rewrite (rz_reg_get_regset _ _ _ H). reflexivity. Qed.

Lemma sync_to_reg_item_regset vm acc item :
  regset (sync_to_reg_item vm acc item).1 = regset acc.1.
Proof.
  destruct acc as [reg p]. unfold sync_to_reg_item.
  destruct (rz_reg_get reg (rb_name item)) as [ri |]; [| reflexivity].
  destruct (rz_il_hash_find_val_by_name vm (rb_name item)) as [[b | w x] |];
    try reflexivity.
  destruct (negb (rz_bv_len (w, x) =? size ri.2)); reflexivity.
Qed.

Lemma sync_to_reg_item_flag vm acc item :
  (sync_to_reg_item vm acc item).2 = acc.2 && entry_clean vm acc.1 item.
Proof.
  destruct acc as [reg p]. unfold sync_to_reg_item, entry_clean,
    rz_il_hash_find_val_by_name. cbn [fst snd].
  destruct (rz_reg_get reg (rb_name item)) as [ri |];
    [| rewrite andb_false_r; reflexivity].
  destruct (vm_globals vm !! rb_name item) as [[b | w x] |];
    try (rewrite andb_false_r; reflexivity).
  unfold rz_bv_len. cbn [fst].
  destruct (w =? size ri.2); cbn; [rewrite andb_true_r| rewrite andb_false_r]; reflexivity.
Qed.

Lemma sync_to_reg_fold_regset vm rb acc :
  regset (fold_left (sync_to_reg_item vm) rb acc).1 = regset acc.1.
Proof.
  revert acc. induction rb as [| item rb IH]; intros acc; cbn; [reflexivity |].
  rewrite IH. apply sync_to_reg_item_regset.
Qed.

Lemma sync_to_reg_fold_flag vm rb acc :
  (fold_left (sync_to_reg_item vm) rb acc).2
  = acc.2 && forallb (entry_clean vm acc.1) rb.
Proof.
  revert acc. induction rb as [| item rb IH]; intros acc; cbn;
    [rewrite andb_true_r; reflexivity |].
  rewrite IH, sync_to_reg_item_flag, <- andb_assoc. f_equal. f_equal.
  apply forallb_eq. intros it. apply entry_clean_regset, sync_to_reg_item_regset.
Qed.

Lemma entry_clean_false vm reg item :
  entry_clean vm reg item = false ↔ entry_unclean vm reg item.
Proof.
  unfold entry_clean, entry_unclean.
  destruct (rz_reg_get reg (rb_name item)) as [ri |]; [| split; [left; reflexivity | reflexivity]].
  destruct (vm_globals vm !! rb_name item) as [[b | w x] |].
  - split; [intros _; right; left; congruence | reflexivity].
  - split.
    + intros H. apply Z.eqb_neq in H. right; right. exists ri, w, x. auto.
    + intros [H | [H | (ri' & w' & x' & [= <-] & [= <- <-] & H)]];
        [discriminate | exfalso; apply (H w x); reflexivity | apply Z.eqb_neq, H].
  - split; [intros _; right; left; congruence | reflexivity].
Qed.

Lemma sync_to_reg_unfold vm reg :
  rz_il_vm_sync_to_reg vm reg =
  match vm_reg_binding vm with
  | None => ((pushed_pc vm reg).1, false)
  | Some rb => fold_left (sync_to_reg_item vm) rb (pushed_pc vm reg)
  end.
Proof.
  unfold rz_il_vm_sync_to_reg, pushed_pc.
  destruct (name_pc reg) as [pc |]; [destruct (rz_reg_get reg pc) |];
    destruct (vm_reg_binding vm); reflexivity.
Qed.

Lemma pushed_pc_regset vm reg : regset (pushed_pc vm reg).1 = regset reg.
Proof.
  unfold pushed_pc. destruct (name_pc reg) as [pc |]; [| reflexivity].
  destruct (rz_reg_get reg pc); reflexivity.
Qed.

Lemma pushed_pc_flag vm reg : (pushed_pc vm reg).2 = pc_clean vm reg.
Proof.
  unfold pushed_pc, pc_clean. destruct (name_pc reg) as [pc |]; [| reflexivity].
  destruct (rz_reg_get reg pc); reflexivity.
Qed.

Lemma sync_to_reg_fidelity vm reg :
  (rz_il_vm_sync_to_reg vm reg).2 =
  match vm_reg_binding vm with
  | None => false
  | Some rb => pc_clean vm reg && forallb (entry_clean vm reg) rb
  end.
Proof.
  rewrite sync_to_reg_unfold. destruct (vm_reg_binding vm) as [rb |]; [| reflexivity].
  rewrite sync_to_reg_fold_flag, pushed_pc_flag. f_equal.
  apply forallb_eq. intros it. apply entry_clean_regset, pushed_pc_regset.
Qed.

(** What a push step does to a register. *)
Lemma read_after_set reg ri b :
  wf_item ri.2 →
  rz_reg_get_bv (rz_reg_set_bv reg ri b).1 ri = (size ri.2, b.2 mod 2 ^ size ri.2).
Proof.
  intros [Ho Hs]. unfold rz_reg_get_bv, rz_reg_set_bv, arena_bits. cbn [fst arena].
  rewrite lookup_insert_eq. cbn [default from_option id].
  rewrite bits_read_write_same by assumption.
  reflexivity.
Qed.

Lemma read_after_set_other reg ri ri' b :
  wf_item ri.2 → wf_item ri'.2 → regs_disjoint ri ri' →
  rz_reg_get_bv (rz_reg_set_bv reg ri' b).1 ri = rz_reg_get_bv reg ri.
Proof.
  intros [Ho Hs] [Ho' Hs'] Hdis. unfold rz_reg_get_bv, rz_reg_set_bv, arena_bits.
  cbn [fst arena]. f_equal.
  destruct (decide (ri'.1 = ri.1)) as [Heq | Hne].
  - rewrite Heq, lookup_insert_eq. cbn [default from_option id].
    apply bits_read_write_other; try assumption.
    destruct Hdis as [Hcls | Hdis]; [congruence | exact Hdis].
  - rewrite lookup_insert_ne by assumption. reflexivity.
Qed.

Lemma sync_to_reg_item_writes vm reg p item ri w x :
  wf_item ri.2 →
  rz_reg_get reg (rb_name item) = Some ri →
  vm_globals vm !! rb_name item = Some (VBv w x) →
  0 <= x < 2 ^ w →
  rz_reg_get_bv (sync_to_reg_item vm (reg, p) item).1 ri
  = (size ri.2, if w <=? size ri.2 then x else x mod 2 ^ size ri.2).
Proof.
  intros Hwf Hri Hvar Hx. pose proof Hwf as [Ho Hs].
  assert (Hw : 0 <= w).
  { destruct (Z.le_gt_cases 0 w) as [|Hneg]; [assumption |].
    rewrite Z.pow_neg_r in Hx by lia. lia. }
  unfold sync_to_reg_item, rz_il_hash_find_val_by_name. rewrite Hri, Hvar.
  unfold rz_bv_len. cbn [fst].
  destruct (Z.eqb_spec w (size ri.2)) as [-> | Hne]; cbn [negb].
  - rewrite Z.leb_refl.
    change (rz_reg_get_bv (rz_reg_set_bv reg ri (size ri.2, x)).1 ri = (size ri.2, x)).
    rewrite read_after_set by assumption. cbn [snd].
    rewrite Z.mod_small by assumption. reflexivity.
  - change (rz_reg_get_bv
              (rz_reg_set_bv reg ri
                 (rz_bv_copy_nbits (w, x) 0 (rz_bv_new_zero (size ri.2)) 0
                    (Z.min w (size ri.2)))).1 ri
            = (size ri.2, if w <=? size ri.2 then x else x mod 2 ^ size ri.2)).
    rewrite read_after_set by assumption. f_equal.
    unfold rz_bv_copy_nbits, rz_bv_new_zero. cbn [fst snd].
    rewrite copy_low_bits by lia.
    destruct (Z.leb_spec w (size ri.2)) as [Hle | Hgt].
    + rewrite Z.min_l by lia. rewrite (Z.mod_small x (2 ^ w)) by assumption.
      apply Z.mod_small. split; [lia |].
      apply Z.lt_le_trans with (2 ^ w); [lia | apply Z.pow_le_mono_r; lia].
    + rewrite Z.min_r by lia. apply Z.mod_mod. pose proof (pow2_pos (size ri.2) Hs). lia.
Qed.

Lemma sync_to_reg_item_other vm reg p item' ri :
  wf_profile reg → wf_item ri.2 →
  (∀ ri', rz_reg_get reg (rb_name item') = Some ri' → regs_disjoint ri ri') →
  rz_reg_get_bv (sync_to_reg_item vm (reg, p) item').1 ri = rz_reg_get_bv reg ri.
Proof.
  intros Hwf Hri Hdis. unfold sync_to_reg_item.
  destruct (rz_reg_get reg (rb_name item')) as [ri' |] eqn:Hget; [| reflexivity].
  pose proof (rz_reg_get_wf _ _ _ Hwf Hget) as Hwf'.
  specialize (Hdis ri' eq_refl).
  destruct (rz_il_hash_find_val_by_name vm (rb_name item')) as [[b | w x] |].
  - apply read_after_set_other; assumption.
  - destruct (negb (rz_bv_len (w, x) =? size ri'.2));
      apply (read_after_set_other reg ri ri'); assumption.
  - apply read_after_set_other; assumption.
Qed.

Lemma sync_to_reg_fold_other vm reg post acc ri :
  wf_profile reg → wf_item ri.2 →
  regset acc.1 = regset reg →
  (∀ item' ri', item' ∈ post →
     rz_reg_get reg (rb_name item') = Some ri' → regs_disjoint ri ri') →
  rz_reg_get_bv (fold_left (sync_to_reg_item vm) post acc).1 ri
  = rz_reg_get_bv acc.1 ri.
Proof.
  intros Hwf Hri. revert acc. induction post as [| item' post IH]; intros acc Hreg Hdis;
    cbn; [reflexivity |].
  rewrite IH.
  - destruct acc as [reg1 p1]. cbn [fst] in *.
    apply sync_to_reg_item_other; [unfold wf_profile; rewrite Hreg; exact Hwf | exact Hri |].
    intros ri' Hget. rewrite (rz_reg_get_regset _ _ _ Hreg) in Hget.
    apply (Hdis item' ri'); [left | exact Hget].
  - rewrite sync_to_reg_item_regset. exact Hreg.
  - intros it ri' Hin. apply Hdis. right. exact Hin.
Qed.

(** C6, amended.  A push returns false exactly when the VM has no binding,
    or the program counter has no register of its own width (no name, no
    register, another width), or some entry has no register, no
    bitvector variable, or a variable of another width than its
    register.  An entry with a register and a bitvector variable has its
    register written with the value zero-extended when the value is
    narrower and cut to the low-order bits when it is wider; the register
    reads so after the push when no later entry's register overlaps it.
    Writes to the register file are taken to succeed. *)
Theorem push_coerces_and_reports (vm : VM) (reg : RzReg) :
  wf_profile reg →
  ((rz_il_vm_sync_to_reg vm reg).2 = false
   ↔ vm_reg_binding vm = None
     ∨ pc_clean vm reg = false
     ∨ ∃ rb item, vm_reg_binding vm = Some rb ∧ item ∈ rb ∧ entry_unclean vm reg item)
  ∧ ∀ (pre post : list RzILRegBindingItem) (item : RzILRegBindingItem)
      (ri : Located) (w x : Z),
      vm_reg_binding vm = Some (pre ++ item :: post) →
      rz_reg_get reg (rb_name item) = Some ri →
      vm_globals vm !! rb_name item = Some (VBv w x) →
      0 <= x < 2 ^ w →
      (∀ item' ri', item' ∈ post →
         rz_reg_get reg (rb_name item') = Some ri' → regs_disjoint ri ri') →
      rz_reg_get_bv (rz_il_vm_sync_to_reg vm reg).1 ri
      = (size ri.2, if w <=? size ri.2 then x else x mod 2 ^ size ri.2).
Proof.
  intros Hwf. split.
  - rewrite sync_to_reg_fidelity.
    destruct (vm_reg_binding vm) as [rb |]; [| split; [left; reflexivity | reflexivity]].
    rewrite andb_false_iff. split.
    + intros [Hpc | Hrb]; [right; left; exact Hpc |].
      right; right. exists rb.
      induction rb as [| it rb IH]; [discriminate |]. cbn in Hrb.
      apply andb_false_iff in Hrb as [Hit | Hrb].
      * exists it. split; [reflexivity |]. split; [left | apply entry_clean_false, Hit].
      * destruct (IH Hrb) as (item & _ & Hin & Hun).
        exists item. split; [reflexivity |]. split; [right; exact Hin | exact Hun].
    + intros [H | [Hpc | (rb' & item & [= <-] & Hin & Hun)]];
        [discriminate | left; exact Hpc | right].
      apply entry_clean_false in Hun.
      apply not_true_iff_false. intros Hall. rewrite forallb_forall in Hall.
      apply list_elem_of_In, Hall in Hin. congruence.
  - intros pre post item ri w x Hrb Hget Hvar Hx Hdis.
    pose proof (rz_reg_get_wf _ _ _ Hwf Hget) as Hri.
    rewrite sync_to_reg_unfold, Hrb, fold_left_app. cbn [fold_left].
    assert (Hreg1 : regset (fold_left (sync_to_reg_item vm) pre (pushed_pc vm reg)).1
                    = regset reg)
      by (rewrite sync_to_reg_fold_regset; apply pushed_pc_regset).
    rewrite (sync_to_reg_fold_other vm reg post _ ri Hwf Hri);
      [| rewrite sync_to_reg_item_regset; exact Hreg1 | exact Hdis].
    destruct (fold_left (sync_to_reg_item vm) pre (pushed_pc vm reg)) as [reg1 p1].
    cbn [fst] in Hreg1.
    apply sync_to_reg_item_writes; try assumption.
    rewrite (rz_reg_get_regset _ _ _ Hreg1). exact Hget.
Qed.

Lemma profile_two_wf : wf_profile profile_two.
Proof. repeat constructor; cbn; lia. Defined.

(** The 64-bit variable [r1] is cut to the low 32 bits of its value. *)
Lemma push_coerces_and_reports_witness :
  wf_profile profile_two
  ∧ rz_reg_get_bv (rz_il_vm_sync_to_reg vm_two profile_two).1
      (0%nat, mkItem "r1" 32 32)
    = (32, 0x1122334455667788 mod 2 ^ 32).
Proof.
  split; [exact profile_two_wf |].
  apply (proj2 (push_coerces_and_reports vm_two profile_two profile_two_wf)
           [mkBinding "r0" 32] [mkBinding "gone" 8] (mkBinding "r1" 32)
           (0%nat, mkItem "r1" 32 32) 64 0x1122334455667788).
  - reflexivity.
  - reflexivity.
  - reflexivity.
  - lia.
  - intros item' ri' Hin Hget. apply list_elem_of_singleton in Hin. subst item'.
    discriminate Hget.
Defined.

(** C6 as stated fails: with nothing bound and no program counter role in
    the register file the push returns false, and no entry is there to
    need coercion or lack a counterpart. *)
Lemma push_reports_false_without_entries :
  vm_reg_binding vm_bound_nothing = Some []
  ∧ ¬ fidelity_by_entries vm_bound_nothing profile_no_pc [].
Proof.
  split; [reflexivity |]. intros [Hfalse _].
  destruct (Hfalse eq_refl) as (item & Hin & _).
  apply elem_of_nil in Hin. exact Hin.
Qed.


(** *** Pull *)

Lemma sync_from_reg_item_globals reg vm item n :
  n ≠ rb_name item →
  vm_globals (sync_from_reg_item reg vm item) !! n = vm_globals vm !! n.
Proof.
  intros Hne. unfold sync_from_reg_item, rz_il_find_var_by_name, rz_il_hash_bind.
  destruct (vm_globals vm !! rb_name item); [| reflexivity].
  rewrite globals_set_global, lookup_insert_ne by congruence. reflexivity.
Qed.

Lemma sync_from_reg_item_some reg vm item n :
  is_Some (vm_globals vm !! n) →
  is_Some (vm_globals (sync_from_reg_item reg vm item) !! n).
Proof.
  intros Hn. unfold sync_from_reg_item, rz_il_find_var_by_name, rz_il_hash_bind.
  destruct (vm_globals vm !! rb_name item); [| exact Hn].
  rewrite globals_set_global. destruct (decide (rb_name item = n)) as [-> | Hne].
  - rewrite lookup_insert_eq. eexists; reflexivity.
  - rewrite lookup_insert_ne by assumption. exact Hn.
Qed.

Lemma sync_from_reg_item_events reg vm item :
  vm_events (sync_from_reg_item reg vm item) = vm_events vm.
Proof.
  unfold sync_from_reg_item, rz_il_find_var_by_name, rz_il_hash_bind.
  destruct (vm_globals vm !! rb_name item); reflexivity.
Qed.

Lemma sync_from_reg_fold_globals reg rb vm n :
  (∀ it, it ∈ rb → rb_name it ≠ n) →
  vm_globals (fold_left (sync_from_reg_item reg) rb vm) !! n = vm_globals vm !! n.
Proof.
  revert vm. induction rb as [| it rb IH]; intros vm Hne; cbn; [reflexivity |].
  rewrite IH by (intros it' Hin; apply Hne; right; exact Hin).
  apply sync_from_reg_item_globals. intros ->. apply (Hne it); [left | reflexivity].
Qed.

Lemma sync_from_reg_fold_some reg rb vm n :
  is_Some (vm_globals vm !! n) →
  is_Some (vm_globals (fold_left (sync_from_reg_item reg) rb vm) !! n).
Proof.
  revert vm. induction rb as [| it rb IH]; intros vm Hn; cbn; [exact Hn |].
  apply IH, sync_from_reg_item_some, Hn.
Qed.

Lemma sync_from_reg_fold_events reg rb vm :
  vm_events (fold_left (sync_from_reg_item reg) rb vm) = vm_events vm.
Proof.
  revert vm. induction rb as [| it rb IH]; intros vm; cbn; [reflexivity |].
  rewrite IH. apply sync_from_reg_item_events.
Qed.

Lemma pulled_pc_fields vm reg :
  vm_globals (pulled_pc vm reg) = vm_globals vm
  ∧ vm_reg_binding (pulled_pc vm reg) = vm_reg_binding vm
  ∧ vm_events (pulled_pc vm reg) = vm_events vm.
Proof.
  unfold pulled_pc. destruct (name_pc reg) as [pc |]; [| auto].
  destruct (rz_reg_get reg pc); auto.
Qed.

Lemma sync_from_reg_unfold vm reg :
  rz_il_vm_sync_from_reg vm reg =
  match vm_reg_binding vm with
  | None => pulled_pc vm reg
  | Some rb => fold_left (sync_from_reg_item reg) rb (pulled_pc vm reg)
  end.
Proof.
  unfold rz_il_vm_sync_from_reg. fold (pulled_pc vm reg).
  destruct (pulled_pc_fields vm reg) as (_ & -> & _). reflexivity.
Qed.

(** C10. In a pull, a bound entry whose register is absent from the
    register file, and whose variable exists, leaves the variable bound
    to the all-zero bitvector of the size recorded in the binding (no
    later entry having the same name); the pull returns a VM, with no
    event added. *)
Theorem pull_absent_register_binds_zero (vm : VM) (reg : RzReg)
    (pre post : list RzILRegBindingItem) (item : RzILRegBindingItem) :
  vm_reg_binding vm = Some (pre ++ item :: post) →
  rz_reg_get reg (rb_name item) = None →
  is_Some (vm_globals vm !! rb_name item) →
  (∀ it, it ∈ post → rb_name it ≠ rb_name item) →
  vm_globals (rz_il_vm_sync_from_reg vm reg) !! rb_name item
  = Some (VBv (rb_size item) 0)
  ∧ vm_events (rz_il_vm_sync_from_reg vm reg) = vm_events vm.
Proof.
  intros Hrb Hget Hvar Hpost.
  rewrite sync_from_reg_unfold, Hrb.
  destruct (pulled_pc_fields vm reg) as (Hg & _ & He).
  split; [| rewrite sync_from_reg_fold_events; exact He].
  rewrite fold_left_app. cbn [fold_left].
  rewrite sync_from_reg_fold_globals by exact Hpost.
  assert (Hsome : is_Some (vm_globals (fold_left (sync_from_reg_item reg) pre
                                         (pulled_pc vm reg)) !! rb_name item))
    by (apply sync_from_reg_fold_some; rewrite Hg; exact Hvar).
  destruct Hsome as [v0 Hv0].
  unfold sync_from_reg_item at 1, rz_il_find_var_by_name, rz_il_hash_bind.
  rewrite Hv0, Hget. unfold rz_bv_new_zero, rz_bv_len. cbn [fst].
  rewrite Z.eqb_refl. cbn [negb]. rewrite globals_set_global, lookup_insert_eq.
  reflexivity.
Qed.

(** The variable [gone] has no register in [profile_two]. *)
Lemma pull_absent_register_binds_zero_witness :
  vm_globals (rz_il_vm_sync_from_reg vm_two profile_two) !! "gone"%string
  = Some (VBv 8 0)
  ∧ vm_events (rz_il_vm_sync_from_reg vm_two profile_two) = vm_events vm_two.
Proof.
  apply (pull_absent_register_binds_zero vm_two profile_two
           [mkBinding "r0" 32; mkBinding "r1" 32] [] (mkBinding "gone" 8)).
  - reflexivity.
  - reflexivity.
  - eexists; reflexivity.
  - intros it Hin. apply elem_of_nil in Hin. contradiction.
Defined.


End RegProofs.

(** ** Facts about the general registers of the lifter *)

Module SHFacts.
Import IL SH Spec BitFacts ILFacts SHProofs.

(** Case analysis on the number of a general register. *)
Lemma gpr_cases (reg : Z) :
  0 <= reg < 16 →
  reg = 0 ∨ reg = 1 ∨ reg = 2 ∨ reg = 3 ∨ reg = 4 ∨ reg = 5 ∨ reg = 6 ∨ reg = 7
  ∨ reg = 8 ∨ reg = 9 ∨ reg = 10 ∨ reg = 11 ∨ reg = 12 ∨ reg = 13 ∨ reg = 14
  ∨ reg = 15.
Proof. lia. Qed.

Ltac each_gpr H :=
  apply gpr_cases in H;
  repeat (destruct H as [H | H]; [subst |]); [.. | subst].

Lemma cur_reg_valid st reg n : cur_reg st reg = Some n → 0 <= reg < 16.
Proof.
  unfold cur_reg. intros H.
  destruct (Z.leb_spec 0 reg), (Z.ltb_spec reg 8); cbn [andb] in H; try lia.
  - destruct (Z.leb_spec 8 reg), (Z.ltb_spec reg 16); cbn [andb] in H;
      try discriminate; lia.
  - destruct (Z.leb_spec 8 reg), (Z.ltb_spec reg 16); cbn [andb] in H;
      try discriminate; lia.
Qed.

Lemma cur_reg_name st reg n : cur_reg st reg = Some n → In n gpr_names.
Proof.
  intros H. pose proof (cur_reg_valid _ _ _ H) as Hv.
  unfold cur_reg in H.
  destruct (vm_globals st !! SH_SR_D) as [[d |] |], (vm_globals st !! SH_SR_R) as [[r |] |];
    each_gpr Hv; cbn in H; try discriminate;
    try (destruct (d && r); cbn in H); injection H as <-; cbn; tauto.
Qed.

(** Two register numbers that share a variable are one register. *)
Lemma cur_reg_inj st a b n : cur_reg st a = Some n → cur_reg st b = Some n → a = b.
Proof.
  intros Ha Hb.
  pose proof (cur_reg_valid _ _ _ Ha) as Hva. pose proof (cur_reg_valid _ _ _ Hb) as Hvb.
  unfold cur_reg in Ha, Hb.
  destruct (vm_globals st !! SH_SR_D) as [[d |] |], (vm_globals st !! SH_SR_R) as [[r |] |];
    try destruct (d && r);
    each_gpr Hva; cbn in Ha; try discriminate; injection Ha as <-;
    each_gpr Hvb; cbn in Hb; try discriminate; reflexivity.
Qed.

(** Writing a variable other than SR.MD and SR.RB keeps the bank. *)
Lemma cur_reg_set_global st k v reg :
  k ≠ SH_SR_D → k ≠ SH_SR_R → cur_reg (set_global st k v) reg = cur_reg st reg.
Proof.
  intros Hd Hr. unfold cur_reg. rewrite globals_set_global, !lookup_insert_ne by congruence.
  reflexivity.
Qed.

Lemma cur_reg_set_local st k v reg : cur_reg (set_local st k v) reg = cur_reg st reg.
Proof. reflexivity. Qed.

Lemma cur_reg_set_mem st m reg : cur_reg (set_mem st m) reg = cur_reg st reg.
Proof. reflexivity. Qed.

Lemma gpr_name_not_flag n :
  In n gpr_names →
  n ≠ SH_SR_D ∧ n ≠ SH_SR_R ∧ n ≠ SH_SR_T ∧ n ≠ SH_SR_Q ∧ n ≠ SH_SR_M ∧ n ≠ SH_SR_S
  ∧ n ≠ "mach"%string ∧ n ≠ "macl"%string ∧ n ≠ "pr"%string ∧ n ≠ "gbr"%string.
Proof.
  intros H. cbn in H.
  repeat (destruct H as [<- | H]; [repeat split; discriminate |]). destruct H.
Qed.

Lemma cur_reg_write st reg n v reg' :
  cur_reg st reg = Some n → cur_reg (set_global st n v) reg' = cur_reg st reg'.
Proof.
  intros H. apply cur_reg_name, gpr_name_not_flag in H. apply cur_reg_set_global; tauto.
Qed.

(** Reading a register: the tree and its value. *)
Lemma eval_get_reg ac st reg n :
  cur_reg st reg = Some n →
  ∃ g, sh_il_get_reg reg = Some g
       ∧ ∀ st', cur_reg st' reg = Some n → eval ac st' g = vm_globals st' !! n.
Proof.
  intros H. pose proof (cur_reg_valid _ _ _ H) as Hv.
  assert (Hc : reg < 8 ∨ 8 <= reg) by lia. destruct Hc as [Hc | Hc].
  - assert (Hv' : 0 <= reg < 16) by lia.
    assert (∃ n0 n1, sh_il_get_reg reg = Some (PIte bank_condition (PVarG n1) (PVarG n0))
                     ∧ sh_get_banked_reg reg 0 = Some n0
                     ∧ sh_get_banked_reg reg 1 = Some n1) as (n0 & n1 & -> & H0 & H1).
    { clear H. each_gpr Hv'; try lia; eexists _, _; repeat split. }
    eexists; split; [reflexivity |]. intros st' H'. unfold cur_reg in H'.
    replace ((0 <=? reg) && (reg <? 8)) with true in H'
      by (symmetry; apply andb_true_iff; split; [apply Z.leb_le | apply Z.ltb_lt]; lia).
    destruct (vm_globals st' !! SH_SR_D) as [[d |] |] eqn:Ed; try discriminate.
    destruct (vm_globals st' !! SH_SR_R) as [[r |] |] eqn:Er; try discriminate.
    rewrite (eval_banked ac st' d r n0 n1 Ed Er).
    destruct (d && r); congruence.
  - assert (sh_il_get_reg reg = Some (PVarG n)) as ->.
    { unfold cur_reg in H.
      replace ((0 <=? reg) && (reg <? 8)) with false in H
        by (symmetry; apply andb_false_iff; right; apply Z.ltb_ge; lia).
      assert (Hv' : 0 <= reg < 16) by lia.
      each_gpr Hv'; try lia; cbn in H; injection H as <-; reflexivity. }
    eexists; split; [reflexivity |]. intros st' _. reflexivity.
Qed.

(** Writing a register: the tree and its execution. *)
Lemma exec_set_reg ac st reg n :
  cur_reg st reg = Some n →
  ∃ s : Pure → Effect,
    (∀ val, sh_il_set_reg reg (Some val) = Some (s val))
    ∧ ∀ st' val v, cur_reg st' reg = Some n → eval ac st' val = Some v →
                   exec ac st' (s val) = Some (set_global st' n v).
Proof.
  intros H. pose proof (cur_reg_valid _ _ _ H) as Hv.
  assert (Hc : reg < 8 ∨ 8 <= reg) by lia. destruct Hc as [Hc | Hc].
  - assert (Hv' : 0 <= reg < 16) by lia.
    assert (∃ n0 n1, (∀ val, sh_il_set_reg reg (Some val)
                       = Some (EBranch bank_condition (ESetG n1 val) (ESetG n0 val)))
                     ∧ sh_get_banked_reg reg 0 = Some n0
                     ∧ sh_get_banked_reg reg 1 = Some n1) as (n0 & n1 & Hs & H0 & H1).
    { clear H. each_gpr Hv'; try lia; eexists _, _; repeat split. }
    eexists; split; [exact Hs |]. intros st' val v H' Ev. unfold cur_reg in H'.
    replace ((0 <=? reg) && (reg <? 8)) with true in H'
      by (symmetry; apply andb_true_iff; split; [apply Z.leb_le | apply Z.ltb_lt]; lia).
    destruct (vm_globals st' !! SH_SR_D) as [[d |] |] eqn:Ed; try discriminate.
    destruct (vm_globals st' !! SH_SR_R) as [[r |] |] eqn:Er; try discriminate.
    rewrite (exec_banked ac st' d r n0 n1 val v Ed Er Ev).
    destruct (d && r); congruence.
  - assert (∀ val, sh_il_set_reg reg (Some val) = Some (ESetG n val)) as Hs.
    { unfold cur_reg in H.
      replace ((0 <=? reg) && (reg <? 8)) with false in H
        by (symmetry; apply andb_false_iff; right; apply Z.ltb_ge; lia).
      assert (Hv' : 0 <= reg < 16) by lia.
      each_gpr Hv'; try lia; cbn in H; injection H as <-; reflexivity. }
    eexists; split; [exact Hs |]. intros st' val v _ Ev. apply exec_setg, Ev.
Qed.

(** Operands that are whole registers. *)
Lemma get_param_direct param scaling pc :
  mode param = SH_REG_DIRECT →
  scaling = SH_SCALING_INVALID ∨ scaling = SH_SCALING_L →
  sh_il_get_param_pc param scaling pc = mkHelper None (sh_il_get_reg (param0 param)) None.
Proof. unfold sh_il_get_param_pc. intros -> [-> | ->]; reflexivity. Qed.

Lemma set_param_direct param scaling pc val e :
  mode param = SH_REG_DIRECT →
  scaling = SH_SCALING_INVALID ∨ scaling = SH_SCALING_L →
  sh_il_set_reg (param0 param) val = Some e →
  sh_il_set_param_pc param val scaling pc = Some e.
Proof. unfold sh_il_set_param_pc. intros -> [-> | ->] ->; reflexivity. Qed.

End SHFacts.

(** ** The flag predicates and the operand helpers *)

Module SHUtil.
Import IL SH Spec BitFacts ILFacts SHProofs SHFacts.

Lemma to_signed32 (x : Z) :
  0 <= x < 2 ^ 32 → to_signed 32 x = if 2 ^ 31 <=? x then x - 2 ^ 32 else x.
Proof. intros Hx. unfold to_signed. replace (32 - 1) with 31 by reflexivity.
  rewrite msb32 by assumption. reflexivity. Qed.

Lemma mod32_cases (z : Z) :
  - 2 ^ 32 <= z < 2 * 2 ^ 32 →
  z mod 2 ^ 32 = if z <? 0 then z + 2 ^ 32 else if 2 ^ 32 <=? z then z - 2 ^ 32 else z.
Proof.
  intros Hz. destruct (Z.ltb_spec z 0); [| destruct (Z.leb_spec (2 ^ 32) z)].
  - symmetry. apply Z.mod_unique with (q := -1); lia.
  - symmetry. apply Z.mod_unique with (q := 1); lia.
  - apply Z.mod_small; lia.
Qed.

Ltac leb_cases :=
  repeat match goal with
         | |- context [?a <=? ?b] => destruct (Z.leb_spec a b)
         | |- context [?a <? ?b] => destruct (Z.ltb_spec a b)
         | H : context [?a <=? ?b] |- _ => destruct (Z.leb_spec a b)
         | H : context [?a <? ?b] |- _ => destruct (Z.ltb_spec a b)
         end; cbn; try reflexivity; try (exfalso; lia).

(** X1. For 32-bit operands [x] and [y] and [res = x - y] computed modulo
    [2^32], the borrow predicate [sh_il_is_sub_borrow],
    [(¬ s x ∧ s y) ∨ (s y ∧ s res) ∨ (s res ∧ ¬ s x)] over the most
    significant bits, evaluates to true exactly when [x < y] as unsigned
    numbers. *)
Theorem sub_borrow_iff_unsigned_less (ac : bool) (st : VM)
    (pres px py : Pure) (x y : Z) :
  0 <= x < 2 ^ 32 →
  0 <= y < 2 ^ 32 →
  eval ac st px = Some (VBv 32 x) →
  eval ac st py = Some (VBv 32 y) →
  eval ac st pres = Some (VBv 32 ((x - y) mod 2 ^ 32)) →
  evalo ac st (sh_il_is_sub_borrow (Some pres) (Some px) (Some py))
  = Some (VBool (x <? y)).
Proof.
  intros Hx Hy Ex Ey Er.
  cbn. rewrite Ex, Ey, Er. cbn.
  replace (32 - 1) with 31 by reflexivity.
  rewrite (msb32 x), (msb32 y) by assumption.
  rewrite msb32 by (apply Z.mod_pos_bound; lia).
  rewrite mod32_cases by lia.
  f_equal. f_equal. leb_cases.
Qed.

(** The borrow of [0 - 1]. *)
Lemma sub_borrow_iff_unsigned_less_witness :
  evalo false vm_empty
    (sh_il_is_sub_borrow (SH_U_REG (2 ^ 32 - 1)) (SH_U_REG 0) (SH_U_REG 1))
  = Some (VBool (0 <? 1)).
Proof.
  apply (sub_borrow_iff_unsigned_less false _ (PBv 32 (2 ^ 32 - 1)) (PBv 32 0)
           (PBv 32 1) 0 1); try reflexivity; lia.
Defined.

(** X2. For 32-bit operands and [res = x + y] modulo [2^32], the predicate
    [sh_il_is_add_overflow] evaluates to true exactly when the sum of the
    operands read as two's complement numbers is outside
    [-2^31 .. 2^31 - 1]. *)
Theorem add_overflow_iff_signed_overflow (ac : bool) (st : VM)
    (pres px py : Pure) (x y : Z) :
  0 <= x < 2 ^ 32 →
  0 <= y < 2 ^ 32 →
  eval ac st px = Some (VBv 32 x) →
  eval ac st py = Some (VBv 32 y) →
  eval ac st pres = Some (VBv 32 ((x + y) mod 2 ^ 32)) →
  evalo ac st (sh_il_is_add_overflow (Some pres) (Some px) (Some py))
  = Some (VBool (negb ((- 2 ^ 31 <=? to_signed 32 x + to_signed 32 y)
                       && (to_signed 32 x + to_signed 32 y <? 2 ^ 31)))).
Proof.
  intros Hx Hy Ex Ey Er.
  cbn. rewrite Ex, Ey, Er. cbn.
  rewrite !to_signed32 by assumption.
  replace (32 - 1) with 31 by reflexivity.
  rewrite (msb32 x), (msb32 y) by assumption.
  rewrite msb32 by (apply Z.mod_pos_bound; lia).
  rewrite mod32_cases by lia.
  f_equal. f_equal. leb_cases.
Qed.

(** The largest positive number plus one. *)
Lemma add_overflow_iff_signed_overflow_witness :
  evalo false vm_empty
    (sh_il_is_add_overflow (SH_U_REG (2 ^ 31)) (SH_U_REG (2 ^ 31 - 1)) (SH_U_REG 1))
  = Some (VBool true).
Proof.
  apply (add_overflow_iff_signed_overflow false _ (PBv 32 (2 ^ 31)) (PBv 32 (2 ^ 31 - 1))
           (PBv 32 1) (2 ^ 31 - 1) 1); try reflexivity; lia.
Defined.

(** X3. For 32-bit operands and [res = x - y] modulo [2^32], the predicate
    [sh_il_is_sub_underflow] evaluates to true exactly when the difference
    of the operands read as two's complement numbers is outside
    [-2^31 .. 2^31 - 1]. *)
Theorem sub_underflow_iff_signed_overflow (ac : bool) (st : VM)
    (pres px py : Pure) (x y : Z) :
  0 <= x < 2 ^ 32 →
  0 <= y < 2 ^ 32 →
  eval ac st px = Some (VBv 32 x) →
  eval ac st py = Some (VBv 32 y) →
  eval ac st pres = Some (VBv 32 ((x - y) mod 2 ^ 32)) →
  evalo ac st (sh_il_is_sub_underflow (Some pres) (Some px) (Some py))
  = Some (VBool (negb ((- 2 ^ 31 <=? to_signed 32 x - to_signed 32 y)
                       && (to_signed 32 x - to_signed 32 y <? 2 ^ 31)))).
Proof.
  intros Hx Hy Ex Ey Er.
  cbn. rewrite Ex, Ey, Er. cbn.
  rewrite !to_signed32 by assumption.
  replace (32 - 1) with 31 by reflexivity.
  rewrite (msb32 x), (msb32 y) by assumption.
  rewrite msb32 by (apply Z.mod_pos_bound; lia).
  rewrite mod32_cases by lia.
  f_equal. f_equal. leb_cases.
Qed.

(** The most negative number minus one. *)
Lemma sub_underflow_iff_signed_overflow_witness :
  evalo false vm_empty
    (sh_il_is_sub_underflow (SH_U_REG (2 ^ 31 - 1)) (SH_U_REG (2 ^ 31)) (SH_U_REG 1))
  = Some (VBool true).
Proof.
  apply (sub_underflow_iff_signed_overflow false _ (PBv 32 (2 ^ 31 - 1)) (PBv 32 (2 ^ 31))
           (PBv 32 1) (2 ^ 31) 1); try reflexivity; lia.
Defined.

(** X4. [sh_apply_effects] returns NULL only when the target, the pre
    effect and the post effect are all NULL.  Otherwise its result runs
    the pre effect, then the target, then the post effect, leaving out
    those that are NULL. *)
Theorem apply_effects_skips_null (ac : bool) (st : VM) (target pre post : option Effect) :
  (sh_apply_effects target pre post = None ↔ target = None ∧ pre = None ∧ post = None)
  ∧ execo ac st (sh_apply_effects target pre post)
    = match target, pre, post with
      | None, None, None => None
      | _, _, _ =>
          st1 ← exec_skip ac pre st; st2 ← exec_skip ac target st1;
          exec_skip ac post st2
      end.
Proof.
  split.
  - destruct target, pre, post; cbn; split; try discriminate; try tauto;
      intros (? & ? & ?); discriminate.
  - destruct target as [t |], pre as [p |], post as [q |]; cbn;
      try reflexivity;
      repeat match goal with
             | |- context [exec ac ?s ?e] => destruct (exec ac s e); cbn
             end; reflexivity.
Qed.

(** X5. [sh_get_banked_reg] has a name for a register number and a bank
    exactly when the number is below 8 and the bank is 0 or 1, and two
    different pairs of number and bank never share a name. *)
Theorem banked_register_names (reg bank reg' bank' : Z) :
  0 <= reg → 0 <= bank → 0 <= reg' → 0 <= bank' →
  (is_Some (sh_get_banked_reg reg bank) ↔ reg < 8 ∧ bank <= 1)
  ∧ (is_Some (sh_get_banked_reg reg bank) →
     sh_get_banked_reg reg bank = sh_get_banked_reg reg' bank' →
     reg = reg' ∧ bank = bank').
Proof.
  intros Hr Hb Hr' Hb'.
  assert (Hdom : ∀ r b, 0 <= r → 0 <= b →
            (is_Some (sh_get_banked_reg r b) ↔ r < 8 ∧ b <= 1)).
  { intros r b H0 H1. unfold sh_get_banked_reg, sh_banked_reg, SH_BANKED_REG_COUNT.
    destruct (Z.ltb_spec r 8), (Z.ltb_spec 1 b); cbn [negb orb];
      try (split; [intros [? ?]; discriminate | lia]).
    assert (Hc : 0 <= r < 16) by lia. assert (b = 0 ∨ b = 1) as [-> | ->] by lia;
      (split; [lia |]); intros _; each_gpr Hc; try lia; cbn; eauto. }
  split; [apply Hdom; assumption |].
  intros Hs Heq. pose proof Hs as Hs'. rewrite Heq in Hs'.
  apply Hdom in Hs, Hs'; try assumption.
  assert (Hc : 0 <= reg < 16) by lia. assert (Hc' : 0 <= reg' < 16) by lia.
  assert (bank = 0 ∨ bank = 1) as [-> | ->] by lia;
  assert (bank' = 0 ∨ bank' = 1) as [-> | ->] by lia;
    each_gpr Hc; try lia; each_gpr Hc'; try lia; cbn in Heq; try discriminate;
    split; reflexivity.
Qed.

(** r3 in bank 1 and in bank 0. *)
Lemma banked_register_names_witness :
  (is_Some (sh_get_banked_reg 3 1) ↔ 3 < 8 ∧ 1 <= 1)
  ∧ (is_Some (sh_get_banked_reg 3 1) →
     sh_get_banked_reg 3 1 = sh_get_banked_reg 3 0 →
     3 = 3 ∧ 1 = 0).
Proof. apply (banked_register_names 3 1 3 0); lia. Defined.

End SHUtil.

(** ** The instructions *)

Module SHInsn.
Import IL SH Spec BitFacts ILFacts SHProofs SHFacts SHUtil.

(** The trees of an operand that is a whole register. *)
Lemma param_trees ac op pc st (x : nat) n :
  mode (op_param op x) = SH_REG_DIRECT →
  whole_register op →
  cur_reg st (param0 (op_param op x)) = Some n →
  ∃ (g : Pure) (s : Pure → Effect),
    sh_il_get_pure_param op pc x = Some g
    ∧ (∀ val, sh_il_set_pure_param op pc x (Some val) = Some (s val))
    ∧ (∀ st', cur_reg st' (param0 (op_param op x)) = Some n →
              eval ac st' g = vm_globals st' !! n)
    ∧ (∀ st' val v, cur_reg st' (param0 (op_param op x)) = Some n →
                    eval ac st' val = Some v →
                    exec ac st' (s val) = Some (set_global st' n v)).
Proof.
  intros M W C.
  destruct (eval_get_reg ac st _ n C) as (g & G & Eg).
  destruct (exec_set_reg ac st _ n C) as (s & S & Xs).
  exists g, s. repeat split; try assumption.
  - unfold sh_il_get_pure_param, sh_il_get_param.
    rewrite get_param_direct by assumption. exact G.
  - intros val. unfold sh_il_set_pure_param.
    apply set_param_direct; [assumption .. | apply S].
Qed.

Ltac regs_in st op pc ac M0 M1 W Rx Ry :=
  let nm := fresh "nm" in let nn := fresh "nn" in
  let Cm := fresh "Cm" in let Cn := fresh "Cn" in
  unfold read_reg in Rx, Ry;
  destruct (cur_reg st (Rm op)) as [nm |] eqn:Cm; [| discriminate];
  destruct (cur_reg st (Rn op)) as [nn |] eqn:Cn; [| discriminate];
  cbn [mbind option_bind] in Rx, Ry;
  destruct (param_trees ac op pc st 0%nat nm M0 W Cm) as (gm & _ & Gm & _ & Em & _);
  destruct (param_trees ac op pc st 1%nat nn M1 W Cn) as (gn & sn & Gn & Sn & En & Xn);
  unfold write_reg; rewrite ?Cm, ?Cn; cbn [mbind option_bind].

(** X6. With both operands whole registers, ADD, AND, OR and XOR write
    to [Rn] the result of the operation on [Rm] and [Rn] modulo [2^32],
    NOT writes the complement of [Rm], and SUB writes [Rm - Rn]: the
    first operand minus the second.  The register written is the one of
    the bank selected by SR.MD and SR.RB; nothing else changes. *)
Theorem alu_on_registers (ac : bool) (op : SHOp) (pc : Z) (st : VM) (x y : Z) :
  reg_reg op →
  read_reg st (Rm op) = Some (VBv 32 x) →
  read_reg st (Rn op) = Some (VBv 32 y) →
  execo ac st (sh_il_add op pc) = write_reg st (Rn op) (bv 32 (x + y))
  ∧ execo ac st (sh_il_sub op pc) = write_reg st (Rn op) (bv 32 (x - y))
  ∧ execo ac st (sh_il_and op pc) = write_reg st (Rn op) (bv 32 (Z.land x y))
  ∧ execo ac st (sh_il_or op pc) = write_reg st (Rn op) (bv 32 (Z.lor x y))
  ∧ execo ac st (sh_il_xor op pc) = write_reg st (Rn op) (bv 32 (Z.lxor x y))
  ∧ execo ac st (sh_il_not op pc) = write_reg st (Rn op) (bv 32 (Z.lnot x)).
Proof.
  intros (M0 & M1 & W) Rx Ry.
  regs_in st op pc ac M0 M1 W Rx Ry.
  unfold sh_il_add, sh_il_sub, sh_il_and, sh_il_or, sh_il_xor, sh_il_not.
  rewrite Gm, Gn. cbn [ADD SUB LOGAND LOGOR LOGXOR LOGNOT bin un mbind option_bind fmap option_fmap option_map].
  rewrite !Sn. cbn [execo mbind option_bind].
  repeat split; apply Xn; try assumption; cbn [eval];
    rewrite ?Em, ?En by assumption; rewrite ?Rx, ?Ry; reflexivity.
Qed.

(** ADD R1, R2 and SUB R1, R2 with [R1 = 0xffffffff] and [R2 = 1]. *)
Lemma alu_on_registers_witness :
  execo false vm_user (sh_il_add op_r1_r2 0)
  = write_reg vm_user (Rn op_r1_r2) (bv 32 (0xffffffff + 1))
  ∧ execo false vm_user (sh_il_sub op_r1_r2 0)
    = write_reg vm_user (Rn op_r1_r2) (bv 32 (0xffffffff - 1)).
Proof.
  destruct (alu_on_registers false op_r1_r2 0 vm_user 0xffffffff 1) as (Ha & Hs & _).
  - repeat split; left; reflexivity.
  - reflexivity.
  - reflexivity.
  - split; assumption.
Defined.


Lemma carry_with_carry_in (x y c : Z) :
  0 <= x < 2 ^ 32 → 0 <= y < 2 ^ 32 → 0 <= c <= 1 →
  let r := (x + y + c) mod 2 ^ 32 in
  (Z.testbit x 31 && Z.testbit y 31) || (negb (Z.testbit r 31) && Z.testbit y 31)
  || (Z.testbit x 31 && negb (Z.testbit r 31))
  = (2 ^ 32 <=? x + y + c).
Proof.
  intros Hx Hy Hc r. subst r.
  rewrite (msb32 x), (msb32 y) by assumption.
  rewrite msb32 by (apply Z.mod_pos_bound; lia).
  rewrite mod32_cases by lia.
  leb_cases.
Qed.

Lemma eval_status_bit ac st n b :
  vm_globals st !! n = Some (VBool b) →
  eval ac st (PIte (PVarG n) (PBv 32 1) (PBv 32 0)) = Some (VBv 32 (Z.b2z b)).
Proof. intros H. cbn. rewrite H. cbn. destruct b; reflexivity. Qed.


Lemma add_carry_tree (pres px py : Pure) :
  ∃ c, sh_il_is_add_carry (Some pres) (Some px) (Some py) = Some c
       ∧ ∀ ac st x y r,
           eval ac st px = Some (VBv 32 x) → eval ac st py = Some (VBv 32 y) →
           eval ac st pres = Some (VBv 32 r) →
           eval ac st c
           = Some (VBool ((Z.testbit x 31 && Z.testbit y 31)
                          || (negb (Z.testbit r 31) && Z.testbit y 31)
                          || (Z.testbit x 31 && negb (Z.testbit r 31)))).
Proof.
  eexists; split; [reflexivity |]. intros ac st x y r Ex Ey Er.
  cbn. rewrite Ex, Ey, Er. reflexivity.
Qed.

(** X7. ADDC Rm, Rn writes [(Rm + Rn + T) mod 2^32] to [Rn].  The T bit
    is computed by the second effect of the sequence, after [Rn] was
    written: it is the carry out of [Rm + (the new Rn) + T]. *)
Theorem addc_flag_after_write (ac : bool) (op : SHOp) (pc : Z) (st : VM)
    (x y : Z) (t : bool) :
  reg_reg op →
  Rm op ≠ Rn op →
  read_reg st (Rm op) = Some (VBv 32 x) →
  read_reg st (Rn op) = Some (VBv 32 y) →
  vm_globals st !! SH_SR_T = Some (VBool t) →
  0 <= x < 2 ^ 32 →
  0 <= y < 2 ^ 32 →
  let s := (x + y + Z.b2z t) mod 2 ^ 32 in
  execo ac st (sh_il_addc op pc)
  = (st1 ← write_reg st (Rn op) (VBv 32 s);
     Some (set_global st1 SH_SR_T (VBool (2 ^ 32 <=? x + s + Z.b2z t)))).
Proof.
  intros (M0 & M1 & W) Hne Rx Ry Ht Hx Hy s.
  regs_in st op pc ac M0 M1 W Rx Ry.
  assert (Nmn : nm ≠ nn) by (intros ->; apply Hne; eapply cur_reg_inj; eassumption).
  pose proof (gpr_name_not_flag _ (cur_reg_name _ _ _ Cn)) as (? & ? & NT & _).
  unfold sh_il_addc. rewrite Gm, Gn.
  set (sum := PBin OAdd (PBin OAdd gm gn)
                (PCast false 32 (PIte (PVarG SH_SR_T) (PBv 32 1) (PBv 32 0)))).
  change (ADD (ADD (Some gm) (Some gn))
            (UNSIGNED SH_REG_SIZE (sh_il_get_status_reg_bit SH_SR_T))) with (Some sum).
  rewrite Sn. unfold DUP.
  destruct (add_carry_tree sum gm gn) as (c & -> & Ec).
  cbn [SETG SEQ2 mbind option_bind str_ptr execo exec].
  assert (Hb : 0 <= Z.b2z t <= 1) by (destruct t; cbn; lia).
  assert (Esum : ∀ st' a b, vm_globals st' !! nm = Some (VBv 32 a) →
            vm_globals st' !! nn = Some (VBv 32 b) →
            vm_globals st' !! SH_SR_T = Some (VBool t) →
            cur_reg st' (Rm op) = Some nm → cur_reg st' (Rn op) = Some nn →
            eval ac st' sum = Some (VBv 32 ((a + b + Z.b2z t) mod 2 ^ 32))).
  { intros st' a b Ha Hb' Ht' Cm' Cn'. unfold sum. cbn [eval].
    rewrite (Em _ Cm'), (En _ Cn'), Ha, Hb', Ht'.
    destruct t; cbn; unfold bv; f_equal; f_equal;
      rewrite ?(Z.mod_small 1), ?(Z.mod_small 0) by lia;
      rewrite Zplus_mod_idemp_l; reflexivity. }
  erewrite Xn; [| assumption | apply Esum; eassumption].
  cbn [mbind option_bind]. change ((x + y + Z.b2z t) mod 2 ^ 32) with s.
  set (st1 := set_global st nn (VBv 32 s)).
  assert (Cm1 : cur_reg st1 (Rm op) = Some nm) by (unfold st1; erewrite cur_reg_write; eassumption).
  assert (Cn1 : cur_reg st1 (Rn op) = Some nn) by (unfold st1; erewrite cur_reg_write; eassumption).
  assert (Hm1 : vm_globals st1 !! nm = Some (VBv 32 x))
    by (unfold st1; rewrite globals_set_global, lookup_insert_ne by congruence; assumption).
  assert (Hn1 : vm_globals st1 !! nn = Some (VBv 32 s))
    by (unfold st1; rewrite globals_set_global, lookup_insert_eq; reflexivity).
  assert (Ht1 : vm_globals st1 !! SH_SR_T = Some (VBool t))
    by (unfold st1; rewrite globals_set_global, lookup_insert_ne by congruence; assumption).
  assert (Hs : 0 <= s < 2 ^ 32) by (apply Z.mod_pos_bound; lia).
  rewrite (Ec ac st1 x s ((x + s + Z.b2z t) mod 2 ^ 32));
    [| rewrite (Em _ Cm1); exact Hm1 | rewrite (En _ Cn1); exact Hn1
     | apply Esum; assumption ].
  cbn [mbind option_bind].
  rewrite (carry_with_carry_in x s (Z.b2z t)) by assumption.
  reflexivity.
Qed.

(** ADDC R1, R2 with [R1 = 0xffffffff], [R2 = 1] and T set. *)
Lemma addc_flag_after_write_witness :
  let s := (0xffffffff + 1 + Z.b2z true) mod 2 ^ 32 in
  execo false vm_user (sh_il_addc op_r1_r2 0)
  = (st1 ← write_reg vm_user (Rn op_r1_r2) (VBv 32 s);
     Some (set_global st1 SH_SR_T (VBool (2 ^ 32 <=? 0xffffffff + s + Z.b2z true)))).
Proof.
  apply (addc_flag_after_write false op_r1_r2 0 vm_user 0xffffffff 1 true).
  - repeat split; left; reflexivity.
  - vm_compute. discriminate.
  - reflexivity.
  - reflexivity.
  - reflexivity.
  - lia.
  - lia.
Defined.


(** X8. The compare and test instructions change only T.  With both
    operands whole registers, CMP/EQ sets it when [Rn = Rm], CMP/HS when
    [Rn >= Rm] and CMP/HI when [Rn > Rm] as unsigned numbers, CMP/GE when
    [Rn >= Rm] and CMP/GT when [Rn > Rm] as two's complement numbers, and
    TST when [Rn] and [Rm] have no set bit in common.  CMP/PZ and CMP/PL
    have one operand, a whole register; they set T when it is [>= 0] and
    [> 0] as a two's complement number, whatever the second operand
    slot of the instruction holds. *)
Theorem cmp_sets_t (ac : bool) (op : SHOp) (pc : Z) (st : VM) :
  (∀ x y : Z,
     reg_reg op →
     read_reg st (Rm op) = Some (VBv 32 x) →
     read_reg st (Rn op) = Some (VBv 32 y) →
     execo ac st (sh_il_cmp_eq op pc) = Some (set_global st SH_SR_T (VBool (x =? y)))
     ∧ execo ac st (sh_il_cmp_hs op pc) = Some (set_global st SH_SR_T (VBool (x <=? y)))
     ∧ execo ac st (sh_il_cmp_hi op pc) = Some (set_global st SH_SR_T (VBool (x <? y)))
     ∧ execo ac st (sh_il_cmp_ge op pc)
       = Some (set_global st SH_SR_T (VBool (to_signed 32 x <=? to_signed 32 y)))
     ∧ execo ac st (sh_il_cmp_gt op pc)
       = Some (set_global st SH_SR_T (VBool (to_signed 32 x <? to_signed 32 y)))
     ∧ execo ac st (sh_il_tst op pc)
       = Some (set_global st SH_SR_T (VBool (Z.land x y mod 2 ^ 32 =? 0))))
  ∧ (∀ x : Z,
       mode (op_param0 op) = SH_REG_DIRECT →
       whole_register op →
       read_reg st (Rm op) = Some (VBv 32 x) →
       execo ac st (sh_il_cmp_pz op pc)
       = Some (set_global st SH_SR_T (VBool (0 <=? to_signed 32 x)))
       ∧ execo ac st (sh_il_cmp_pl op pc)
         = Some (set_global st SH_SR_T (VBool (0 <? to_signed 32 x)))).
Proof.
  split.
  - intros x y (M0 & M1 & W) Rx Ry.
    regs_in st op pc ac M0 M1 W Rx Ry.
    unfold sh_il_cmp_eq, sh_il_cmp_hs, sh_il_cmp_hi, sh_il_cmp_ge, sh_il_cmp_gt,
      sh_il_tst.
    rewrite Gm, Gn.
    repeat split; cbn; rewrite ?(Em _ Cm), ?(En _ Cn), ?Rx, ?Ry; reflexivity.
  - intros x M0 W Rx. unfold read_reg in Rx.
    destruct (cur_reg st (Rm op)) as [nm |] eqn:Cm; [| discriminate].
    cbn [mbind option_bind] in Rx.
    destruct (param_trees ac op pc st 0%nat nm M0 W Cm) as (gm & _ & Gm & _ & Em & _).
    unfold sh_il_cmp_pz, sh_il_cmp_pl. rewrite Gm.
    split; cbn; rewrite (Em _ Cm), Rx; reflexivity.
Qed.

(** CMP/EQ R1, R2 and CMP/HS R1, R2 with [R1 = 0xffffffff] and [R2 = 1];
    CMP/PZ R2 and CMP/PL R2, which have no second operand. *)
Lemma cmp_sets_t_witness :
  (execo false vm_user (sh_il_cmp_eq op_r1_r2 0)
   = Some (set_global vm_user SH_SR_T (VBool (0xffffffff =? 1)))
   ∧ execo false vm_user (sh_il_cmp_hs op_r1_r2 0)
     = Some (set_global vm_user SH_SR_T (VBool (0xffffffff <=? 1))))
  ∧ (execo false vm_user (sh_il_cmp_pz op_r2 0)
     = Some (set_global vm_user SH_SR_T (VBool (0 <=? to_signed 32 1)))
     ∧ execo false vm_user (sh_il_cmp_pl op_r2 0)
       = Some (set_global vm_user SH_SR_T (VBool (0 <? to_signed 32 1)))).
Proof.
  split.
  - destruct (proj1 (cmp_sets_t false op_r1_r2 0 vm_user) 0xffffffff 1) as (He & Hh & _).
    + repeat split; left; reflexivity.
    + reflexivity.
    + reflexivity.
    + split; assumption.
  - apply (proj2 (cmp_sets_t false op_r2 0 vm_user) 1).
    + reflexivity.
    + left; reflexivity.
    + reflexivity.
Defined.

(** X9. DT writes the register minus one, modulo [2^32], and then sets
    T exactly when the decremented register is not zero. *)
Theorem dt_sets_t_when_nonzero (ac : bool) (op : SHOp) (pc : Z) (st : VM) (y : Z) :
  mode (op_param0 op) = SH_REG_DIRECT →
  whole_register op →
  read_reg st (Rm op) = Some (VBv 32 y) →
  execo ac st (sh_il_dt op pc)
  = (st1 ← write_reg st (Rm op) (bv 32 (y - 1));
     Some (set_global st1 SH_SR_T (VBool (negb ((y - 1) mod 2 ^ 32 =? 0))))).
Proof.
  intros M0 W Ry. unfold read_reg in Ry.
  destruct (cur_reg st (Rm op)) as [nn |] eqn:Cn; [| discriminate].
  cbn [mbind option_bind] in Ry.
  destruct (param_trees ac op pc st 0%nat nn M0 W Cn) as (gn & sn & Gn & Sn & En & Xn).
  unfold write_reg. rewrite Cn. cbn [mbind option_bind].
  unfold sh_il_dt. rewrite Gn.
  cbn [SUB bin mbind option_bind SH_U_REG UN NON_ZERO un fmap option_fmap option_map].
  rewrite Sn. cbn [SETG SEQ2 mbind option_bind str_ptr execo exec].
  erewrite Xn; [| assumption | cbn [eval]; rewrite (En _ Cn), Ry; reflexivity].
  cbn [mbind option_bind eval].
  rewrite En by (erewrite cur_reg_write; eassumption).
  cbn. rewrite lookup_insert_eq. cbn. unfold bv, SH_REG_SIZE.
  rewrite (Z.mod_small 1) by lia. reflexivity.
Qed.

(** DT R2 with [R2 = 1]: the register becomes zero and T is cleared. *)
Lemma dt_sets_t_when_nonzero_witness :
  execo false vm_user (sh_il_dt op_r2 0)
  = (st1 ← write_reg vm_user (Rm op_r2) (bv 32 (1 - 1));
     Some (set_global st1 SH_SR_T (VBool (negb ((1 - 1) mod 2 ^ 32 =? 0))))).
Proof.
  apply (dt_sets_t_when_nonzero false op_r2 0 vm_user 1).
  - reflexivity.
  - left; reflexivity.
  - reflexivity.
Defined.

(** X10. SHLL sets T to the most significant bit of the register and
    writes the register doubled modulo [2^32]; SHLR sets T to the least
    significant bit and writes the register halved. *)
Theorem shift_by_one (ac : bool) (op : SHOp) (pc : Z) (st : VM) (y : Z) :
  mode (op_param0 op) = SH_REG_DIRECT →
  whole_register op →
  read_reg st (Rm op) = Some (VBv 32 y) →
  execo ac st (sh_il_shll op pc)
  = write_reg (set_global st SH_SR_T (VBool (Z.testbit y 31))) (Rm op) (bv 32 (2 * y))
  ∧ execo ac st (sh_il_shlr op pc)
    = write_reg (set_global st SH_SR_T (VBool (Z.testbit y 0))) (Rm op) (bv 32 (y / 2)).
Proof.
  intros M0 W Ry. unfold read_reg in Ry.
  destruct (cur_reg st (Rm op)) as [nn |] eqn:Cn; [| discriminate].
  cbn [mbind option_bind] in Ry.
  destruct (param_trees ac op pc st 0%nat nn M0 W Cn) as (gn & sn & Gn & Sn & En & Xn).
  pose proof (gpr_name_not_flag _ (cur_reg_name _ _ _ Cn)) as (? & ? & NT & _).
  assert (Ct : ∀ v, cur_reg (set_global st SH_SR_T v) (Rm op) = Some nn)
    by (intros v; rewrite cur_reg_set_global by discriminate; assumption).
  unfold write_reg. rewrite !Ct. cbn [mbind option_bind].
  unfold sh_il_shll, sh_il_shlr. rewrite Gn.
  cbn [SHIFTL0 SHIFTR0 MSB LSB bin un mbind option_bind SH_U_REG UN fmap option_fmap
       option_map].
  rewrite !Sn. cbn [SETG SEQ2 mbind option_bind str_ptr execo exec].
  cbn [eval]. rewrite (En _ Cn), Ry. cbn [mbind option_bind eval_un as_bv].
  split.
  - erewrite Xn; [reflexivity | apply Ct |].
    cbn [eval]. rewrite (En _ (Ct _)), globals_set_global, lookup_insert_ne, Ry by congruence.
    cbn. unfold bv, SH_REG_SIZE. rewrite (Z.mod_small 1) by lia.
    rewrite Z.shiftl_mul_pow2 by lia. do 3 f_equal. lia.
  - erewrite Xn; [reflexivity | apply Ct |].
    cbn [eval]. rewrite (En _ (Ct _)), globals_set_global, lookup_insert_ne, Ry by congruence.
    cbn. unfold bv, SH_REG_SIZE. rewrite (Z.mod_small 1) by lia.
    rewrite Z.shiftr_div_pow2 by lia. reflexivity.
Qed.

(** SHLL R2 and SHLR R2 with [R2 = 1]. *)
Lemma shift_by_one_witness :
  execo false vm_user (sh_il_shll op_r2 0)
  = write_reg (set_global vm_user SH_SR_T (VBool (Z.testbit 1 31))) (Rm op_r2)
      (bv 32 (2 * 1))
  ∧ execo false vm_user (sh_il_shlr op_r2 0)
    = write_reg (set_global vm_user SH_SR_T (VBool (Z.testbit 1 0))) (Rm op_r2)
        (bv 32 (1 / 2)).
Proof.
  apply (shift_by_one false op_r2 0 vm_user 1).
  - reflexivity.
  - left; reflexivity.
  - reflexivity.
Defined.


Lemma wide_writeback ac st (p : Z) :
  vm_locals st !! "res_wide"%string = Some (VBv 64 p) →
  0 <= p < 2 ^ 64 →
  exec ac st
    (ESeq (ESetG "macl" (PCast false 32 (PBin OLogAnd (PVarL "res_wide") (PBv 64 0xffffffff))))
          (ESetG "mach" (PCast false 32 (PBin OShiftR0 (PVarL "res_wide") (PBv 32 32)))))
  = Some (set_global (set_global st "macl" (VBv 32 (p mod 2 ^ 32)))
            "mach" (VBv 32 (p / 2 ^ 32))).
Proof.
  intros Hl Hp.
  assert (Hlow : (Z.land p 0xffffffff mod 2 ^ 64) mod 2 ^ 32 = p mod 2 ^ 32).
  { change 0xffffffff with (Z.ones 32). rewrite Z.land_ones by lia.
    rewrite (Z.mod_small (p mod 2 ^ 32) (2 ^ 64)); [apply Z.mod_mod; lia |].
    pose proof (Z.mod_pos_bound p (2 ^ 32)). lia. }
  assert (Hhigh : (Z.shiftr p 32 mod 2 ^ 64) mod 2 ^ 32 = p / 2 ^ 32).
  { rewrite Z.shiftr_div_pow2 by lia.
    assert (0 <= p / 2 ^ 32 < 2 ^ 32).
    { clear Hlow. split; [apply Z.div_pos; lia |].
      apply Z.div_lt_upper_bound; [lia |]. change (2 ^ 32 * 2 ^ 32) with (2 ^ 64). lia. }
    rewrite (Z.mod_small (p / 2 ^ 32) (2 ^ 64)) by lia.
    apply Z.mod_small. assumption. }
  cbn [exec eval]. rewrite Hl.
  cbn -[Z.pow Z.modulo Z.land Z.shiftr]. rewrite Hl.
  cbn -[Z.pow Z.modulo Z.land Z.shiftr]. unfold bv.
  change (32 mod 2 ^ 32) with 32. change (4294967295 mod 2 ^ 64) with 4294967295.
  rewrite Hlow, Hhigh. reflexivity.
Qed.

Lemma to_signed32_range (x : Z) :
  0 <= x < 2 ^ 32 → - 2 ^ 31 <= to_signed 32 x < 2 ^ 31.
Proof. intros Hx. rewrite to_signed32 by assumption. destruct (Z.leb_spec (2 ^ 31) x); lia. Qed.

(** X11. DMULU.L leaves the 64-bit product of the two registers in
    MACH:MACL, and DMULS.L the product of their two's complement readings
    modulo [2^64]: MACL receives the low 32 bits and MACH the high 32
    bits.  The product is kept in the local variable [res_wide]. *)
Theorem dmul_full_product (ac : bool) (op : SHOp) (pc : Z) (st : VM) (x y : Z) :
  reg_reg op →
  read_reg st (Rm op) = Some (VBv 32 x) →
  read_reg st (Rn op) = Some (VBv 32 y) →
  0 <= x < 2 ^ 32 →
  0 <= y < 2 ^ 32 →
  (let p := x * y in
   execo ac st (sh_il_dmulu op pc)
   = Some (set_global
             (set_global (set_local st "res_wide" (VBv 64 p))
                "macl" (VBv 32 (p mod 2 ^ 32)))
             "mach" (VBv 32 (p / 2 ^ 32))))
  ∧ (let p := (to_signed 32 x * to_signed 32 y) mod 2 ^ 64 in
     execo ac st (sh_il_dmuls op pc)
     = Some (set_global
               (set_global (set_local st "res_wide" (VBv 64 p))
                  "macl" (VBv 32 (p mod 2 ^ 32)))
               "mach" (VBv 32 (p / 2 ^ 32)))).
Proof.
  intros (M0 & M1 & W) Rx Ry Hx Hy.
  regs_in st op pc ac M0 M1 W Rx Ry.
  unfold sh_il_dmulu, sh_il_dmuls. rewrite Gm, Gn.
  split.
  - set (p := x * y).
    cbn [SEQ3 SEQ2 SETL SETG MUL UNSIGNED LOGAND SHIFTR0 VARL UN SH_U_REG bin mbind
         option_bind fmap option_fmap option_map str_ptr execo].
    assert (Hp : 0 <= p < 2 ^ 64) by (unfold p; change (2 ^ 64) with (2 ^ 32 * 2 ^ 32); nia).
    erewrite exec_seq.
    2:{ cbn [exec eval]. rewrite (Em _ Cm), (En _ Cn), Rx, Ry.
        cbn -[Z.pow Z.modulo Z.mul]. reflexivity. }
    unfold bv, SH_REG_SIZE. change (2 * 32) with 64.
    rewrite (Z.mod_small x (2 ^ 64)), (Z.mod_small y (2 ^ 64)) by lia.
    fold p. rewrite (Z.mod_small p) by lia.
    apply wide_writeback; [| assumption].
    rewrite locals_set_local, lookup_insert_eq. reflexivity.
  - set (p := (to_signed 32 x * to_signed 32 y) mod 2 ^ 64).
    cbn [SEQ3 SEQ2 SETL SETG MUL SIGNED UNSIGNED LOGAND SHIFTR0 VARL UN SH_U_REG bin
         mbind option_bind fmap option_fmap option_map str_ptr execo].
    assert (Hp : 0 <= p < 2 ^ 64) by (apply Z.mod_pos_bound; lia).
    erewrite exec_seq.
    2:{ cbn [exec eval]. rewrite (Em _ Cm), (En _ Cn), Rx, Ry.
        cbn -[Z.pow Z.modulo Z.mul to_signed]. reflexivity. }
    unfold bv, SH_REG_SIZE. change (2 * 32) with 64.
    rewrite <- Z.mul_mod by lia. fold p.
    apply wide_writeback; [| assumption].
    rewrite locals_set_local, lookup_insert_eq. reflexivity.
Qed.

(** DMULU.L R1, R2 with [R1 = 0xffffffff] and [R2 = 1]. *)
Lemma dmul_full_product_witness :
  let p := 0xffffffff * 1 in
  execo false vm_user (sh_il_dmulu op_r1_r2 0)
  = Some (set_global
            (set_global (set_local vm_user "res_wide" (VBv 64 p))
               "macl" (VBv 32 (p mod 2 ^ 32)))
            "mach" (VBv 32 (p / 2 ^ 32))).
Proof.
  destruct (dmul_full_product false op_r1_r2 0 vm_user 0xffffffff 1) as (Hu & _).
  - repeat split; left; reflexivity.
  - reflexivity.
  - reflexivity.
  - lia.
  - lia.
  - exact Hu.
Defined.


Lemma mod_add3_l (a b c n : Z) : (a mod n + b + c) mod n = (a + b + c) mod n.
Proof. rewrite <- Z.add_assoc, Zplus_mod_idemp_l, Z.add_assoc. reflexivity. Qed.

Lemma mod_add3_m (a b c n : Z) : (a + b mod n + c) mod n = (a + b + c) mod n.
Proof.
  rewrite (Z.add_comm a), <- Z.add_assoc, Zplus_mod_idemp_l, Z.add_assoc, (Z.add_comm b).
  reflexivity.
Qed.

Lemma mod_add_mul_r (a b c n : Z) : (a + b * (c mod n)) mod n = (a + b * c) mod n.
Proof.
  rewrite <- Zplus_mod_idemp_r, Zmult_mod_idemp_r, Zplus_mod_idemp_r. reflexivity.
Qed.

Ltac push_mod :=
  repeat first
    [ rewrite Zplus_mod_idemp_l | rewrite Zplus_mod_idemp_r
    | rewrite Zmult_mod_idemp_l | rewrite Zmult_mod_idemp_r
    | rewrite mod_add3_l | rewrite mod_add3_m | rewrite mod_add_mul_r ].

(** The target of a branch with a 12-bit displacement. *)
Lemma eval_pc_relative12 (ac : bool) (st : VM) (d p1 pc : Z) (sc : SHScaling) :
  evalo ac st (sh_il_get_effective_addr_pc (mkParam SH_PC_RELATIVE12 d p1) sc pc)
  = Some (bv 32 (pc + 4 + to_signed 12 ((2 * d) mod 2 ^ 12))).
Proof.
  cbn -[Z.pow Z.modulo Z.shiftl to_signed Z.mul Z.add]. unfold bv, SH_ADDR_SIZE.
  rewrite (Z.mod_small 1 (2 ^ 8)), (Z.mod_small 4 (2 ^ 32)), Z.shiftl_mul_pow2 by lia.
  change (2 ^ 1) with 2. rewrite (Z.mul_comm _ 2). push_mod. reflexivity.
Qed.

(** X12. The PC-relative effective addresses, for every displacement [d]
    and instruction address [pc], modulo [2^32].  With an 8-bit or 12-bit
    displacement the address is [pc + 4] plus the displacement doubled
    within its 8 or 12 bits and then sign-extended.  With a scaled
    displacement it is [pc + 4 + 2 * d] for words and
    [(pc with its two low bits cleared) + 4 + 4 * d] for longwords. *)
Theorem pc_relative_targets (ac : bool) (st : VM) (d p1 pc : Z) (sc : SHScaling) :
  evalo ac st (sh_il_get_effective_addr_pc (mkParam SH_PC_RELATIVE8 d p1) sc pc)
  = Some (bv 32 (pc + 4 + to_signed 8 ((2 * d) mod 2 ^ 8)))
  ∧ evalo ac st (sh_il_get_effective_addr_pc (mkParam SH_PC_RELATIVE12 d p1) sc pc)
    = Some (bv 32 (pc + 4 + to_signed 12 ((2 * d) mod 2 ^ 12)))
  ∧ evalo ac st (sh_il_get_effective_addr_pc (mkParam SH_PC_RELATIVE_DISP d p1)
                   SH_SCALING_L pc)
    = Some (bv 32 (Z.land (pc mod 2 ^ 32) 0xfffffffc + 4 + 4 * d))
  ∧ evalo ac st (sh_il_get_effective_addr_pc (mkParam SH_PC_RELATIVE_DISP d p1)
                   SH_SCALING_W pc)
    = Some (bv 32 (pc + 4 + 2 * d)).
Proof.
  repeat split.
  - cbn -[Z.pow Z.modulo Z.shiftl to_signed Z.mul Z.add]. unfold bv, SH_ADDR_SIZE.
    rewrite (Z.mod_small 1 (2 ^ 8)), (Z.mod_small 4 (2 ^ 32)), Z.shiftl_mul_pow2 by lia.
    change (2 ^ 1) with 2. rewrite (Z.mul_comm _ 2). push_mod. reflexivity.
  - cbn -[Z.pow Z.modulo Z.shiftl to_signed Z.mul Z.add]. unfold bv, SH_ADDR_SIZE.
    rewrite (Z.mod_small 1 (2 ^ 8)), (Z.mod_small 4 (2 ^ 32)), Z.shiftl_mul_pow2 by lia.
    change (2 ^ 1) with 2. rewrite (Z.mul_comm _ 2). push_mod. reflexivity.
  - cbn -[Z.pow Z.modulo Z.land Z.mul Z.add]. unfold bv, SH_ADDR_SIZE.
    rewrite (Z.mod_small 4294967292), (Z.mod_small 4) by lia.
    rewrite (Z.mul_comm _ 4). push_mod. reflexivity.
  - cbn -[Z.pow Z.modulo Z.land Z.mul Z.add]. unfold bv, SH_ADDR_SIZE.
    rewrite (Z.mod_small 2), (Z.mod_small 4) by lia.
    rewrite (Z.mul_comm _ 2). push_mod. reflexivity.
Qed.

(** X13. With a target address that evaluates to [a]: BT and BT/S set the
    program counter to [a] when T is set and change nothing otherwise;
    BF and BF/S set it when T is clear and change nothing otherwise. *)
Theorem conditional_branches (ac : bool) (op : SHOp) (pc : Z) (st : VM)
    (t : bool) (a : Z) :
  vm_globals st !! SH_SR_T = Some (VBool t) →
  evalo ac st (sh_il_get_effective_addr_param op pc 0) = Some (VBv 32 a) →
  execo ac st (sh_il_bt op pc) = Some (if t then set_pc st (32, a) else st)
  ∧ execo ac st (sh_il_bts op pc) = Some (if t then set_pc st (32, a) else st)
  ∧ execo ac st (sh_il_bf op pc) = Some (if t then st else set_pc st (32, a))
  ∧ execo ac st (sh_il_bfs op pc) = Some (if t then st else set_pc st (32, a)).
Proof.
  intros Ht Ea. unfold sh_il_bt, sh_il_bts, sh_il_bf, sh_il_bfs.
  destruct (sh_il_get_effective_addr_param op pc 0) as [g |]; [| discriminate].
  cbn in Ea.
  repeat split; cbn; rewrite Ht; destruct t; cbn; rewrite ?Ea; reflexivity.
Qed.

(** BT and BF at address [0x1000] with the displacement [0x40], T set. *)
Lemma conditional_branches_witness :
  execo false vm_user (sh_il_bt (op_branch8 0x40) 0x1000)
  = Some (if true then set_pc vm_user (32, 0xf84) else vm_user)
  ∧ execo false vm_user (sh_il_bf (op_branch8 0x40) 0x1000)
    = Some (if true then vm_user else set_pc vm_user (32, 0xf84)).
Proof.
  destruct (conditional_branches false (op_branch8 0x40) 0x1000 vm_user true 0xf84)
    as (Ht & _ & Hf & _).
  - reflexivity.
  - reflexivity.
  - split; assumption.
Defined.


(** X14. JMP @Rn sets the program counter to [Rn]; JSR @Rn first stores
    [pc + 4] in PR.  BRA with a 12-bit displacement sets the program
    counter to the PC-relative target; BSR first stores [pc], the address
    of the instruction itself, in PR. *)
Theorem calls_and_jumps (ac : bool) (op : SHOp) (pc : Z) (st : VM) (a : Z) :
  mode (op_param0 op) = SH_REG_INDIRECT →
  read_reg st (Rm op) = Some (VBv 32 a) →
  execo ac st (sh_il_jmp op pc) = Some (set_pc st (32, a))
  ∧ execo ac st (sh_il_jsr op pc)
    = Some (set_pc (set_global st "pr" (bv 32 (pc + 4))) (32, a))
  ∧ ∀ (d p1 : Z) (q : SHParam) (sc : SHScaling),
      let target := (pc + 4 + to_signed 12 ((2 * d) mod 2 ^ 12)) mod 2 ^ 32 in
      execo ac st (sh_il_bra (mkOp (mkParam SH_PC_RELATIVE12 d p1) q sc) pc)
      = Some (set_pc st (32, target))
      ∧ execo ac st (sh_il_bsr (mkOp (mkParam SH_PC_RELATIVE12 d p1) q sc) pc)
        = Some (set_pc (set_global st "pr" (bv 32 pc)) (32, target)).
Proof.
  intros M0 Ra. unfold read_reg in Ra.
  destruct (cur_reg st (Rm op)) as [nn |] eqn:Cn; [| discriminate].
  cbn [mbind option_bind] in Ra.
  destruct (eval_get_reg ac st _ nn Cn) as (g & G & Eg).
  pose proof (gpr_name_not_flag _ (cur_reg_name _ _ _ Cn)) as (? & ? & _ & _ & _ & _ & _ & _ & NP & _).
  assert (Ga : sh_il_get_effective_addr_param op pc 0 = Some g).
  { unfold sh_il_get_effective_addr_param, sh_il_get_effective_addr_pc.
    cbn [op_param]. rewrite M0. exact G. }
  unfold sh_il_jmp, sh_il_jsr. rewrite Ga. split; [| split].
  - cbn. rewrite (Eg _ Cn), Ra. reflexivity.
  - cbn -[Z.pow Z.modulo Z.add]. rewrite Eg by (rewrite cur_reg_set_global by discriminate; exact Cn).
    rewrite globals_set_global, lookup_insert_ne, Ra by congruence.
    cbn -[Z.pow Z.modulo Z.add]. unfold bv, SH_ADDR_SIZE.
    rewrite (Z.mod_small 4) by lia. push_mod. reflexivity.
  - intros d p1 q sc.
    pose proof (eval_pc_relative12 ac) as T.
    unfold sh_il_bra, sh_il_bsr, sh_il_get_effective_addr_param. cbn [op_param op_param0 scaling].
    split.
    + pose proof (T st d p1 pc sc) as T12.
      destruct (sh_il_get_effective_addr_pc (mkParam SH_PC_RELATIVE12 d p1) sc pc) as [e |];
        [| discriminate].
      cbn in T12. cbn. rewrite T12. reflexivity.
    + pose proof (T (set_global st "pr" (bv 32 pc)) d p1 pc sc) as T12.
      destruct (sh_il_get_effective_addr_pc (mkParam SH_PC_RELATIVE12 d p1) sc pc) as [e |];
        [| discriminate].
      cbn -[bv] in T12. cbn -[bv]. unfold SH_ADDR_SIZE. rewrite T12. reflexivity.
Qed.

(** JMP @R9 and JSR @R9 at address [0x1000] with [R9 = 0x100]. *)
Lemma calls_and_jumps_witness :
  execo false vm_user (sh_il_jmp (op_at_r9 SH_SCALING_INVALID) 0x1000)
  = Some (set_pc vm_user (32, 0x100))
  ∧ execo false vm_user (sh_il_jsr (op_at_r9 SH_SCALING_INVALID) 0x1000)
    = Some (set_pc (set_global vm_user "pr" (bv 32 (0x1000 + 4))) (32, 0x100)).
Proof.
  destruct (calls_and_jumps false (op_at_r9 SH_SCALING_INVALID) 0x1000 vm_user 0x100)
    as (Hj & Hs & _).
  - reflexivity.
  - reflexivity.
  - split; assumption.
Defined.


Lemma priv_bit_eval ac st d :
  vm_globals st !! SH_SR_D = Some (VBool d) →
  rz_il_evaluate_bitv ac st (sh_il_get_status_reg_bit SH_SR_D) = Some (32, Z.b2z d).
Proof. intros H. cbn. rewrite H. destruct d; reflexivity. Qed.

(** X15. In user mode (SR.MD clear) RTE, SLEEP, and STC from a register
    other than GBR append the event [SuperH: RESINST] to the VM and
    return NULL. *)
Theorem privileged_fault_in_user_mode (ac : bool) (op : SHOp) (pc : Z) (st : VM) :
  vm_globals st !! SH_SR_D = Some (VBool false) →
  sh_il_rte ac op pc st = Some (None, rz_il_vm_event_add st "SuperH: RESINST")
  ∧ sh_il_sleep ac op pc st = Some (None, rz_il_vm_event_add st "SuperH: RESINST")
  ∧ (Rm op ≠ SH_REG_IND_GBR →
     sh_il_stc ac op pc st = Some (None, rz_il_vm_event_add st "SuperH: RESINST")).
Proof.
  intros Hd. pose proof (priv_bit_eval ac st false Hd) as E.
  unfold sh_il_rte, sh_il_sleep, sh_il_stc. rewrite E. cbn [mbind option_bind].
  repeat split. intros Hg. unfold Rm in Hg. cbn [snd Z.b2z Z.eqb].
  destruct (Z.eqb_spec (param0 (op_param0 op)) SH_REG_IND_GBR); [contradiction |].
  reflexivity.
Qed.

(** RTE and SLEEP in user mode. *)
Lemma privileged_fault_in_user_mode_witness :
  sh_il_rte false op_r2 0 vm_user
  = Some (None, rz_il_vm_event_add vm_user "SuperH: RESINST")
  ∧ sh_il_sleep false op_r2 0 vm_user
    = Some (None, rz_il_vm_event_add vm_user "SuperH: RESINST").
Proof.
  destruct (privileged_fault_in_user_mode false op_r2 0 vm_user) as (Hr & Hs & _).
  - reflexivity.
  - split; assumption.
Defined.

Lemma set_status_reg_from ac st (e : Pure) w :
  0 <= w < 2 ^ 32 →
  (∀ st', eval ac st' e = Some (VBv 32 w) →
          ∀ n v, In n [SH_SR_T; SH_SR_S; SH_SR_I; SH_SR_Q; SH_SR_M; SH_SR_F; SH_SR_B; SH_SR_R] →
                 eval ac (set_global st' n v) e = Some (VBv 32 w)) →
  eval ac st e = Some (VBv 32 w) →
  execo ac st (sh_il_set_status_reg (Some e)) = Some (unpacked st w).
Proof.
  intros Hw Stable E0.
  let t := eval vm_compute in (sh_il_set_status_reg (Some e)) in
  change (sh_il_set_status_reg (Some e)) with t.
  unfold execo; cbn [mbind option_bind].
  pose proof (λ st (H : eval ac st e = Some (VBv 32 w)),
                eval_shr ac st e w 1 H Hw ltac:(lia)) as E1.
  pose proof (shr_range w 1 Hw ltac:(lia)) as R1.
  pose proof (λ st H, eval_shr ac st _ _ 3 (E1 st H) R1 ltac:(lia)) as E2.
  pose proof (shr_range _ 3 R1 ltac:(lia)) as R2.
  pose proof (λ st H, eval_shr ac st _ _ 4 (E2 st H) R2 ltac:(lia)) as E3.
  pose proof (shr_range _ 4 R2 ltac:(lia)) as R3.
  pose proof (λ st H, eval_shr ac st _ _ 1 (E3 st H) R3 ltac:(lia)) as E4.
  pose proof (shr_range _ 1 R3 ltac:(lia)) as R4.
  pose proof (λ st H, eval_shr ac st _ _ 6 (E4 st H) R4 ltac:(lia)) as E5.
  pose proof (shr_range _ 6 R4 ltac:(lia)) as R5.
  pose proof (λ st H, eval_shr ac st _ _ 13 (E5 st H) R5 ltac:(lia)) as E6.
  pose proof (shr_range _ 13 R5 ltac:(lia)) as R6.
  pose proof (λ st H, eval_shr ac st _ _ 1 (E6 st H) R6 ltac:(lia)) as E7.
  pose proof (shr_range _ 1 R6 ltac:(lia)) as R7.
  pose proof (λ st H, eval_shr ac st _ _ 1 (E7 st H) R7 ltac:(lia)) as E8.
  pose proof (shr_range _ 1 R7 ltac:(lia)) as R8.
  cbn [exec mbind option_bind].
  erewrite eval_flag; [| exact E0 | exact Hw | lia]; cbn [mbind option_bind].
  erewrite eval_flag;
    [| apply E1; repeat (apply Stable; [| cbn; tauto]); exact E0 | exact R1 | lia];
    cbn [mbind option_bind].
  erewrite eval_flag;
    [| apply E2; repeat (apply Stable; [| cbn; tauto]); exact E0 | exact R2 | lia];
    cbn [mbind option_bind].
  erewrite eval_flag;
    [| apply E3; repeat (apply Stable; [| cbn; tauto]); exact E0 | exact R3 | lia];
    cbn [mbind option_bind].
  erewrite eval_flag;
    [| apply E4; repeat (apply Stable; [| cbn; tauto]); exact E0 | exact R4 | lia];
    cbn [mbind option_bind].
  erewrite eval_flag;
    [| apply E5; repeat (apply Stable; [| cbn; tauto]); exact E0 | exact R5 | lia];
    cbn [mbind option_bind].
  erewrite eval_flag;
    [| apply E6; repeat (apply Stable; [| cbn; tauto]); exact E0 | exact R6 | lia];
    cbn [mbind option_bind].
  erewrite eval_flag;
    [| apply E7; repeat (apply Stable; [| cbn; tauto]); exact E0 | exact R7 | lia];
    cbn [mbind option_bind].
  erewrite eval_flag;
    [| apply E8; repeat (apply Stable; [| cbn; tauto]); exact E0 | exact R8 | lia];
    cbn [mbind option_bind].
  rewrite !Z.shiftr_shiftr by lia. cbn [Z.add Pos.add Pos.succ].
  rewrite <- (Z.shiftr_0_r w) at 1.
  rewrite !flag_bit by lia.
  reflexivity.
Qed.

(** X16. In privileged mode RTE returns an effect, raising no event, that
    sets every status flag from its bit of SSR (the interrupt mask flag
    from whether bits 4 to 7 are not all zero) and then sets the program
    counter to SPC. *)
Theorem rte_restores_status_and_pc (ac : bool) (op : SHOp) (pc : Z) (st : VM) (w a : Z) :
  vm_globals st !! SH_SR_D = Some (VBool true) →
  vm_globals st !! "ssr"%string = Some (VBv 32 w) →
  vm_globals st !! "spc"%string = Some (VBv 32 a) →
  0 <= w < 2 ^ 32 →
  ∃ eff : Effect,
    sh_il_rte ac op pc st = Some (Some eff, st)
    ∧ exec ac st eff = Some (set_pc (unpacked st w) (32, a)).
Proof.
  intros Hd Hssr Hspc Hw. pose proof (priv_bit_eval ac st true Hd) as E.
  unfold sh_il_rte. rewrite E. cbn [mbind option_bind snd Z.b2z Z.eqb].
  assert (X : execo ac st (sh_il_set_status_reg (VARG "ssr"%string)) = Some (unpacked st w)).
  { apply set_status_reg_from; [assumption | | exact Hssr].
    intros st' E' n v Hn. cbn in E' |- *.
    rewrite lookup_insert_ne; [exact E' |].
    cbn in Hn. intuition (subst; discriminate). }
  destruct (sh_il_set_status_reg (VARG "ssr"%string)) as [e |] eqn:Es; [| discriminate].
  cbn in X. eexists. split; [reflexivity |].
  cbn [exec]. rewrite X. cbn [mbind option_bind eval].
  unfold unpacked. rewrite !globals_set_global, !lookup_insert_ne by discriminate.
  rewrite Hspc. reflexivity.
Qed.

(** RTE in privileged mode with [SSR = 0x40000001] and [SPC = 0x2000]. *)
Lemma rte_restores_status_and_pc_witness :
  ∃ eff : Effect,
    sh_il_rte false op_r2 0 vm_privileged = Some (Some eff, vm_privileged)
    ∧ exec false vm_privileged eff
      = Some (set_pc (unpacked vm_privileged 0x40000001) (32, 0x2000)).
Proof.
  apply (rte_restores_status_and_pc false op_r2 0 vm_privileged 0x40000001 0x2000).
  - reflexivity.
  - reflexivity.
  - reflexivity.
  - lia.
Defined.

Lemma set_reg_null (reg : Z) : sh_il_set_reg reg None = None.
Proof.
  unfold sh_il_set_reg.
  destruct (sh_valid_gpr reg), (sh_banked_reg reg); cbn [negb]; try reflexivity.
  - destruct (sh_get_banked_reg reg 1), (sh_get_banked_reg reg 0); reflexivity.
  - destruct (reg =? SH_REG_IND_SR); [reflexivity |].
    destruct (sh_registers !! Z.to_nat reg); reflexivity.
Qed.

Lemma set_param_direct_null (param : SHParam) (scaling : SHScaling) (pc : Z) :
  mode param = SH_REG_DIRECT → sh_il_set_param_pc param None scaling pc = None.
Proof.
  intros M. unfold sh_il_set_param_pc, sh_il_get_effective_addr_pc, sh_il_get_param_pc.
  rewrite M. cbn [SIGNED fmap option_fmap option_map]. rewrite set_reg_null.
  destruct scaling; reflexivity.
Qed.

Lemma get_param_direct_invalid (param : SHParam) (scaling : SHScaling) (pc : Z) :
  mode param = SH_REG_DIRECT → sh_valid_gpr (param0 param) = false →
  pure (sh_il_get_param_pc param scaling pc) = None.
Proof.
  intros M V. unfold sh_il_get_param_pc. rewrite M, (get_reg_invalid _ V).
  destruct scaling; reflexivity.
Qed.

(** X17. Transfers that name a register outside the general registers as
    a register-direct operand produce no effect: LDS to it, STS from it,
    and STC from it when no fault is raised, return NULL.  NEG with a
    register-direct destination returns NULL as well, its minuend being
    a cast of the null pointer. *)
Theorem special_register_moves_are_null (ac : bool) (op : SHOp) (pc : Z) (st : VM)
    (d : bool) :
  (mode (op_param1 op) = SH_REG_DIRECT →
   sh_valid_gpr (Rn op) = false →
   scaling op = SH_SCALING_INVALID ∨ scaling op = SH_SCALING_L →
   sh_il_lds op pc = None)
  ∧ (mode (op_param0 op) = SH_REG_DIRECT →
     sh_valid_gpr (Rm op) = false →
     mode (op_param1 op) = SH_REG_DIRECT →
     sh_il_sts op pc = None
     ∧ (vm_globals st !! SH_SR_D = Some (VBool d) →
        d = true ∨ Rm op = SH_REG_IND_GBR →
        sh_il_stc ac op pc st = Some (None, st)))
  ∧ (mode (op_param1 op) = SH_REG_DIRECT → sh_il_neg op pc = None).
Proof.
  split; [| split].
  - intros M1 V S. unfold sh_il_lds, sh_il_set_pure_param. cbn [op_param].
    rewrite !(set_param_direct_invalid _ _ _ _ M1 V).
    destruct S as [-> | ->]; reflexivity.
  - intros M0 V M1.
    assert (P : sh_il_get_pure_param op pc 0 = None)
      by (apply get_param_direct_invalid; assumption).
    assert (N : sh_il_set_pure_param op pc 1 None = None)
      by (apply set_param_direct_null; assumption).
    split.
    + unfold sh_il_sts. rewrite P. exact N.
    + intros Hd Hp. unfold sh_il_stc. rewrite (priv_bit_eval ac st d Hd).
      cbn [mbind option_bind snd]. fold (Rm op). rewrite V.
      unfold Rm in P. rewrite P, N.
      destruct Hp as [-> | ->].
      * destruct (negb (Rm op =? SH_REG_IND_GBR)); reflexivity.
      * destruct d; reflexivity.
  - intros M1. unfold sh_il_neg. cbn [UNSIGNED SUB bin fmap option_fmap option_map mbind
      option_bind]. apply set_param_direct_null. assumption.
Qed.

(** STS MACH, R2 and, in privileged mode, STC from register number 24. *)
Lemma special_register_moves_are_null_witness :
  sh_il_sts op_mach_r2 0 = None
  ∧ sh_il_stc false op_mach_r2 0 vm_privileged = Some (None, vm_privileged).
Proof.
  destruct (special_register_moves_are_null false op_mach_r2 0 vm_privileged true)
    as (_ & H & _).
  destruct H as [Hsts Hstc]; [reflexivity | reflexivity | reflexivity |].
  split; [exact Hsts |]. apply Hstc; [reflexivity | left; reflexivity].
Defined.


(** X18. MOV.B @Rm, Rn and MOV.W @Rm, Rn load 8 or 16 bits from the address
    in [Rm] and write them to [Rn] sign-extended to 32 bits. *)
Theorem mov_load_sign_extends (ac : bool) (op : SHOp) (pc : Z) (st : VM) (a bits : Z) :
  mode (op_param0 op) = SH_REG_INDIRECT →
  mode (op_param1 op) = SH_REG_DIRECT →
  scaling op = SH_SCALING_B ∧ bits = 8 ∨ scaling op = SH_SCALING_W ∧ bits = 16 →
  read_reg st (Rm op) = Some (VBv 32 a) →
  is_Some (cur_reg st (Rn op)) →
  execo ac st (sh_il_mov op pc)
  = write_reg st (Rn op) (bv 32 (to_signed bits (loadw st bits a mod 2 ^ bits))).
Proof.
  intros M0 M1 S Ra [nn Cn]. unfold read_reg in Ra.
  destruct (cur_reg st (Rm op)) as [nm |] eqn:Cm; [| discriminate].
  cbn [mbind option_bind] in Ra.
  destruct (eval_get_reg ac st _ nm Cm) as (g & G & Eg).
  destruct (exec_set_reg ac st _ nn Cn) as (sn & Sn & Xn).
  unfold write_reg. rewrite Cn. cbn [mbind option_bind].
  unfold sh_il_mov, sh_il_set_pure_param, sh_il_get_param, sh_il_get_param_pc,
    sh_il_set_param_pc, sh_il_get_effective_addr_pc.
  cbn [op_param]. rewrite M0, M1. fold (Rm op) (Rn op). rewrite G.
  destruct S as [[-> ->] | [-> ->]];
    cbn [pure pre post LOADW SIGNED fmap option_fmap option_map]; rewrite Sn;
    cbn [sh_apply_effects execo mbind option_bind];
    (erewrite Xn; [reflexivity | assumption |]);
    cbn [eval]; rewrite (Eg _ Cm), Ra; reflexivity.
Qed.

(** MOV.B @R9, R2 with the byte [0x80] at the address in R9. *)
Lemma mov_load_sign_extends_witness :
  execo false vm_user (sh_il_mov (op_at_r9 SH_SCALING_B) 0)
  = write_reg vm_user (Rn (op_at_r9 SH_SCALING_B))
      (bv 32 (to_signed 8 (loadw vm_user 8 0x100 mod 2 ^ 8))).
Proof.
  apply (mov_load_sign_extends false (op_at_r9 SH_SCALING_B) 0 vm_user 0x100 8).
  - reflexivity.
  - reflexivity.
  - left; split; reflexivity.
  - reflexivity.
  - eexists; reflexivity.
Defined.

(** X19. MOV.L @Rm+, Rn with [m ≠ n] writes the longword at the address in
    [Rm] to [Rn], and then adds 4 to [Rm]. *)
Theorem mov_post_increment (ac : bool) (op : SHOp) (pc : Z) (st : VM) (a : Z) :
  mode (op_param0 op) = SH_REG_INDIRECT_I →
  mode (op_param1 op) = SH_REG_DIRECT →
  scaling op = SH_SCALING_L →
  Rm op ≠ Rn op →
  read_reg st (Rm op) = Some (VBv 32 a) →
  is_Some (cur_reg st (Rn op)) →
  execo ac st (sh_il_mov op pc)
  = (st1 ← write_reg st (Rn op) (bv 32 (loadw st 32 a));
     write_reg st1 (Rm op) (bv 32 (a + 4))).
Proof.
  intros M0 M1 S Hne Ra [nn Cn]. unfold read_reg in Ra.
  destruct (cur_reg st (Rm op)) as [nm |] eqn:Cm; [| discriminate].
  cbn [mbind option_bind] in Ra.
  assert (Nmn : nm ≠ nn) by (intros ->; apply Hne; eapply cur_reg_inj; eassumption).
  destruct (eval_get_reg ac st _ nm Cm) as (g & G & Eg).
  destruct (exec_set_reg ac st _ nm Cm) as (sm & Sm & Xm).
  destruct (exec_set_reg ac st _ nn Cn) as (sn & Sn & Xn).
  unfold write_reg. rewrite Cn. cbn [mbind option_bind].
  rewrite (cur_reg_write _ _ _ _ _ Cn), Cm. cbn [mbind option_bind].
  unfold sh_il_mov, sh_il_set_pure_param, sh_il_get_param, sh_il_get_param_pc,
    sh_il_set_param_pc, sh_il_get_effective_addr_pc.
  cbn [op_param]. rewrite M0, M1, S. fold (Rm op) (Rn op). rewrite G.
  cbn [pure pre post LOADW ADD SH_U_ADDR UN bin mbind option_bind fmap option_fmap
       option_map].
  rewrite Sn, Sm. cbn [sh_apply_effects SEQ2 execo mbind option_bind exec].
  erewrite Xn; [| assumption | cbn [eval]; rewrite (Eg _ Cm), Ra; reflexivity].
  cbn [mbind option_bind].
  erewrite Xm; [reflexivity | rewrite (cur_reg_write _ _ _ _ _ Cn); assumption |].
  cbn [eval]. rewrite Eg by (rewrite (cur_reg_write _ _ _ _ _ Cn); assumption).
  rewrite globals_set_global, lookup_insert_ne, Ra by congruence.
  cbn -[Z.pow Z.modulo Z.add]. unfold bv, SH_ADDR_SIZE.
  rewrite (Z.mod_small 4) by lia. reflexivity.
Qed.

(** MOV.L @R9+, R2 with [R9 = 0x100]. *)
Lemma mov_post_increment_witness :
  execo false vm_user (sh_il_mov op_at_r9_inc 0)
  = (st1 ← write_reg vm_user (Rn op_at_r9_inc) (bv 32 (loadw vm_user 32 0x100));
     write_reg st1 (Rm op_at_r9_inc) (bv 32 (0x100 + 4))).
Proof.
  apply (mov_post_increment false op_at_r9_inc 0 vm_user 0x100).
  - reflexivity.
  - reflexivity.
  - reflexivity.
  - vm_compute. discriminate.
  - reflexivity.
  - eexists; reflexivity.
Defined.

(** X20. MOV.L Rm, @-Rn with [m ≠ n] first subtracts 4 from [Rn], and then
    stores [Rm] as a longword at the new address in [Rn]. *)
Theorem mov_pre_decrement (ac : bool) (op : SHOp) (pc : Z) (st : VM) (x y : Z) :
  mode (op_param0 op) = SH_REG_DIRECT →
  mode (op_param1 op) = SH_REG_INDIRECT_D →
  scaling op = SH_SCALING_L →
  Rm op ≠ Rn op →
  read_reg st (Rm op) = Some (VBv 32 x) →
  read_reg st (Rn op) = Some (VBv 32 y) →
  execo ac st (sh_il_mov op pc)
  = (st1 ← write_reg st (Rn op) (bv 32 (y - 4));
     Some (set_mem st1 (storew st1 32 ((y - 4) mod 2 ^ 32) x))).
Proof.
  intros M0 M1 S Hne Rx Ry. unfold read_reg in Rx, Ry.
  destruct (cur_reg st (Rm op)) as [nm |] eqn:Cm; [| discriminate].
  destruct (cur_reg st (Rn op)) as [nn |] eqn:Cn; [| discriminate].
  cbn [mbind option_bind] in Rx, Ry.
  assert (Nmn : nm ≠ nn) by (intros ->; apply Hne; eapply cur_reg_inj; eassumption).
  destruct (eval_get_reg ac st _ nm Cm) as (gm & Gm & Egm).
  destruct (eval_get_reg ac st _ nn Cn) as (gn & Gn & Egn).
  destruct (exec_set_reg ac st _ nn Cn) as (sn & Sn & Xn).
  unfold write_reg. rewrite Cn. cbn [mbind option_bind].
  unfold sh_il_mov, sh_il_set_pure_param, sh_il_get_param, sh_il_get_param_pc,
    sh_il_set_param_pc, sh_il_get_effective_addr_pc.
  unfold sh_il_get_param_pc.
  cbn [op_param]. rewrite M0, M1, S. fold (Rm op) (Rn op). rewrite Gm, Gn.
  cbn [pure pre post LOADW SUB SH_U_ADDR UN bin mbind option_bind fmap option_fmap
       option_map STOREW].
  rewrite Sn. cbn [sh_apply_effects SEQ2 execo mbind option_bind exec].
  erewrite Xn; [| assumption | cbn [eval]; rewrite (Egn _ Cn), Ry; reflexivity].
  cbn [mbind option_bind].
  rewrite Egn, Egm by (rewrite (cur_reg_write _ _ _ _ _ Cn); assumption).
  rewrite !globals_set_global, lookup_insert_eq, lookup_insert_ne, Rx by congruence.
  cbn -[Z.pow Z.modulo Z.sub storew]. unfold bv, SH_ADDR_SIZE.
  rewrite (Z.mod_small 4) by lia. reflexivity.
Qed.

(** MOV.L R1, @-R9 with [R1 = 0xffffffff] and [R9 = 0x100]. *)
Lemma mov_pre_decrement_witness :
  execo false vm_user (sh_il_mov op_r1_at_dec_r9 0)
  = (st1 ← write_reg vm_user (Rn op_r1_at_dec_r9) (bv 32 (0x100 - 4));
     Some (set_mem st1 (storew st1 32 ((0x100 - 4) mod 2 ^ 32) 0xffffffff))).
Proof.
  apply (mov_pre_decrement false op_r1_at_dec_r9 0 vm_user 0xffffffff 0x100).
  - reflexivity.
  - reflexivity.
  - reflexivity.
  - vm_compute. discriminate.
  - reflexivity.
  - reflexivity.
Defined.

(** X21. TAS.B @Rn sets T exactly when the byte at the address in [Rn] is
    zero, and then stores that byte with its most significant bit
    set. *)
Theorem tas_tests_and_sets (ac : bool) (op : SHOp) (pc : Z) (st : VM) (a : Z) :
  mode (op_param0 op) = SH_REG_INDIRECT →
  scaling op = SH_SCALING_B →
  read_reg st (Rm op) = Some (VBv 32 a) →
  let b := loadw st 8 a mod 2 ^ 8 in
  let st1 := set_global st SH_SR_T (VBool (b =? 0)) in
  execo ac st (sh_il_tas op pc)
  = Some (set_mem st1 (storew st1 8 a (Z.lor b 0x80 mod 2 ^ 8))).
Proof.
  intros M0 S Ra b st1. unfold read_reg in Ra.
  destruct (cur_reg st (Rm op)) as [nm |] eqn:Cm; [| discriminate].
  cbn [mbind option_bind] in Ra.
  destruct (eval_get_reg ac st _ nm Cm) as (g & G & Eg).
  pose proof (gpr_name_not_flag _ (cur_reg_name _ _ _ Cm)) as (? & ? & NT & _).
  assert (C1 : cur_reg st1 (Rm op) = Some nm)
    by (unfold st1; rewrite cur_reg_set_global by discriminate; assumption).
  unfold sh_il_tas, sh_il_set_pure_param, sh_il_get_pure_param, sh_il_get_param,
    sh_il_get_param_pc, sh_il_set_param_pc, sh_il_get_effective_addr_pc.
  unfold sh_il_get_param_pc, sh_il_get_effective_addr_pc.
  cbn [op_param]. rewrite M0, S. fold (Rm op). rewrite G.
  cbn [pure pre post LOADW IS_ZERO LOGOR DUP UN un bin SETG SEQ2 STOREW mbind option_bind
       fmap option_fmap option_map str_ptr sh_apply_effects execo exec].
  cbn [eval]. rewrite (Eg _ Cm), Ra.
  cbn -[Z.pow Z.modulo loadw storew Z.lor].
  change (BITS_PER_BYTE * 1) with 8. fold b. fold st1.
  assert (H1 : vm_globals st1 !! nm = Some (VBv 32 a))
    by (unfold st1; rewrite globals_set_global, lookup_insert_ne by congruence; assumption).
  rewrite (Eg _ C1), H1.
  cbn -[Z.pow Z.modulo loadw storew Z.lor].
  change (loadw st1 8 a) with (loadw st 8 a). fold b.
  unfold bv. rewrite (Z.mod_small 128) by lia. reflexivity.
Qed.

(** TAS.B @R9 with the byte [0x80] at the address in R9. *)
Lemma tas_tests_and_sets_witness :
  let b := loadw vm_user 8 0x100 mod 2 ^ 8 in
  let st1 := set_global vm_user SH_SR_T (VBool (b =? 0)) in
  execo false vm_user (sh_il_tas (op_at_r9 SH_SCALING_B) 0)
  = Some (set_mem st1 (storew st1 8 0x100 (Z.lor b 0x80 mod 2 ^ 8))).
Proof.
  apply (tas_tests_and_sets false (op_at_r9 SH_SCALING_B) 0 vm_user 0x100).
  - reflexivity.
  - reflexivity.
  - reflexivity.
Defined.

(** *** The division step *)

(** A register write whose value does not evaluate does not execute. *)
Lemma set_reg_stuck ac st reg val e :
  sh_il_set_reg reg (Some val) = Some e →
  eval ac st val = None →
  exec ac st e = None.
Proof.
  unfold sh_il_set_reg.
  destruct (sh_valid_gpr reg) eqn:V; cbn [negb]; [| discriminate].
  destruct (sh_banked_reg reg) eqn:B; cbn [negb].
  - destruct (sh_get_banked_reg reg 1) as [n1 |], (sh_get_banked_reg reg 0) as [n0 |];
      cbn; try discriminate.
    intros [= <-] Ev. cbn [exec].
    destruct (eval ac st (PBin OBoolAnd _ _)) as [vc |]; cbn [mbind option_bind];
      [| reflexivity].
    destruct (as_bool ac vc) as [[] |]; cbn [mbind option_bind exec];
      rewrite ?Ev; reflexivity.
  - destruct (reg =? SH_REG_IND_SR) eqn:E.
    + apply Z.eqb_eq in E. subst reg. discriminate V.
    + destruct (sh_registers !! Z.to_nat reg) as [n |]; cbn; [| discriminate].
      intros [= <-] Ev. cbn. rewrite Ev. reflexivity.
Qed.

Lemma set_param_stuck ac op pc (x : nat) val e st :
  mode (op_param op x) = SH_REG_DIRECT →
  whole_register op →
  sh_il_set_pure_param op pc x (Some val) = Some e →
  eval ac st val = None →
  exec ac st e = None.
Proof.
  intros M W. unfold sh_il_set_pure_param, sh_il_set_param_pc. rewrite M.
  intros S Ev.
  assert (S' : sh_il_set_reg (param0 (op_param op x)) (Some val) = Some e).
  { destruct W as [W | W]; rewrite W in S;
      (destruct (sh_il_set_reg (param0 (op_param op x)) (Some val)) as [e' |];
       [cbn in S; exact S |]);
      unfold sh_il_get_param_pc, sh_il_get_effective_addr_pc in S; rewrite M in S;
      cbn in S; discriminate S. }
  eapply set_reg_stuck; eassumption.
Qed.

(** Sequences and branches, one step at a time. *)
Lemma exec_seq_none ac st x y :
  exec ac st x = None → exec ac st (ESeq x y) = None.
Proof. intros E. cbn. rewrite E. reflexivity. Qed.

Lemma exec_branch ac st c v b t e :
  eval ac st c = Some v → as_bool ac v = Some b →
  exec ac st (EBranch c t e) = if b then exec ac st t else exec ac st e.
Proof. intros E B. cbn [exec]. rewrite E. cbn. rewrite B. destruct b; reflexivity. Qed.

(** DIV1 under either evaluator: the tree is returned, and it stops at
    the boolean OR of the initial sequence (strict sorts) or at the
    addition or subtraction of the selected arm (converting sorts, where
    the OR has left a boolean in the dividend register). *)
Lemma div1_stuck (ac : bool) (op : SHOp) (pc : Z) (st : VM) (x y : Z) (q m t : bool) :
  reg_reg op →
  read_reg st (Rm op) = Some (VBv 32 x) →
  read_reg st (Rn op) = Some (VBv 32 y) →
  vm_globals st !! SH_SR_Q = Some (VBool q) →
  vm_globals st !! SH_SR_M = Some (VBool m) →
  vm_globals st !! SH_SR_T = Some (VBool t) →
  ac = false ∨ Rm op ≠ Rn op →
  ∃ e, sh_il_div1 op pc = Some e ∧ exec ac st e = None.
Proof.
  intros (M0 & M1 & W) Rx Ry Hq Hm Ht Hc.
  regs_in st op pc ac M0 M1 W Rx Ry.
  assert (Stuck : ∀ st' val, eval ac st' val = None → exec ac st' (sn val) = None).
  { intros st' val Ev. exact (set_param_stuck ac op pc 1%nat val _ st' M1 W (Sn val) Ev). }
  destruct (gpr_name_not_flag nn (cur_reg_name _ _ _ Cn)) as (Nd & Nr & Nt & Nq & Nm & _).
  destruct (gpr_name_not_flag nm (cur_reg_name _ _ _ Cm)) as (Md & Mr & Mt & Mq & Mm & _).
  unfold sh_il_div1, sh_il_get_status_reg_bit. cbv zeta. rewrite Gm, Gn.
  cbn [SETL SETG MSB SHIFTL0 OR UNSIGNED SUB ADD UGT ULT EQ IS_ZERO VARL BRANCH SEQ2 SEQ3 SEQ4
       sh_il_get_status_reg_bit ITE VARG str_ptr SH_TRUE SH_FALSE SH_U_REG UN
       un bin mbind option_bind fmap option_fmap option_map].
  rewrite !Sn.
  cbn [SETL SETG MSB SHIFTL0 OR UNSIGNED SUB ADD UGT ULT EQ IS_ZERO VARL BRANCH SEQ2 SEQ3 SEQ4
       ITE VARG str_ptr SH_TRUE SH_FALSE SH_U_REG UN
       un bin mbind option_bind fmap option_fmap option_map].
  eexists; split; [reflexivity |].
  unfold SH_REG_SIZE.
  set (st1 := set_local st "old_q" (VBv 32 (Z.b2z q))).
  set (st2 := set_global st1 SH_SR_Q (VBool (Z.testbit y 31))).
  set (st3 := set_global st2 nn (bv 32 (Z.shiftl y 1))).
  assert (C3 : ∀ r, cur_reg st3 r = cur_reg st r).
  { intros r. unfold st3. rewrite (cur_reg_write st2 (Rn op) nn).
    - unfold st2. rewrite cur_reg_set_global by discriminate. reflexivity.
    - unfold st2. rewrite cur_reg_set_global by discriminate. exact Cn. }
  assert (E1 : exec ac st (ESetL "old_q" (PIte (PVarG SH_SR_Q) (PBv 32 1) (PBv 32 0)))
               = Some st1).
  { cbn [exec]. rewrite (eval_status_bit ac st _ q Hq). reflexivity. }
  assert (E2 : exec ac st1 (ESetG SH_SR_Q (PUn OMsb gn)) = Some st2).
  { apply exec_setg. cbn [eval]. rewrite (En st1 Cn). cbn [st1 set_local vm_globals].
    rewrite Ry. reflexivity. }
  assert (E3 : exec ac st2 (sn (PBin OShiftL0 gn (PBv 32 1))) = Some st3).
  { apply Xn.
    - unfold st2. rewrite cur_reg_set_global by discriminate. exact Cn.
    - cbn [eval]. rewrite En by (unfold st2; rewrite cur_reg_set_global by discriminate; exact Cn).
      cbn [st2 st1 set_global set_local vm_globals].
      rewrite lookup_insert_ne by congruence. rewrite Ry. reflexivity. }
  assert (V4 : eval ac st3 (PBin OBoolOr gn
                               (PCast false 32 (PIte (PVarG SH_SR_T) (PBv 32 1) (PBv 32 0))))
               = if ac then Some (VBool (negb (Z.shiftl y 1 mod 2 ^ 32 =? 0) || t)) else None).
  { cbn [eval]. rewrite En by (rewrite C3; exact Cn).
    assert (Gt : vm_globals st3 !! SH_SR_T = Some (VBool t)).
    { cbn [st3 st2 st1 set_global set_local vm_globals].
      rewrite !lookup_insert_ne by (discriminate || congruence). exact Ht. }
    rewrite Gt. cbn [st3 set_global vm_globals]. rewrite lookup_insert_eq.
    destruct ac, t; reflexivity. }
  destruct ac.
  - destruct Hc as [Hc | Hc]; [discriminate |].
    assert (Hne : nm ≠ nn).
    { intros ->. apply Hc. exact (cur_reg_inj st _ _ _ Cm Cn). }
    set (b := negb (Z.shiftl y 1 mod 2 ^ 32 =? 0) || t) in V4.
    set (st4 := set_global st3 nn (VBool b)).
    assert (C4 : ∀ r, cur_reg st4 r = cur_reg st r).
    { intros r. unfold st4. rewrite (cur_reg_write st3 (Rn op) nn), C3; [reflexivity |].
      rewrite C3. exact Cn. }
    assert (E4 : exec true st3 (sn (PBin OBoolOr gn
                   (PCast false 32 (PIte (PVarG SH_SR_T) (PBv 32 1) (PBv 32 0))))) = Some st4).
    { apply Xn; [rewrite C3; exact Cn | exact V4]. }
    erewrite exec_seq;
      [| rewrite (exec_seq true st st1 _ _ E1), (exec_seq true st1 st2 _ _ E2),
           (exec_seq true st2 st3 _ _ E3); exact E4].
    apply exec_seq_none.
    assert (Gn4 : vm_globals st4 !! nn = Some (VBool b))
      by (cbn [st4 set_global vm_globals]; apply lookup_insert_eq).
    assert (Gm4 : vm_globals st4 !! nm = Some (VBv 32 x)).
    { cbn [st4 st3 st2 st1 set_global set_local vm_globals].
      rewrite !lookup_insert_ne by congruence. exact Rx. }
    assert (GM4 : vm_globals st4 !! SH_SR_M = Some (VBool m)).
    { cbn [st4 st3 st2 st1 set_global set_local vm_globals].
      rewrite !lookup_insert_ne by (discriminate || congruence). exact Hm. }
    assert (L4 : vm_locals st4 !! "old_q"%string = Some (VBv 32 (Z.b2z q)))
      by (cbn [st4 st3 st2 st1 set_global set_local vm_locals]; apply lookup_insert_eq).
    assert (Arm : ∀ arith rest, arith = OSub ∨ arith = OAdd →
              exec true st4 (ESeq (ESetL "tmp0" gn) (ESeq (sn (PBin arith gn gm)) rest))
              = None).
    { intros arith rest Ha.
      erewrite exec_seq;
        [| cbn [exec]; rewrite En by (rewrite C4; exact Cn); rewrite Gn4; reflexivity].
      apply exec_seq_none, Stuck. cbn [eval].
      rewrite En, Em by (rewrite cur_reg_set_local, C4; assumption).
      cbn [set_local vm_globals]. rewrite Gn4, Gm4.
      destruct Ha as [-> | ->]; reflexivity. }
    erewrite exec_branch; [| cbn [eval]; exact L4 | reflexivity].
    destruct q; cbn [Z.b2z Z.eqb negb];
      (erewrite exec_branch; [| exact (eval_status_bit true st4 _ m GM4) | reflexivity]);
      destruct m; cbn [Z.b2z Z.eqb negb]; apply Arm; auto.
  - apply exec_seq_none.
    rewrite (exec_seq false st st1 _ _ E1), (exec_seq false st1 st2 _ _ E2),
      (exec_seq false st2 st3 _ _ E3).
    apply Stuck, V4.
Qed.

(** C3, where it fails.  For DIV1 Rm, Rn on whole registers, in a VM whose
    registers hold 32-bit values and whose flags Q, M and T are booleans,
    the lifter returns an effect, and the effect does not execute.  Its
    initial sequence writes [OR(Rn, UNSIGNED(32, T))] to [Rn] with the
    boolean OR on two 32-bit operands: an evaluator that keeps booleans
    and bitvectors apart stops there; one that converts between them
    leaves a boolean in [Rn], and the addition or subtraction of the
    divisor in the selected arm stops on the operand widths (for two
    different registers).  No arm adds or subtracts the divisor, Q is not
    toggled and the final effect that sets T is not reached. *)
Theorem div1_does_not_execute (op : SHOp) (pc : Z) (st : VM) (x y : Z) (q m t : bool) :
  reg_reg op →
  read_reg st (Rm op) = Some (VBv 32 x) →
  read_reg st (Rn op) = Some (VBv 32 y) →
  vm_globals st !! SH_SR_Q = Some (VBool q) →
  vm_globals st !! SH_SR_M = Some (VBool m) →
  vm_globals st !! SH_SR_T = Some (VBool t) →
  sh_il_div1 op pc ≠ None
  ∧ execo false st (sh_il_div1 op pc) = None
  ∧ (Rm op ≠ Rn op → execo true st (sh_il_div1 op pc) = None).
Proof.
  intros R Rx Ry Hq Hm Ht.
  destruct (div1_stuck false op pc st x y q m t R Rx Ry Hq Hm Ht (or_introl eq_refl))
    as (e & He & Xe).
  split; [rewrite He; discriminate |].
  split; [rewrite He; exact Xe |].
  intros Hne.
  destruct (div1_stuck true op pc st x y q m t R Rx Ry Hq Hm Ht (or_intror Hne))
    as (e' & He' & Xe').
  rewrite He'. exact Xe'.
Qed.

(** DIV1 R1, R2 with the divisor 3 in R1, the dividend 16 in R2 and Q, M
    and T clear, under both evaluators. *)
Lemma div1_does_not_execute_witness :
  sh_il_div1 div1_r1_r2 0 ≠ None
  ∧ execo false (div1_vm false false false) (sh_il_div1 div1_r1_r2 0) = None
  ∧ execo true (div1_vm false false false) (sh_il_div1 div1_r1_r2 0) = None.
Proof.
  destruct (div1_does_not_execute div1_r1_r2 0 (div1_vm false false false) 3 16
              false false false) as (Hr & Hs & Hc).
  - repeat split; left; reflexivity.
  - reflexivity.
  - reflexivity.
  - reflexivity.
  - reflexivity.
  - reflexivity.
  - split; [exact Hr |]. split; [exact Hs |]. apply Hc. discriminate.
Defined.

End SHInsn.

(** ** Further properties of the register binding and the sync *)

Module RegMore.
Import IL Reg Spec BitFacts ILFacts RegProofs.

Lemma profile_filled_wf : wf_profile profile_filled.
Proof. exact profile_sample_wf. Qed.

(** X22. [rz_il_reg_binding_exactly] returns NULL exactly when one of the
    given names is not a register of the profile.  Otherwise the binding
    has the given names in their order, each with the size of the
    register of that name. *)
Theorem binding_exactly_names_and_sizes (reg : RzReg) (regs : list string) :
  (rz_il_reg_binding_exactly reg regs = None
   ↔ ∃ n, n ∈ regs ∧ rz_reg_get reg n = None)
  ∧ ∀ rb, rz_il_reg_binding_exactly reg regs = Some rb →
      rb_name <$> rb = regs
      ∧ Forall (λ item, ∃ ri, rz_reg_get reg (rb_name item) = Some ri
                              ∧ rb_size item = size ri.2) rb.
Proof.
  induction regs as [| n rest [IHn IHs]]; cbn [rz_il_reg_binding_exactly].
  - split.
    + split; [discriminate |]. intros (n & Hn & _). inversion Hn.
    + intros rb [= <-]. split; [reflexivity | constructor].
  - destruct (rz_reg_get reg n) as [ri |] eqn:Hget; cbn [mbind option_bind].
    + destruct (rz_il_reg_binding_exactly reg rest) as [rb' |]; cbn [mbind option_bind].
      * split.
        -- split; [discriminate |]. intros (m & Hm & Hnone).
           apply elem_of_cons in Hm as [-> | Hm]; [congruence |].
           discriminate (proj2 IHn (ex_intro _ m (conj Hm Hnone))).
        -- intros rb [= <-]. destruct (IHs rb' eq_refl) as [Hnames Hall].
           split; [cbn; rewrite Hnames; reflexivity |].
           constructor; [| exact Hall]. exists ri. split; [exact Hget | reflexivity].
      * split; [| discriminate].
        split; [| reflexivity]. intros _.
        destruct (proj1 IHn eq_refl) as (m & Hm & Hnone).
        exists m. split; [right; exact Hm | exact Hnone].
    + split; [| discriminate].
      split; [| reflexivity]. intros _. exists n. split; [left | exact Hget].
Qed.

(** The registers r0 and pc of [profile_two]. *)
Lemma binding_exactly_names_and_sizes_witness :
  rb_name <$> [mkBinding "r0" 32; mkBinding "pc" 32] = ["r0"; "pc"]%string
  ∧ Forall (λ item, ∃ ri, rz_reg_get profile_two (rb_name item) = Some ri
                          ∧ rb_size item = size ri.2)
      [mkBinding "r0" 32; mkBinding "pc" 32].
Proof.
  apply (proj2 (binding_exactly_names_and_sizes profile_two ["r0"; "pc"]%string)).
  reflexivity.
Defined.


(** The flags bound in one class have different offsets. *)
Lemma flags_fold_distinct regs acc :
  ForallOrdPairs (λ a b, offset a ≠ offset b) acc →
  ForallOrdPairs (λ a b, offset a ≠ offset b) (fold_left flags_step regs acc).
Proof.
  revert acc. induction regs as [| item regs IH]; intros acc Hacc; cbn; [exact Hacc |].
  apply IH. unfold flags_step.
  destruct (negb (size item =? 1)); [exact Hacc |].
  destruct (existsb (λ item2, offset item2 =? offset item) acc) eqn:Hex; [exact Hacc |].
  apply FOP_app; [exact Hacc | repeat constructor |].
  intros a b Ha [<- | []] Heq.
  apply not_true_iff_false in Hex. apply Hex, existsb_exists.
  exists a. split; [exact Ha | apply Z.eqb_eq, Heq].
Qed.

Lemma filter_nonflags_clear regs it f :
  In it (filter_nonflags (bind_flags regs) regs) → In f (bind_flags regs) →
  offset f < offset it ∨ offset it + size it <= offset f.
Proof.
  intros Hit Hf. unfold filter_nonflags in Hit. apply filter_In in Hit as [_ Hit].
  apply negb_true_iff in Hit.
  destruct (Z.lt_ge_cases (offset f) (offset it)) as [| Hge]; [left; assumption |].
  destruct (Z.le_gt_cases (offset it + size it) (offset f)) as [| Hlt]; [right; assumption |].
  exfalso. apply not_true_iff_false in Hit. apply Hit, existsb_exists.
  exists f. split; [exact Hf |].
  apply andb_true_iff. split; [apply Z.leb_le | apply Z.ltb_lt]; lia.
Qed.

Lemma flags_disjoint (l : list RzRegItem) :
  ForallOrdPairs (λ a b, offset a ≠ offset b) l →
  Forall (λ f, size f = 1) l →
  ForallOrdPairs
    (λ a b, offset a + size a <= offset b ∨ offset b + size b <= offset a) l.
Proof.
  intros Hd. induction Hd as [| a l Ha Hl IH]; intros Hone; constructor.
  - inversion Hone as [| ? ? Hsa Hsl]; subst.
    rewrite Forall_forall in Ha, Hsl. apply Forall_forall. intros b Hb.
    specialize (Ha b Hb). specialize (Hsl b Hb). cbn in Ha. lia.
  - apply IH. inversion Hone; assumption.
Qed.

(** No two registers bound in one class share a bit. *)
Lemma derive_regset_all_disjoint pc regs :
  Forall wf_item regs →
  ForallOrdPairs
    (λ a b, offset a + size a <= offset b ∨ offset b + size b <= offset a)
    (derive_regset pc regs).
Proof.
  intros Hwf. unfold derive_regset.
  set (items := rz_list_sort reg_offset_cmp _).
  assert (Hitems : ∀ it, In it items → In it (filter_nonflags (bind_flags regs) regs)).
  { intros it Hit. apply rz_list_sort_In in Hit.
    unfold rz_reg_filter_items_covered in Hit. apply filter_In in Hit as [Hit _]. exact Hit. }
  assert (Hsize : Forall (λ it, 0 <= size it) items).
  { apply Forall_forall. intros it Hit. apply list_elem_of_In, Hitems in Hit.
    apply filter_nonflags_size in Hit as [_ Hit].
    rewrite Forall_forall in Hwf. apply list_elem_of_In, Hwf in Hit. apply Hit. }
  destruct (bind_items_chain pc None items (rz_list_sort_sorted _) Hsize) as [Hchain _];
    [discriminate |].
  apply FOP_app.
  - apply flags_disjoint.
    + rewrite bind_flags_fold. apply flags_fold_distinct. constructor.
    + apply Forall_forall. intros f Hf. apply list_elem_of_In, bind_flags_size in Hf.
      exact Hf.
  - clear -Hchain. induction Hchain as [| a l Ha Hl IH]; constructor; [| exact IH].
    eapply Forall_impl; [exact Ha |]. cbn. intros; left; assumption.
  - intros a b Ha Hb. pose proof (bind_flags_size _ _ Ha) as Hsa.
    apply bind_items_In in Hb as [Hb _]. apply Hitems in Hb.
    destruct (filter_nonflags_clear regs b a Hb Ha); lia.
Qed.

Lemma derive_from_all_disjoint pc cls sets :
  Forall (Forall wf_item) sets →
  ForallOrdPairs regs_disjoint (derive_from pc cls sets).
Proof.
  intros Hwf. revert cls.
  induction Hwf as [| regs rest Hregs Hrest IH]; intros cls; cbn; [constructor |].
  apply FOP_app; [| apply IH |].
  - pose proof (derive_regset_all_disjoint pc regs Hregs) as H.
    induction H as [| a l Ha Hl IHl]; cbn; constructor; [| exact IHl].
    apply Forall_fmap. eapply Forall_impl; [exact Ha |].
    cbn. intros b Hab. right. exact Hab.
  - intros a b Ha Hb. left.
    apply list_elem_of_In, list_elem_of_fmap in Ha as (it & -> & _).
    apply derive_from_class in Hb. cbn. lia.
Qed.

(** X23. In the binding derived from a profile whose offsets and sizes are
    not negative, no two entries share a bit of the arena of their class,
    flags included. *)
Theorem derived_binding_entries_disjoint (reg : RzReg) :
  wf_profile reg →
  ∀ (i j : nat) (a b : Located),
    (i < j)%nat →
    derive_items reg !! i = Some a →
    derive_items reg !! j = Some b →
    regs_disjoint a b.
Proof.
  intros Hwf i j a b Hij Ha Hb.
  exact (FOP_lookup _ _ (derive_from_all_disjoint _ _ _ Hwf) i j a b Hij Ha Hb).
Qed.

(** The flag zf and the register eax of [profile_sample]. *)
Lemma derived_binding_entries_disjoint_witness :
  regs_disjoint (0%nat, mkItem "zf" 1 70) (0%nat, mkItem "eax" 32 0).
Proof.
  apply (derived_binding_entries_disjoint profile_sample profile_sample_wf 0 1);
    [lia | reflexivity | reflexivity].
Defined.


(** Where the registers bound in a class sit in the derived list. *)
Lemma derive_from_member pc cls sets (k : nat) regs f :
  sets !! k = Some regs → In f (derive_regset pc regs) →
  In ((cls + k)%nat, f) (derive_from pc cls sets).
Proof.
  revert cls k. induction sets as [| regs0 rest IH]; intros cls k Hk Hf; [discriminate |].
  cbn [derive_from]. apply in_or_app. destruct k as [| k].
  - injection Hk as ->. left. rewrite Nat.add_0_r.
    apply list_elem_of_In, list_elem_of_fmap. exists f.
    split; [reflexivity | apply list_elem_of_In, Hf].
  - right. replace (cls + S k)%nat with (S cls + k)%nat by lia. apply IH; assumption.
Qed.

Lemma derive_from_source pc cls sets a :
  In a (derive_from pc cls sets) →
  ∃ (k : nat) regs, a.1 = (cls + k)%nat ∧ sets !! k = Some regs ∧ In a.2 regs.
Proof.
  revert cls. induction sets as [| regs0 rest IH]; intros cls; cbn; [tauto |].
  intros H. apply in_app_or in H as [H | H].
  - apply list_elem_of_In, list_elem_of_fmap in H as (it & -> & Hit).
    exists 0%nat, regs0. cbn. split; [lia |]. split; [reflexivity |].
    apply list_elem_of_In, derive_regset_In in Hit. tauto.
  - destruct (IH _ H) as (k & regs & Hc & Hk & Hin).
    exists (S k), regs. split; [lia |]. split; assumption.
Qed.

(** X24. Every one-bit register of the profile has its bit bound: the
    derived binding holds a one-bit register of the same class at the
    same offset. *)
Theorem derived_binding_covers_flags (reg : RzReg) (cls : nat)
    (regs : list RzRegItem) (it : RzRegItem) :
  regset reg !! cls = Some regs →
  it ∈ regs →
  size it = 1 →
  ∃ f : RzRegItem,
    (cls, f) ∈ derive_items reg
    ∧ mkBinding (name f) 1 ∈ rz_il_reg_binding_derive reg
    ∧ f ∈ regs ∧ size f = 1 ∧ offset f = offset it.
Proof.
  intros Hcls Hit Hsz. apply list_elem_of_In in Hit.
  destruct (flags_fold_cover regs [] it Hit Hsz) as (f & Hf & Hoff).
  rewrite <- bind_flags_fold in Hf.
  pose proof (bind_flags_size _ _ Hf) as Hfs.
  assert (Hd : In f (derive_regset (name_pc reg) regs))
    by (unfold derive_regset; apply in_or_app; left; exact Hf).
  pose proof (derive_from_member (name_pc reg) 0 _ cls regs f Hcls Hd) as Hm.
  cbn [Nat.add] in Hm. apply list_elem_of_In in Hm.
  exists f. split; [exact Hm |]. split; [| split; [| split; assumption]].
  - unfold rz_il_reg_binding_derive. apply list_elem_of_fmap.
    exists (cls, f). cbn. rewrite Hfs. split; [reflexivity | exact Hm].
  - apply list_elem_of_In. apply derive_regset_In in Hd. tauto.
Qed.

(** The flag zf of [profile_sample]. *)
Lemma derived_binding_covers_flags_witness :
  ∃ f : RzRegItem,
    (0%nat, f) ∈ derive_items profile_sample
    ∧ mkBinding (name f) 1 ∈ rz_il_reg_binding_derive profile_sample
    ∧ f ∈ regset profile_sample !!! 0%nat ∧ size f = 1 ∧ offset f = 70.
Proof.
  apply (derived_binding_covers_flags profile_sample 0 _ (mkItem "zf" 1 70));
    [reflexivity | | reflexivity].
  cbn. repeat (first [apply list_elem_of_here | apply list_elem_of_further]).
Defined.

(** With unique names a register is found by its name. *)
Lemma find_unique (l : list RzRegItem) (it : RzRegItem) :
  NoDup (name <$> l) → In it l →
  List.find (λ x, String.eqb (name x) (name it)) l = Some it.
Proof.
  induction l as [| x l IH]; intros Hnd Hin; [destruct Hin |].
  cbn in Hnd. apply NoDup_cons in Hnd as [Hx Hnd]. cbn [List.find].
  destruct Hin as [-> | Hin].
  - rewrite String.eqb_refl. reflexivity.
  - destruct (String.eqb_spec (name x) (name it)) as [Heq | Hne].
    + exfalso. apply Hx. rewrite Heq. apply list_elem_of_fmap.
      exists it. split; [reflexivity | apply list_elem_of_In, Hin].
    + apply IH; assumption.
Qed.

Lemma find_absent (l : list RzRegItem) (n : string) :
  n ∉ name <$> l → List.find (λ x, String.eqb (name x) n) l = None.
Proof.
  induction l as [| x l IH]; intros Hn; [reflexivity |]. cbn [List.find].
  destruct (String.eqb_spec (name x) n) as [Heq | Hne].
  - exfalso. apply Hn. cbn. rewrite Heq. left.
  - apply IH. intros H. apply Hn. cbn. right. exact H.
Qed.

Lemma find_item_unique cls sets (k : nat) regs it :
  NoDup (name <$> concat sets) →
  sets !! k = Some regs → In it regs →
  find_item (name it) cls sets = Some ((cls + k)%nat, it).
Proof.
  revert cls k. induction sets as [| regs0 rest IH]; intros cls k Hnd Hk Hin; [discriminate |].
  cbn [concat] in Hnd. rewrite fmap_app in Hnd. apply NoDup_app in Hnd as (Hnd0 & Hcross & Hnd1).
  cbn [find_item]. destruct k as [| k].
  - injection Hk as ->. rewrite (find_unique _ _ Hnd0 Hin), Nat.add_0_r. reflexivity.
  - cbn in Hk. rewrite find_absent.
    + replace (cls + S k)%nat with (S cls + k)%nat by lia. apply IH; assumption.
    + intros H0. apply (Hcross _ H0). apply list_elem_of_fmap. exists it.
      split; [reflexivity |]. apply list_elem_of_In, in_concat.
      exists regs. split; [| exact Hin].
      apply list_elem_of_In. eapply list_elem_of_lookup_2. exact Hk.
Qed.

Lemma derived_item_found reg a :
  names_unique reg → In a (derive_items reg) → rz_reg_get reg (name a.2) = Some a.
Proof.
  intros Hu Ha. destruct (derive_from_source _ _ _ _ Ha) as (k & regs & Hc & Hk & Hin).
  unfold rz_reg_get. rewrite (find_item_unique 0 _ k regs a.2 Hu Hk Hin).
  destruct a as [c it]. cbn in *. subst. reflexivity.
Qed.

Lemma FOP_after {A} (R : A → A → Prop) (l1 l2 : list A) (a b : A) :
  ForallOrdPairs R (l1 ++ a :: l2) → In b l2 → R a b.
Proof.
  induction l1 as [| x l1 IH]; cbn; intros H Hb.
  - inversion H as [| ? ? Ha _]; subst. rewrite Forall_forall in Ha.
    apply Ha, list_elem_of_In, Hb.
  - inversion H; subst. apply IH; assumption.
Qed.

(** X25. A VM set up with the binding derived from a profile in which no
    two registers share a name pushes every bound variable to its
    register: after the push the register reads as the value of the
    variable, zero-extended or cut to its low-order bits where the
    widths differ. *)
Theorem push_derived_binding_writes_entries (vm : VM) (reg : RzReg)
    (item : RzILRegBindingItem) (ri : Located) (w x : Z) :
  wf_profile reg →
  names_unique reg →
  vm_reg_binding vm = Some (rz_il_reg_binding_derive reg) →
  item ∈ rz_il_reg_binding_derive reg →
  rz_reg_get reg (rb_name item) = Some ri →
  vm_globals vm !! rb_name item = Some (VBv w x) →
  0 <= x < 2 ^ w →
  rz_reg_get_bv (rz_il_vm_sync_to_reg vm reg).1 ri
  = (size ri.2, if w <=? size ri.2 then x else x mod 2 ^ size ri.2).
Proof.
  intros Hwf Hu Hrb Hitem Hget Hvar Hx.
  unfold rz_il_reg_binding_derive in Hitem, Hrb.
  apply list_elem_of_fmap in Hitem as (a & -> & Ha).
  pose proof (derived_item_found reg a Hu (proj1 (list_elem_of_In _ _) Ha)) as Hfa.
  cbn [rb_name] in Hget, Hvar. rewrite Hfa in Hget. injection Hget as <-.
  apply list_elem_of_split in Ha as (l1 & l2 & Hsplit).
  pose proof (derive_from_all_disjoint (name_pc reg) 0 _ Hwf) as Hfop.
  fold (derive_items reg) in Hfop. rewrite Hsplit in Hfop, Hrb.
  rewrite fmap_app, fmap_cons in Hrb.
  assert (Hdis : ∀ item' ri', item' ∈ (λ ri : Located, mkBinding (name ri.2) (size ri.2)) <$> l2 →
            rz_reg_get reg (rb_name item') = Some ri' → regs_disjoint a ri').
  { intros item' ri' Hin Hget'. apply list_elem_of_fmap in Hin as (b & -> & Hb).
    assert (Hb' : In b (derive_items reg))
      by (rewrite Hsplit; apply in_or_app; right; right; apply list_elem_of_In, Hb).
    cbn [rb_name] in Hget'. rewrite (derived_item_found reg b Hu Hb') in Hget'.
    injection Hget' as <-. apply (FOP_after _ _ _ _ _ Hfop), list_elem_of_In, Hb. }
  pose proof (rz_reg_get_wf _ _ _ Hwf Hfa) as Hri.
  rewrite sync_to_reg_unfold, Hrb, fold_left_app. cbn [fold_left].
  set (pre := (λ ri : Located, mkBinding (name ri.2) (size ri.2)) <$> l1) in *.
  assert (Hreg1 : regset (fold_left (sync_to_reg_item vm) pre (pushed_pc vm reg)).1
                  = regset reg)
    by (rewrite sync_to_reg_fold_regset; apply pushed_pc_regset).
  rewrite (sync_to_reg_fold_other vm reg _ _ a Hwf Hri);
    [| rewrite sync_to_reg_item_regset; exact Hreg1 | exact Hdis].
  destruct (fold_left (sync_to_reg_item vm) pre (pushed_pc vm reg)) as [reg1 p1].
  cbn [fst] in Hreg1.
  apply sync_to_reg_item_writes; try assumption.
  rewrite (rz_reg_get_regset _ _ _ Hreg1). exact Hfa.
Qed.


Lemma profile_sample_unique : names_unique profile_sample.
Proof. unfold names_unique. apply (bool_decide_unpack _). vm_compute. exact I. Qed.

(** The variable eax of [vm_sample]. *)
Lemma push_derived_binding_writes_entries_witness :
  rz_reg_get_bv (rz_il_vm_sync_to_reg vm_sample profile_sample).1 (0%nat, mkItem "eax" 32 0)
  = (32, 0xdeadbeef).
Proof.
  apply (push_derived_binding_writes_entries vm_sample profile_sample
           (mkBinding "eax" 32) (0%nat, mkItem "eax" 32 0) 32 0xdeadbeef
           profile_sample_wf profile_sample_unique);
    [reflexivity | | reflexivity | reflexivity | lia].
  vm_compute. repeat (first [apply list_elem_of_here | apply list_elem_of_further]).
Defined.

Lemma pushed_pc_other vm reg ri :
  wf_profile reg → wf_item ri.2 →
  (∀ pc ri', name_pc reg = Some pc → rz_reg_get reg pc = Some ri' → regs_disjoint ri ri') →
  rz_reg_get_bv (pushed_pc vm reg).1 ri = rz_reg_get_bv reg ri.
Proof.
  intros Hwf Hri Hdis. unfold pushed_pc.
  destruct (name_pc reg) as [pc |]; [| reflexivity].
  destruct (rz_reg_get reg pc) as [ri' |] eqn:Hget; [| reflexivity].
  cbn [fst]. apply read_after_set_other; [assumption | | apply (Hdis pc); [reflexivity | exact Hget]].
  apply (rz_reg_get_wf _ _ _ Hwf Hget).
Qed.

Lemma pushed_pc_name vm reg : name_pc (pushed_pc vm reg).1 = name_pc reg.
Proof.
  unfold pushed_pc. destruct (name_pc reg) as [pc |] eqn:E; [| exact E].
  destruct (rz_reg_get reg pc); [exact E | exact E].
Qed.

Lemma sync_to_reg_item_name vm acc item :
  name_pc (sync_to_reg_item vm acc item).1 = name_pc acc.1.
Proof.
  destruct acc as [reg p]. unfold sync_to_reg_item.
  destruct (rz_reg_get reg (rb_name item)) as [ri |]; [| reflexivity].
  destruct (rz_il_hash_find_val_by_name vm (rb_name item)) as [[b | w x] |]; try reflexivity.
  destruct (negb (rz_bv_len (w, x) =? size ri.2)); reflexivity.
Qed.

Lemma sync_to_reg_fold_name vm rb acc :
  name_pc (fold_left (sync_to_reg_item vm) rb acc).1 = name_pc acc.1.
Proof.
  revert acc. induction rb as [| item rb IH]; intros acc; cbn; [reflexivity |].
  rewrite IH. apply sync_to_reg_item_name.
Qed.

(** X26. A push leaves the contents of a register as they were when the
    register shares no bit with the program counter register nor with
    the register of any bound entry; it changes neither the register
    lists nor the name of the program counter. *)
Theorem push_leaves_other_registers (vm : VM) (reg : RzReg) (ri : Located) :
  wf_profile reg →
  wf_item ri.2 →
  (∀ pc ri', name_pc reg = Some pc → rz_reg_get reg pc = Some ri' → regs_disjoint ri ri') →
  (∀ rb item ri', vm_reg_binding vm = Some rb → item ∈ rb →
     rz_reg_get reg (rb_name item) = Some ri' → regs_disjoint ri ri') →
  rz_reg_get_bv (rz_il_vm_sync_to_reg vm reg).1 ri = rz_reg_get_bv reg ri
  ∧ regset (rz_il_vm_sync_to_reg vm reg).1 = regset reg
  ∧ name_pc (rz_il_vm_sync_to_reg vm reg).1 = name_pc reg.
Proof.
  intros Hwf Hri Hpc Hrb. rewrite sync_to_reg_unfold.
  destruct (vm_reg_binding vm) as [rb |]; cbn [fst].
  - split; [| split].
    + rewrite (sync_to_reg_fold_other vm reg rb _ ri Hwf Hri).
      * apply pushed_pc_other; assumption.
      * apply pushed_pc_regset.
      * intros item ri' Hin. apply (Hrb rb); [reflexivity | exact Hin].
    + rewrite sync_to_reg_fold_regset. apply pushed_pc_regset.
    + rewrite sync_to_reg_fold_name. apply pushed_pc_name.
  - split; [apply pushed_pc_other; assumption |].
    split; [apply pushed_pc_regset | apply pushed_pc_name].
Qed.

(** Sixteen bits that no bound register of [profile_sample] covers. *)
Lemma push_leaves_other_registers_witness :
  rz_reg_get_bv (rz_il_vm_sync_to_reg vm_sample profile_filled).1 (0%nat, mkItem "gap" 16 80)
  = rz_reg_get_bv profile_filled (0%nat, mkItem "gap" 16 80)
  ∧ regset (rz_il_vm_sync_to_reg vm_sample profile_filled).1 = regset profile_filled
  ∧ name_pc (rz_il_vm_sync_to_reg vm_sample profile_filled).1 = name_pc profile_filled.
Proof.
  apply (push_leaves_other_registers vm_sample profile_filled (0%nat, mkItem "gap" 16 80)
           profile_filled_wf).
  - split; cbn; lia.
  - intros pc ri' [= <-] Hget. vm_compute in Hget. injection Hget as <-.
    right. cbn. lia.
  - intros rb item ri' [= <-] Hin Hget.
    vm_compute in Hin.
    repeat (apply elem_of_cons in Hin as [-> | Hin]);
      try (vm_compute in Hget; injection Hget as <-;
           first [left; cbn; lia | right; cbn; lia]).
    inversion Hin.
Defined.


(** *** Pull *)

Lemma sync_from_reg_item_fields reg vm item :
  vm_locals (sync_from_reg_item reg vm item) = vm_locals vm
  ∧ vm_mem (sync_from_reg_item reg vm item) = vm_mem vm
  ∧ vm_big_endian (sync_from_reg_item reg vm item) = vm_big_endian vm
  ∧ vm_pc (sync_from_reg_item reg vm item) = vm_pc vm
  ∧ vm_reg_binding (sync_from_reg_item reg vm item) = vm_reg_binding vm.
Proof.
  unfold sync_from_reg_item, rz_il_find_var_by_name, rz_il_hash_bind.
  destruct (vm_globals vm !! rb_name item); repeat split.
Qed.

Lemma sync_from_reg_fold_fields reg rb vm :
  vm_locals (fold_left (sync_from_reg_item reg) rb vm) = vm_locals vm
  ∧ vm_mem (fold_left (sync_from_reg_item reg) rb vm) = vm_mem vm
  ∧ vm_big_endian (fold_left (sync_from_reg_item reg) rb vm) = vm_big_endian vm
  ∧ vm_pc (fold_left (sync_from_reg_item reg) rb vm) = vm_pc vm
  ∧ vm_reg_binding (fold_left (sync_from_reg_item reg) rb vm) = vm_reg_binding vm.
Proof.
  revert vm. induction rb as [| it rb IH]; intros vm; cbn; [repeat split |].
  destruct (IH (sync_from_reg_item reg vm it)) as (-> & -> & -> & -> & ->).
  apply sync_from_reg_item_fields.
Qed.

Lemma sync_from_reg_item_none reg vm item n :
  vm_globals vm !! n = None → vm_globals (sync_from_reg_item reg vm item) !! n = None.
Proof.
  intros Hn. unfold sync_from_reg_item, rz_il_find_var_by_name, rz_il_hash_bind.
  destruct (vm_globals vm !! rb_name item) eqn:E; [| exact Hn].
  rewrite globals_set_global, lookup_insert_ne; [exact Hn | congruence].
Qed.

Lemma sync_from_reg_fold_none reg rb vm n :
  vm_globals vm !! n = None →
  vm_globals (fold_left (sync_from_reg_item reg) rb vm) !! n = None.
Proof.
  revert vm. induction rb as [| it rb IH]; intros vm Hn; cbn; [exact Hn |].
  apply IH, sync_from_reg_item_none, Hn.
Qed.

Lemma pulled_pc_other_fields vm reg :
  vm_locals (pulled_pc vm reg) = vm_locals vm
  ∧ vm_mem (pulled_pc vm reg) = vm_mem vm
  ∧ vm_big_endian (pulled_pc vm reg) = vm_big_endian vm.
Proof.
  unfold pulled_pc. destruct (name_pc reg) as [pc |]; [| auto].
  destruct (rz_reg_get reg pc); auto.
Qed.

(** X27. A pull changes no variable that is not named in the binding,
    creates and removes no variable, and leaves the local variables, the
    memory, the binding and the event log as they were. *)
Theorem pull_leaves_unbound_state (vm : VM) (reg : RzReg) :
  (∀ n : string,
     (∀ rb item, vm_reg_binding vm = Some rb → item ∈ rb → rb_name item ≠ n) →
     vm_globals (rz_il_vm_sync_from_reg vm reg) !! n = vm_globals vm !! n)
  ∧ (∀ n : string,
       is_Some (vm_globals (rz_il_vm_sync_from_reg vm reg) !! n)
       ↔ is_Some (vm_globals vm !! n))
  ∧ vm_locals (rz_il_vm_sync_from_reg vm reg) = vm_locals vm
  ∧ vm_mem (rz_il_vm_sync_from_reg vm reg) = vm_mem vm
  ∧ vm_reg_binding (rz_il_vm_sync_from_reg vm reg) = vm_reg_binding vm
  ∧ vm_events (rz_il_vm_sync_from_reg vm reg) = vm_events vm.
Proof.
  rewrite sync_from_reg_unfold.
  destruct (pulled_pc_fields vm reg) as (Hg & Hb & He).
  destruct (pulled_pc_other_fields vm reg) as (Hl & Hm & _).
  destruct (vm_reg_binding vm) as [rb |] eqn:Hrb.
  - destruct (sync_from_reg_fold_fields reg rb (pulled_pc vm reg)) as (-> & -> & _ & _ & ->).
    rewrite sync_from_reg_fold_events.
    split; [| split; [| repeat split; assumption]].
    + intros n Hn. rewrite sync_from_reg_fold_globals, Hg; [reflexivity |].
      intros it Hit. apply (Hn rb); [reflexivity | exact Hit].
    + intros n. split.
      * intros Hs. destruct (vm_globals vm !! n) eqn:E; [eexists; reflexivity |].
        rewrite sync_from_reg_fold_none in Hs by (rewrite Hg; exact E).
        destruct Hs; discriminate.
      * intros Hs. apply sync_from_reg_fold_some. rewrite Hg. exact Hs.
  - rewrite Hg. repeat split; try assumption; tauto.
Qed.

(** The variable [other] of [vm_sample] is not bound. *)
Lemma pull_leaves_unbound_state_witness :
  vm_globals (rz_il_vm_sync_from_reg vm_sample profile_filled) !! "other"%string
  = vm_globals vm_sample !! "other"%string.
Proof.
  apply (proj1 (pull_leaves_unbound_state vm_sample profile_filled)).
  intros rb item [= <-] Hin.
  vm_compute in Hin.
  repeat (apply elem_of_cons in Hin as [-> | Hin]); try discriminate.
  inversion Hin.
Defined.

Lemma bits_read_range (a off sz : Z) : 0 <= sz → 0 <= bits_read a off sz < 2 ^ sz.
Proof.
  intros Hs. unfold bits_read. rewrite Z.land_ones by assumption.
  apply Z.mod_pos_bound, pow2_pos, Hs.
Qed.

(** The value a pull step binds when the register exists. *)
Lemma sync_from_reg_item_value reg vm item ri :
  wf_item ri.2 → 0 <= rb_size item →
  rz_reg_get reg (rb_name item) = Some ri →
  is_Some (vm_globals vm !! rb_name item) →
  vm_globals (sync_from_reg_item reg vm item) !! rb_name item
  = Some (VBv (rb_size item)
            ((rz_reg_get_bv reg ri).2 mod 2 ^ Z.min (size ri.2) (rb_size item))).
Proof.
  intros [Ho Hs] Hb Hget [v0 Hv0].
  unfold sync_from_reg_item, rz_il_find_var_by_name, rz_il_hash_bind.
  rewrite Hv0, Hget. rewrite globals_set_global, lookup_insert_eq.
  unfold rz_il_vm_fortify_bitv, rz_bv_len, rz_reg_get_bv. cbn [fst snd].
  pose proof (bits_read_range (arena_bits reg ri.1) (offset ri.2) (size ri.2) Hs) as Hr.
  destruct (Z.eqb_spec (size ri.2) (rb_size item)) as [Heq | Hne]; cbn [negb fst snd].
  - rewrite <- Heq, Z.min_id, Z.mod_small by assumption. reflexivity.
  - unfold rz_bv_copy_nbits, rz_bv_new_zero. cbn [fst snd].
    rewrite copy_low_bits by lia. reflexivity.
Qed.

(** X28. In a pull, a bound entry whose register and variable exist (no
    later entry having the same name) leaves the variable bound to a
    bitvector of the size recorded in the binding that holds the
    register's contents, zero-extended or cut to the low-order bits
    where the sizes differ. *)
Theorem pull_coerces_register_value (vm : VM) (reg : RzReg)
    (pre post : list RzILRegBindingItem) (item : RzILRegBindingItem) (ri : Located) :
  wf_profile reg →
  0 <= rb_size item →
  vm_reg_binding vm = Some (pre ++ item :: post) →
  rz_reg_get reg (rb_name item) = Some ri →
  is_Some (vm_globals vm !! rb_name item) →
  (∀ it, it ∈ post → rb_name it ≠ rb_name item) →
  vm_globals (rz_il_vm_sync_from_reg vm reg) !! rb_name item
  = Some (VBv (rb_size item)
            ((rz_reg_get_bv reg ri).2 mod 2 ^ Z.min (size ri.2) (rb_size item))).
Proof.
  intros Hwf Hb Hrb Hget Hvar Hpost.
  rewrite sync_from_reg_unfold, Hrb.
  destruct (pulled_pc_fields vm reg) as (Hg & _ & _).
  rewrite fold_left_app. cbn [fold_left].
  rewrite sync_from_reg_fold_globals by exact Hpost.
  apply sync_from_reg_item_value; try assumption.
  - apply (rz_reg_get_wf _ _ _ Hwf Hget).
  - apply sync_from_reg_fold_some. rewrite Hg. exact Hvar.
Qed.

(** The register eax of [profile_filled]. *)
Lemma pull_coerces_register_value_witness :
  vm_globals (rz_il_vm_sync_from_reg vm_sample profile_filled) !! "eax"%string
  = Some (VBv 32
            ((rz_reg_get_bv profile_filled (0%nat, mkItem "eax" 32 0)).2
               mod 2 ^ Z.min 32 32)).
Proof.
  apply (pull_coerces_register_value vm_sample profile_filled
           [mkBinding "zf" 1]
           [mkBinding "ebx" 32; mkBinding "f0" 64; mkBinding "f1" 64]
           (mkBinding "eax" 32) (0%nat, mkItem "eax" 32 0) profile_filled_wf).
  - cbn. lia.
  - reflexivity.
  - reflexivity.
  - eexists; reflexivity.
  - intros it Hin.
    repeat (apply elem_of_cons in Hin as [-> | Hin]); try discriminate.
    inversion Hin.
Defined.

(** X29. A pull keeps the width of the VM's program counter.  When the
    register file names a program counter register that exists, the
    program counter receives the register's contents, zero-extended or
    cut to its low-order bits; otherwise it is unchanged. *)
Theorem pull_sets_program_counter (vm : VM) (reg : RzReg) :
  0 <= rz_bv_len (vm_pc vm) →
  wf_profile reg →
  vm_pc (rz_il_vm_sync_from_reg vm reg)
  = match name_pc reg ≫= rz_reg_get reg with
    | Some ri =>
        (rz_bv_len (vm_pc vm),
         (rz_reg_get_bv reg ri).2 mod 2 ^ Z.min (size ri.2) (rz_bv_len (vm_pc vm)))
    | None => vm_pc vm
    end.
Proof.
  intros Hlen Hwf. rewrite sync_from_reg_unfold.
  assert (Hpc : vm_pc (pulled_pc vm reg)
                = match name_pc reg ≫= rz_reg_get reg with
                  | Some ri =>
                      (rz_bv_len (vm_pc vm),
                       (rz_reg_get_bv reg ri).2
                         mod 2 ^ Z.min (size ri.2) (rz_bv_len (vm_pc vm)))
                  | None => vm_pc vm
                  end).
  { unfold pulled_pc. destruct (name_pc reg) as [pc |]; cbn [mbind option_bind]; [| reflexivity].
    destruct (rz_reg_get reg pc) as [ri |] eqn:Hget; [| reflexivity].
    destruct (rz_reg_get_wf _ _ _ Hwf Hget) as [Ho Hs].
    unfold set_pc, rz_bv_copy_nbits, rz_bv_set_all, rz_bv_len, rz_reg_get_bv in *.
    cbn [vm_pc fst snd]. rewrite copy_low_bits by lia. reflexivity. }
  destruct (vm_reg_binding vm) as [rb |]; [| exact Hpc].
  destruct (sync_from_reg_fold_fields reg rb (pulled_pc vm reg)) as (_ & _ & _ & -> & _).
  exact Hpc.
Qed.

(** The program counter register of [profile_filled]. *)
Lemma pull_sets_program_counter_witness :
  vm_pc (rz_il_vm_sync_from_reg vm_sample profile_filled)
  = match name_pc profile_filled ≫= rz_reg_get profile_filled with
    | Some ri =>
        (rz_bv_len (vm_pc vm_sample),
         (rz_reg_get_bv profile_filled ri).2
           mod 2 ^ Z.min (size ri.2) (rz_bv_len (vm_pc vm_sample)))
    | None => vm_pc vm_sample
    end.
Proof.
  apply (pull_sets_program_counter vm_sample profile_filled).
  - cbn. lia.
  - exact profile_filled_wf.
Defined.


(** *** Pull, then push *)

Lemma bits_write_read_id (a off sz : Z) :
  0 <= off → 0 <= sz → bits_write a off sz (bits_read a off sz) = a.
Proof.
  intros Ho Hs. apply Z.bits_inj'. intros m Hm.
  rewrite bits_write_spec by lia.
  destruct (Z.leb_spec off m) as [Hle | Hlt]; cbn [andb]; [| reflexivity].
  destruct (Z.ltb_spec m (off + sz)) as [Hin | Hout]; [| reflexivity].
  rewrite bits_read_spec by lia.
  replace (m - off <? sz) with true by (symmetry; apply Z.ltb_lt; lia).
  cbn [andb]. f_equal. lia.
Qed.

(** Writing a register's own contents back leaves every arena as it was. *)
Lemma set_own_bits (r reg : RzReg) (ri : Located) (w : Z) :
  wf_item ri.2 →
  (∀ cls, arena_bits r cls = arena_bits reg cls) →
  ∀ cls,
    arena_bits (rz_reg_set_bv r ri (w, (rz_reg_get_bv reg ri).2)).1 cls
    = arena_bits reg cls.
Proof.
  intros [Ho Hs] Hsame cls. unfold rz_reg_set_bv, rz_reg_get_bv, arena_bits at 1.
  cbn [fst snd arena].
  destruct (decide (ri.1 = cls)) as [<- | Hne].
  - rewrite lookup_insert_eq. cbn [default from_option id].
    rewrite Hsame. apply bits_write_read_id; assumption.
  - rewrite lookup_insert_ne by assumption. apply Hsame.
Qed.

(** After a pull every bound variable holds its register's contents. *)
Lemma pull_fold_values reg rb :
  wf_profile reg →
  ∀ vm0, Forall (entry_matches vm0 reg) rb →
  ∀ item ri, item ∈ rb → rz_reg_get reg (rb_name item) = Some ri →
    vm_globals (fold_left (sync_from_reg_item reg) rb vm0) !! rb_name item
    = Some (VBv (size ri.2) (rz_reg_get_bv reg ri).2).
Proof.
  intros Hwf. induction rb as [| last rb IH] using rev_ind; intros vm0 Hall item ri Hin Hget.
  - inversion Hin.
  - apply Forall_app in Hall as [Hall Hlast]. apply List.Forall_inv in Hlast.
    destruct Hlast as (rl & Hgl & Hsl & Hvl).
    pose proof (rz_reg_get_wf _ _ _ Hwf Hgl) as Hwl.
    rewrite fold_left_app. cbn [fold_left].
    assert (Vlast : vm_globals (sync_from_reg_item reg
                                  (fold_left (sync_from_reg_item reg) rb vm0) last)
                      !! rb_name last
                    = Some (VBv (size rl.2) (rz_reg_get_bv reg rl).2)).
    { rewrite (sync_from_reg_item_value reg _ last rl Hwl); try assumption.
      - rewrite <- Hsl, Z.min_id. rewrite Z.mod_small; [reflexivity |].
        apply bits_read_range, Hwl.
      - destruct Hwl; lia.
      - apply sync_from_reg_fold_some, Hvl. }
    destruct (decide (rb_name item = rb_name last)) as [Heq | Hne].
    + rewrite Heq in Hget |- *. rewrite Hgl in Hget. injection Hget as <-. exact Vlast.
    + rewrite sync_from_reg_item_globals by exact Hne.
      apply elem_of_app in Hin as [Hin | Hin].
      * apply IH; assumption.
      * apply list_elem_of_singleton in Hin. subst. contradiction.
Qed.

Lemma sync_to_reg_item_same vm' reg r p item ri :
  wf_item ri.2 →
  regset r = regset reg →
  (∀ cls, arena_bits r cls = arena_bits reg cls) →
  rz_reg_get reg (rb_name item) = Some ri →
  vm_globals vm' !! rb_name item = Some (VBv (size ri.2) (rz_reg_get_bv reg ri).2) →
  ∀ cls, arena_bits (sync_to_reg_item vm' (r, p) item).1 cls = arena_bits reg cls.
Proof.
  intros Hwi Hreg Hsame Hget Hvar. unfold sync_to_reg_item, rz_il_hash_find_val_by_name.
  rewrite (rz_reg_get_regset _ _ _ Hreg), Hget, Hvar.
  unfold rz_bv_len. cbn [fst]. rewrite Z.eqb_refl. cbn [negb].
  intros cls.
  change (arena_bits (rz_reg_set_bv r ri (size ri.2, (rz_reg_get_bv reg ri).2)).1 cls
          = arena_bits reg cls).
  apply set_own_bits; assumption.
Qed.

Lemma sync_to_reg_fold_same vm' reg rb :
  wf_profile reg →
  (∀ item, item ∈ rb →
     ∃ ri, rz_reg_get reg (rb_name item) = Some ri
           ∧ vm_globals vm' !! rb_name item
             = Some (VBv (size ri.2) (rz_reg_get_bv reg ri).2)) →
  ∀ acc, regset acc.1 = regset reg →
    (∀ cls, arena_bits acc.1 cls = arena_bits reg cls) →
    ∀ cls, arena_bits (fold_left (sync_to_reg_item vm') rb acc).1 cls = arena_bits reg cls.
Proof.
  intros Hwf. induction rb as [| item rb IH]; intros Hall acc Hreg Hsame; cbn; [exact Hsame |].
  apply IH.
  - intros it Hit. apply Hall. right. exact Hit.
  - rewrite sync_to_reg_item_regset. exact Hreg.
  - destruct (Hall item ltac:(left)) as (ri & Hget & Hvar).
    destruct acc as [r p]. cbn [fst] in *.
    apply (sync_to_reg_item_same vm' reg r p item ri); try assumption.
    apply (rz_reg_get_wf _ _ _ Hwf Hget).
Qed.

(** X30. When the program counter register has the width of the VM's
    program counter and every bound entry has a variable and a register of
    the entry's size, a pull followed by a push reports full fidelity and
    leaves every arena of the register file as it was. *)
Theorem pull_then_push_is_identity (vm : VM) (reg : RzReg)
    (rb : list RzILRegBindingItem) :
  wf_profile reg →
  vm_reg_binding vm = Some rb →
  pc_clean vm reg = true →
  Forall (entry_matches vm reg) rb →
  (rz_il_vm_sync_to_reg (rz_il_vm_sync_from_reg vm reg) reg).2 = true
  ∧ regset (rz_il_vm_sync_to_reg (rz_il_vm_sync_from_reg vm reg) reg).1 = regset reg
  ∧ name_pc (rz_il_vm_sync_to_reg (rz_il_vm_sync_from_reg vm reg) reg).1 = name_pc reg
  ∧ ∀ cls : nat,
      arena_bits (rz_il_vm_sync_to_reg (rz_il_vm_sync_from_reg vm reg) reg).1 cls
      = arena_bits reg cls.
Proof.
  intros Hwf Hrb Hpc Hall.
  set (vm' := rz_il_vm_sync_from_reg vm reg).
  assert (Hvm' : vm' = fold_left (sync_from_reg_item reg) rb (pulled_pc vm reg))
    by (unfold vm'; rewrite sync_from_reg_unfold, Hrb; reflexivity).
  destruct (pulled_pc_fields vm reg) as (Hg & Hb & _).
  destruct (sync_from_reg_fold_fields reg rb (pulled_pc vm reg)) as (_ & _ & _ & Hpc' & Hrb').
  rewrite <- Hvm' in Hpc', Hrb'. rewrite Hb, Hrb in Hrb'.
  assert (Hall1 : Forall (entry_matches (pulled_pc vm reg) reg) rb).
  { eapply Forall_impl; [exact Hall |]. intros it (ri & ? & ? & ?).
    exists ri. rewrite Hg. auto. }
  assert (Hvals : ∀ item, item ∈ rb →
            ∃ ri, rz_reg_get reg (rb_name item) = Some ri
                  ∧ vm_globals vm' !! rb_name item
                    = Some (VBv (size ri.2) (rz_reg_get_bv reg ri).2)).
  { intros item Hin. rewrite Forall_forall in Hall. destruct (Hall item Hin) as (ri & Hget & _).
    exists ri. split; [exact Hget |]. rewrite Hvm'.
    apply pull_fold_values; assumption. }
  (* the program counter *)
  unfold pc_clean in Hpc.
  destruct (name_pc reg) as [pc |] eqn:Hname; [| discriminate].
  destruct (rz_reg_get reg pc) as [rp |] eqn:Hgp; [| discriminate].
  apply Z.eqb_eq in Hpc.
  pose proof (rz_reg_get_wf _ _ _ Hwf Hgp) as Hwp.
  assert (Hpcv : vm_pc vm' = (size rp.2, (rz_reg_get_bv reg rp).2)).
  { rewrite Hpc'. unfold pulled_pc. rewrite Hname, Hgp.
    unfold set_pc, rz_bv_copy_nbits, rz_bv_set_all, rz_bv_len in *.
    cbn [vm_pc fst snd]. rewrite <- Hpc, Z.min_id.
    rewrite copy_low_bits by (destruct Hwp; lia).
    rewrite Z.mod_small; [reflexivity |]. apply bits_read_range, Hwp. }
  assert (Hpushed : (pushed_pc vm' reg).2 = true
                    ∧ ∀ cls, arena_bits (pushed_pc vm' reg).1 cls = arena_bits reg cls).
  { unfold pushed_pc. rewrite Hname, Hgp, Hpcv.
    unfold rz_bv_len, rz_bv_new_zero, rz_bv_copy_nbits. cbn [fst snd].
    split; [apply Z.eqb_refl |]. rewrite Z.min_id.
    rewrite copy_low_bits by (destruct Hwp; lia).
    rewrite Z.mod_small by (apply bits_read_range, Hwp).
    intros cls.
    change (arena_bits (rz_reg_set_bv reg rp (size rp.2, (rz_reg_get_bv reg rp).2)).1 cls
            = arena_bits reg cls).
    apply set_own_bits; [assumption | reflexivity]. }
  destruct Hpushed as [Hflag Hbits].
  split; [| split; [| split]].
  - rewrite sync_to_reg_fidelity, Hrb'. unfold pc_clean. rewrite Hname, Hgp, Hpcv.
    unfold rz_bv_len. cbn [fst]. rewrite Z.eqb_refl. cbn [andb].
    apply forallb_forall. intros item Hin. apply list_elem_of_In in Hin.
    destruct (Hvals item Hin) as (ri & Hget & Hvar).
    unfold entry_clean. rewrite Hget, Hvar. apply Z.eqb_refl.
  - rewrite sync_to_reg_unfold, Hrb', sync_to_reg_fold_regset. apply pushed_pc_regset.
  - rewrite sync_to_reg_unfold, Hrb', sync_to_reg_fold_name, pushed_pc_name. exact Hname.
  - rewrite sync_to_reg_unfold, Hrb'.
    apply sync_to_reg_fold_same; try assumption. apply pushed_pc_regset.
Qed.

(** [vm_sample] against [profile_filled]. *)
Lemma pull_then_push_is_identity_witness :
  (rz_il_vm_sync_to_reg (rz_il_vm_sync_from_reg vm_sample profile_filled)
     profile_filled).2 = true
  ∧ regset (rz_il_vm_sync_to_reg (rz_il_vm_sync_from_reg vm_sample profile_filled)
              profile_filled).1 = regset profile_filled
  ∧ name_pc (rz_il_vm_sync_to_reg (rz_il_vm_sync_from_reg vm_sample profile_filled)
               profile_filled).1 = name_pc profile_filled
  ∧ ∀ cls : nat,
      arena_bits (rz_il_vm_sync_to_reg (rz_il_vm_sync_from_reg vm_sample profile_filled)
                    profile_filled).1 cls
      = arena_bits profile_filled cls.
Proof.
  apply (pull_then_push_is_identity vm_sample profile_filled
           [mkBinding "zf" 1; mkBinding "eax" 32; mkBinding "ebx" 32;
            mkBinding "f0" 64; mkBinding "f1" 64] profile_filled_wf).
  - reflexivity.
  - reflexivity.
  - repeat constructor;
      (eexists; split; [reflexivity | split; [reflexivity | eexists; reflexivity]]).
Defined.

End RegMore.
